(** * grpcer: merging streamed gRPC responses into one JSON document

    A shallow embedding of [merge.go] (the trim writer, the field
    classifier [sliceFields] and the orchestrator [mergeStreams]) and of
    [DialOpts] and [Connect] from the package's client file, with the
    properties the package's specification states about them and further
    properties of the code.

    Conventions of the embedding:
    - a Go [[]byte] and the bytes of a Go [string] are a [list byte];
      identifiers used as map keys (field names) are Rocq strings;
    - [io.Writer] is the type class [Writer]; a write returns the new
      state of the writer, the count and the error, as in Go;
    - the JSON encoder (json-iterator) is not part of the package: it is a
      parameter that says, for every value, which [Write] calls
      [Encoder.Encode] issues on its destination;
    - the operating system and the Go runtime are a parameter too
      ([env]): whether [ioutil.TempFile] and [File.Seek] succeed, and in
      which order [range] visits a map;
    - a run-time panic is an outcome of the run, not an exception. *)

From Stdlib Require Import Strings.Byte Strings.String Strings.Ascii.
From stdpp Require Import base option strings list gmap pretty.

Set Default Proof Using "Type".

(** ** Bytes, errors, writers *)

Abbreviation bytes := (list byte).

#[global] Instance byte_eq_decision : EqDecision byte := byte_eq_dec.

(** The bytes of a string literal, [[]byte("...")]. *)
Definition B (s : string) : bytes := String.list_byte_of_string s.
Arguments B : simpl never.

(** Go's [error] values, as far as the package tells them apart:
    [io.EOF] and everything else. *)
Inductive error : Type :=
  | EOF
  | Err (msg : string).

#[global] Instance error_eq_decision : EqDecision error.
Proof. solve_decision. Defined.

(** [io.Writer]: [Write(p) (n int, err error)], with the state of the
    writer made explicit. *)
Class Writer (W : Type) := Write : W → bytes → W * nat * option error.

(** An in-memory sink that accepts everything ([bytes.Buffer]); an
    opened temporary file is modelled by the same instance. *)
#[global] Instance buffer_Writer : Writer bytes :=
  fun w p => (w ++ p, length p, None).

(** A write whose results are discarded, as in [w.Write([]byte("{"))]. *)
Definition put {W} `{Writer W} (w : W) (p : bytes) : W := (Write w p).1.1.

(** A caller that issues the [Write] calls [ps] in order and gives up at
    the first error, as an encoder flushing its stream does. *)
Fixpoint writeAll {W} `{Writer W} (w : W) (ps : list bytes) : W * option error :=
  match ps with
  | [] => (w, None)
  | p :: ps =>
      match Write w p with
      | (w', _, Some err) => (w', Some err)
      | (w', _, None) => writeAll w' ps
      end
  end.

(** ** The trim writer *)

Module TrimWriter.
Section trim.
Context {W : Type} `{Writer W}.

Record trimWriter : Type := mkTrimWriter {
  w : W;
  prefix : bytes;
  suffix : bytes;
  buf : bytes
}.

Definition newTrimWriter (w : W) (prefix suffix : bytes) : trimWriter :=
  {| w := w; prefix := prefix; suffix := suffix; buf := [] |}.

Definition set_w (tw : trimWriter) (w' : W) : trimWriter :=
  {| w := w'; prefix := prefix tw; suffix := suffix tw; buf := buf tw |}.
Definition set_prefix (tw : trimWriter) (p : bytes) : trimWriter :=
  {| w := w tw; prefix := p; suffix := suffix tw; buf := buf tw |}.
Definition set_buf (tw : trimWriter) (b : bytes) : trimWriter :=
  {| w := w tw; prefix := prefix tw; suffix := suffix tw; buf := b |}.

(** [func (tw *trimWriter) Write(p []byte) (int, error)].  The three
    stages of the body are kept apart: the prefix, the flush of a full
    hold-back buffer, the hold-back of the tail. *)
Definition Write_tail (tw : trimWriter) (n : nat) (p : bytes)
  : trimWriter * nat * option error :=
  if bool_decide (length p ≤ length (suffix tw)) then
    (set_buf tw (buf tw ++ p), n, None)
  else
    let i := length p - length (suffix tw) + length (buf tw) in
    let tw := set_buf tw (buf tw ++ drop i p) in
    let '(w', _, err) := Write (w tw) (take i p) in
    (set_w tw w', n, err).

Definition Write_flush (tw : trimWriter) (n : nat) (p : bytes)
  : trimWriter * nat * option error :=
  if bool_decide (0 < length (buf tw)) && bool_decide (length (suffix tw) ≤ length (buf tw)) then
    match Write (w tw) (buf tw) with
    | (w', _, Some err) => (set_w tw w', 0, Some err)
    | (w', _, None) => Write_tail (set_buf (set_w tw w') []) n p
    end
  else Write_tail tw n p.

Definition trimWriter_Write (tw : trimWriter) (p : bytes)
  : trimWriter * nat * option error :=
  let n := length p in
  if bool_decide (prefix tw ≠ []) then
    if bool_decide (length p ≤ length (prefix tw)) then
      (set_prefix tw (drop (length p) (prefix tw)), n, None)
    else
      Write_flush (set_prefix tw []) n (drop (length (prefix tw)) p)
  else Write_flush tw n p.

(** [func (tw *trimWriter) Close() error]; the destination is what the
    caller keeps. *)
Definition trimWriter_Close (tw : trimWriter) : W * option error :=
  if bool_decide (suffix tw = buf tw) then (w tw, None)
  else let '(w', _, err) := Write (w tw) (buf tw) in (w', err).

End trim.
Arguments trimWriter W : clear implicits.

#[global] Instance trimWriter_Writer {W} `{Writer W} : Writer (trimWriter W) :=
  trimWriter_Write.

(** What reaches an in-memory destination when [ps] are written one call
    after the other and the writer is closed. *)
Definition filtered (prefix suffix : bytes) (ps : list bytes) : bytes :=
  (trimWriter_Close (writeAll (newTrimWriter ([] : bytes) prefix suffix) ps).1).1.

(** The calls [ps] without the first [n] bytes of the stream they make:
    a call that lies within those bytes is not made at all, the call that
    goes beyond them is made with what is beyond, and later calls are made
    as they are. *)
Fixpoint dropBytes (n : nat) (ps : list bytes) : list bytes :=
  match ps with
  | [] => []
  | p :: ps' =>
      if bool_decide (n = 0) then p :: ps'
      else if bool_decide (length p ≤ n) then dropBytes (n - length p) ps'
      else drop n p :: ps'
  end.

(** The same writer with [w0] put before what its destination holds. *)
Definition shift (w0 : bytes) (tw : trimWriter bytes) : trimWriter bytes :=
  set_w tw (w0 ++ w tw).

(** The state of a writer with a one-byte suffix after it has let the
    bytes [y] through its prefix stage: all of [y] but its last byte has
    reached the destination (which held [w0] before), and the last byte is
    held back. *)
Definition holds (tw : trimWriter bytes) (w0 y : bytes) : Prop :=
  w tw ++ buf tw = w0 ++ y ∧ length (buf tw) = min 1 (length y) ∧
  (prefix tw ≠ [] → y = []) ∧ length (suffix tw) = 1.

End TrimWriter.
Import TrimWriter.

(** ** Records, fields and the encoder *)

(** The line feed an encoder ends a value with, and the JSON quote. *)
Definition nl : bytes := [x0a].
Definition quote : bytes := [x22].

(** [a,b,c] from the pieces [a], [b], [c]. *)
Fixpoint joined (xs : list bytes) : bytes :=
  match xs with
  | [] => []
  | [x] => x
  | x :: xs => x ++ B "," ++ joined xs
  end.

Module Merge.
Section model.
(** [Sc] is what a field of any kind other than slice holds, [E] what
    the elements of a slice are; the merge never looks inside either. *)
Context {Sc E : Type}.

(** A field value as reflection shows it: its kind is [reflect.Slice] or
    not, and a slice is nil ([None]) or has elements (possibly zero). *)
Inductive gvalue : Type :=
  | Scalar (x : Sc)
  | Slice (xs : option (list E)).

(** One declared field of a struct type together with its value:
    [t.Field(i).Name], the value of key [json] in [t.Field(i).Tag], and
    [rv.Field(i)].  A record is a struct value (a pointer to a struct is
    dereferenced by [sliceFields] first); its fields are in declared
    order.  Values on which reflection itself panics (not a struct, a
    nil pointer, an unexported field) are not records. *)
Record structField : Type := mkStructField {
  sfName : string;
  sfTag : string;
  sfValue : gvalue
}.
#[local] Abbreviation record := (list structField).

(** [type field struct { Name, JSONName string; Value interface{} }] *)
Record field : Type := mkField {
  Name : string;
  JSONName : string;
  Value : gvalue
}.

(** [strings.IndexByte(s, c)], with [None] for -1. *)
Fixpoint IndexByte (s : string) (c : ascii) : option nat :=
  match s with
  | EmptyString => None
  | String a s' => if bool_decide (a = c) then Some 0 else S <$> IndexByte s' c
  end.

(** The external name of a declared field: the json tag up to its first
    comma, or the Go name when that is empty. *)
Definition jsonName (sf : structField) : string :=
  let j := sfTag sf in
  let j := match IndexByte j ","%char with
           | Some i => String.substring 0 i j
           | None => j
           end in
  if bool_decide (j = EmptyString) then sfName sf else j.

(** One iteration of the loop of [sliceFields]. *)
Definition classify (acc : list field * list field) (sf : structField)
  : list field * list field :=
  let '(slice, notSlice) := acc in
  let fld := {| Name := sfName sf; JSONName := jsonName sf; Value := sfValue sf |} in
  match sfValue sf with
  | Scalar _ => (slice, notSlice ++ [fld])
  | Slice None => (slice, notSlice)
  | Slice (Some _) => (slice ++ [fld], notSlice)
  end.

(** [func sliceFields(part interface{}) (slice, notSlice []field)] *)
Definition sliceFields (part : record) : list field * list field :=
  foldl classify ([], []) part.

(** What the package hands to [Encoder.Encode]: an external name (a Go
    string), the value of a field, or a whole record. *)
Inductive encodable : Type :=
  | EString (s : string)
  | EValue (v : gvalue)
  | EPart (part : record).

(** The encoder as the package sees it: the [Write] calls that
    [Encode(v)] issues on its destination, and the error it reports when
    all of them succeed. *)
Record encoder : Type := mkEncoder {
  enc_writes : encodable → list bytes;
  enc_err : encodable → option error
}.

(** The run-time environment: whether [ioutil.TempFile] succeeds for the
    store of a field, whether [Seek(0, 0)] on that store succeeds, and the
    order in which [range] visits the map of stores.  Go leaves that order
    unspecified; [env_sound] says that it visits every entry once. *)
Record env : Type := mkEnv {
  tempFile_ok : string → bool;
  seek_ok : string → bool;
  rangeOrder : gmap string bytes → list (string * bytes)
}.
Definition env_sound (e : env) : Prop :=
  ∀ files, rangeOrder e files ≡ₚ map_to_list files.

(** What [recv.Recv()] returns: a record, or an error. *)
#[local] Abbreviation response := (list structField + error)%type.

(** The calls made to [Log]. *)
Inductive logEntry : Type :=
  | LogSlices (slice : list field)
  | LogEncode (part : record) (err : error)
  | LogRecv (err : error)
  | LogTempFile (name : string)
  | LogNewField (name : string)
  | LogSeek (name : string).

(** How a run ends: at the last line of the function, at an early
    [return], or in a panic. *)
Inductive outcome : Type := Finished | Aborted | Panicked.

Record result (W : Type) : Type := mkResult {
  out : W;
  log : list logEntry;
  unread : list response;
  how : outcome
}.
Global Arguments mkResult {W} _ _ _ _.
Global Arguments out {W} _.
Global Arguments log {W} _.
Global Arguments unread {W} _.
Global Arguments how {W} _.

Section run.
Context {W : Type} `{Writer W}.
Variable enc : encoder.
Variable e : env.

(** [enc.Encode(v)] on destination [w]. *)
Definition Encode {W'} `{Writer W'} (w : W') (v : encodable) : W' * option error :=
  match writeAll w (enc_writes enc v) with
  | (w', Some err) => (w', Some err)
  | (w', None) => (w', enc_err enc v)
  end.

(** The three lines
    [tw := newTrimWriter(w, prefix, suffix)],
    [jsoniter.NewEncoder(tw).Encode(v)], [tw.Close()],
    whose errors the package drops. *)
Definition encodeTrimmed {W'} `{Writer W'} (w : W') (prefix suffix : bytes)
  (v : encodable) : W' :=
  (trimWriter_Close (Encode (newTrimWriter w prefix suffix) v).1).1.

(** The branch taken when the first record has no slice field: every
    record is encoded on its own. *)
Fixpoint passthrough (w : W) (part : record) (recv : list response)
  (lg : list logEntry) : result W :=
  match Encode w (EPart part) with
  | (w, Some err) => mkResult w (lg ++ [LogEncode part err]) recv Aborted
  | (w, None) =>
      match recv with
      | [] => mkResult w lg [] Finished
      | inr err :: recv' =>
          mkResult w (if bool_decide (err ≠ EOF) then lg ++ [LogRecv err] else lg)
                   recv' Finished
      | inl part' :: recv' => passthrough w part' recv' lg
      end
  end.

(** The body of [for _, f := range notSlice]. *)
Definition writeScalar (st : W * gmap string bool) (f : field)
  : W * gmap string bool :=
  let '(w, names) := st in
  let w := encodeTrimmed w [] nl (EString (JSONName f)) in
  let w := put w (B ":") in
  let w := encodeTrimmed w [] nl (EValue (Value f)) in
  let w := put w (B ",") in
  (w, <[Name f := false]> names).

(** [for _, f := range slice[1:]]: one store per further slice field,
    holding its name, [:[] and its first elements.  [inr name] is the
    early return after [TempFile] failed for [name]. *)
Fixpoint openStores (fs : list field) (files : gmap string bytes)
  (names : gmap string bool) : gmap string bytes * gmap string bool + string :=
  match fs with
  | [] => inl (files, names)
  | f :: fs =>
      if tempFile_ok e (Name f) then
        let fh : bytes := [] in
        let fh := encodeTrimmed fh [] nl (EString (JSONName f)) in
        let fh := put fh (B ":[") in
        let fh := encodeTrimmed fh (B "[") (B "]") (EValue (Value f)) in
        openStores fs (<[Name f := fh]> files) (<[Name f := true]> names)
      else inr (Name f)
  end.

(** The two checks of a later record against the names of the first:
    [err] ends up naming the last field that is new or has changed
    its kind. *)
Definition offender (names : gmap string bool) (want : bool)
  (err : option string) (f : field) : option string :=
  match names !! Name f with
  | Some isSlice => if bool_decide (isSlice = want) then err else Some (Name f)
  | None => Some (Name f)
  end.
Definition schemaErr (names : gmap string bool) (Ss nS : list field)
  : option string :=
  foldl (offender names false) (foldl (offender names true) None Ss) nS.

(** [for _, f := range S] of the streaming loop: a comma and the
    elements go to the store of [f].  A field without a store gives a
    nil [*os.File]: its [Write] fails and the log call evaluates
    [fh.Name()], which panics ([None]). *)
Fixpoint appendStores (Ss : list field) (files : gmap string bytes)
  : option (gmap string bytes) :=
  match Ss with
  | [] => Some files
  | f :: Ss =>
      match files !! Name f with
      | None => None
      | Some fh =>
          let fh := put fh (B ",") in
          let fh := encodeTrimmed fh (B "[") (B "]") (EValue (Value f)) in
          appendStores Ss (<[Name f := fh]> files)
      end
  end.

(** The state the streaming loop carries. *)
Record state : Type := mkState {
  st_w : W;
  st_files : gmap string bytes;
  st_log : list logEntry
}.

(** One pass of the streaming loop after a successful [Recv], with
    [Ss] and [nS] for the source's [S] and [nS].  [inr] is a panic, with
    the output and the log as they are then: [S[0]] on an empty [S], or
    a field without a store. *)
Definition step (first0 : field) (names : gmap string bool) (st : state)
  (part : record) : state + W * list logEntry :=
  let '(Ss, nS) := sliceFields part in
  let lg := match schemaErr names Ss nS with
            | Some name => st_log st ++ [LogNewField name]
            | None => st_log st
            end in
  match Ss with
  | [] => inr (st_w st, lg)
  | f0 :: Ss' =>
      let '(w, Ss) :=
        if bool_decide (Name f0 = Name first0) then
          (encodeTrimmed (put (st_w st) (B ",")) (B "[") (B "]") (EValue (Value f0)), Ss')
        else (st_w st, f0 :: Ss') in
      match appendStores Ss (st_files st) with
      | None => inr (w, lg)
      | Some files => inl (mkState w files lg)
      end
  end.

(** The lines after the loop: close the first list, copy every store
    back, close the document. *)
Definition copyStore (acc : W * list logEntry) (kv : string * bytes)
  : W * list logEntry :=
  let '(w, lg) := acc in
  if seek_ok e kv.1 then (put (put (put w (B ",")) kv.2) (B "]"), lg)
  else (w, lg ++ [LogSeek kv.1]).
Definition finalize (st : state) : W * list logEntry :=
  let w := put (st_w st) (B "]") in
  let '(w, lg) := foldl copyStore (w, st_log st) (rangeOrder e (st_files st)) in
  (put w (B "}" ++ nl), lg).

(** The streaming loop, [for { part, err = recv.Recv() ... }], and
    what follows it.  A source that is used up answers [io.EOF]. *)
Fixpoint loop (first0 : field) (names : gmap string bool) (st : state)
  (recv : list response) : result W :=
  match recv with
  | [] => let '(w, lg) := finalize st in mkResult w lg [] Finished
  | inr err :: recv' =>
      let lg := if bool_decide (err ≠ EOF) then st_log st ++ [LogRecv err]
                else st_log st in
      let '(w, lg) := finalize (mkState (st_w st) (st_files st) lg) in
      mkResult w lg recv' Finished
  | inl part :: recv' =>
      match step first0 names st part with
      | inr (w, lg) => mkResult w lg recv' Panicked
      | inl st' => loop first0 names st' recv'
      end
  end.

(** The lines between the passthrough branch and the streaming loop:
    the brace, the scalar fields, the head of the first slice field and
    the stores of the others.  [inr] is the early return. *)
Definition start (w : W) (first0 : field) (others notSlice : list field)
  : gmap string bool * state + W * list logEntry :=
  let lg := [LogSlices (first0 :: others)] in
  let w := put w (B "{") in
  let '(w, names) := foldl writeScalar (w, ∅) notSlice in
  let w := encodeTrimmed w [] nl (EString (JSONName first0)) in
  let w := put w (B ":") in
  let w := encodeTrimmed w [] (B "]") (EValue (Value first0)) in
  let names := <[Name first0 := true]> names in
  match openStores others ∅ names with
  | inr name => inr (w, lg ++ [LogTempFile name])
  | inl (files, names) => inl (names, mkState w files lg)
  end.

(** [func mergeStreams(w io.Writer, first interface{}, recv ..., Log ...)] *)
Definition mergeStreams (w : W) (first : record) (recv : list response)
  : result W :=
  let '(slice, notSlice) := sliceFields first in
  match slice with
  | [] => passthrough w first recv []
  | first0 :: others =>
      match start w first0 others notSlice with
      | inr (w, lg) => mkResult w lg recv Aborted
      | inl (names, st) => loop first0 names st recv
      end
  end.
End run.

(** *** Vocabulary of the statements *)

(** The records a run can get to read: those before the first error. *)
Fixpoint readable (recv : list response) : list record :=
  match recv with
  | inl part :: recv' => part :: readable recv'
  | _ => []
  end.

(** The streaming loop on records alone: the state before the [Recv]
    that follows them, or the panic that one of them raises. *)
Fixpoint streamed {W} `{Writer W} (enc : encoder) (first0 : field)
  (names : gmap string bool) (st : state) (rs : list record)
  : state (W := W) + W * list logEntry :=
  match rs with
  | [] => inl st
  | part :: rs =>
      match step enc first0 names st part with
      | inl st' => streamed enc first0 names st' rs
      | inr p => inr p
      end
  end.

(** What the copy loop of [finalize] adds to an in-memory output. *)
Definition spillover (e : env) (files : gmap string bytes) : bytes :=
  concat ((λ kv : string * bytes,
             if seek_ok e kv.1 then B "," ++ kv.2 ++ B "]" else [])
          <$> rangeOrder e files).

(** A name or a scalar value as the document shows it: the encoder's
    output without the line feed it may end with. *)
Definition rendered (enc : encoder) (v : encodable) : bytes :=
  filtered [] nl (enc_writes enc v).

(** The elements of a slice value as they are spliced into a list that
    is already open: the encoder's output without its first byte and
    without a closing bracket at its end. *)
Definition spliced (enc : encoder) (v : gvalue) : bytes :=
  filtered (B "[") (B "]") (enc_writes enc (EValue v)).

(** The field a declared field is turned into, and the two kinds that
    [sliceFields] keeps. *)
Definition toField (sf : structField) : field :=
  {| Name := sfName sf; JSONName := jsonName sf; Value := sfValue sf |}.
Definition isSliceField (sf : structField) : bool :=
  match sfValue sf with Slice (Some _) => true | _ => false end.
Definition isScalarField (sf : structField) : bool :=
  match sfValue sf with Scalar _ => true | _ => false end.

(** What one pass of the streaming loop sends to the output, and the
    fields it sends to stores. *)
Definition firstPart (enc : encoder) (first0 : field) (part : record) : bytes :=
  match (sliceFields part).1 with
  | f0 :: _ =>
      if bool_decide (Name f0 = Name first0) then B "," ++ spliced enc (Value f0)
      else []
  | [] => []
  end.
Definition spillFields (first0 : field) (part : record) : list field :=
  match (sliceFields part).1 with
  | f0 :: Ss' => if bool_decide (Name f0 = Name first0) then Ss' else f0 :: Ss'
  | [] => []
  end.
Definition spillPart (enc : encoder) (first0 : field) (name : string)
  (part : record) : bytes :=
  concat ((λ f, B "," ++ spliced enc (Value f))
          <$> filter (λ f, Name f = name) (spillFields first0 part)).

(** The answer that ends the run, and what follows it. *)
Definition afterRecords (recv : list response) : list response :=
  drop (length (readable recv)) recv.

(** The scalar members of the document, each followed by its comma. *)
Definition scalars (enc : encoder) (notSlice : list field) : bytes :=
  concat ((λ f, rendered enc (EString (JSONName f)) ++ B ":" ++
                rendered enc (EValue (Value f)) ++ B ",") <$> notSlice).

(** The document up to the first elements of its streamed list, and a
    store as it is opened: the member's name, the opening bracket and
    the first elements. *)
Definition docHead (enc : encoder) (first0 : field) (notSlice : list field)
  : bytes :=
  B "{" ++ scalars enc notSlice ++ rendered enc (EString (JSONName first0)) ++
  B ":" ++ filtered [] (B "]") (enc_writes enc (EValue (Value first0))).
Definition storeHead (enc : encoder) (f : field) : bytes :=
  rendered enc (EString (JSONName f)) ++ B ":[" ++ spliced enc (Value f).
Definition openedStores (enc : encoder) (fs : list field)
  (files : gmap string bytes) : gmap string bytes :=
  foldl (λ files f, <[Name f := storeHead enc f]> files) files fs.

(** The encoder writes a list as an opening bracket, the elements
    separated by commas and a closing bracket, in calls that each carry
    at least one byte. *)
Definition list_encoder (enc : encoder) (encElem : E → bytes) : Prop :=
  ∀ xs, Forall (λ p, p ≠ []) (enc_writes enc (EValue (Slice (Some xs)))) ∧
        concat (enc_writes enc (EValue (Slice (Some xs)))) =
          B "[" ++ joined (encElem <$> xs) ++ B "]".

(** The elements a record gives to the list that is streamed to the
    output: those of its first non-nil slice field, if that is the field
    [first0] the document started with. *)
Definition headValue (first0 : field) (part : record) : option (list E) :=
  match (sliceFields part).1 with
  | f0 :: _ =>
      if bool_decide (Name f0 = Name first0) then
        match Value f0 with Slice (Some xs) => Some xs | _ => None end
      else None
  | [] => None
  end.

(** The elements of the field called [name] in a record; none when the
    field is nil, of another kind, or not there. *)
Definition sliceElems (v : gvalue) : list E :=
  match v with Slice (Some xs) => xs | _ => [] end.
Definition valuesOf (name : string) (part : record) : list E :=
  concat ((λ sf, if bool_decide (sfName sf = name) then sliceElems (sfValue sf)
                 else []) <$> part).

Definition nonnil (sf : structField) : Prop :=
  ∃ xs, sfValue sf = Slice (Some xs).

(** A later record against the first one: the same fields in the same
    order, and no slice field that is non-nil now but was nil then. *)
Definition conforms (first part : record) : Prop :=
  Forall2 (λ a b, sfName a = sfName b ∧ (nonnil b → nonnil a)) first part.

(** The record has a non-nil slice field. *)
Definition has_slice (part : record) : Prop := Exists nonnil part.

(** No slice field of the record is non-nil and without elements. *)
Definition no_empty_slice (part : record) : Prop :=
  Forall (λ sf, sfValue sf ≠ Slice (Some [])) part.

(** Every field called [name], if the record has one, is a nil slice. *)
Definition nil_in (name : string) (part : record) : Prop :=
  Forall (λ sf, sfName sf = name → sfValue sf = Slice None) part.

(** Two records that differ at most in the values of scalar fields,
    and two sources that answer alike up to such differences. *)
Definition scalar_variant (r r' : record) : Prop :=
  Forall2 (λ a b, sfName a = sfName b ∧ sfTag a = sfTag b ∧
                  (sfValue a = sfValue b ∨
                   ∃ x y, sfValue a = Scalar x ∧ sfValue b = Scalar y)) r r'.
Definition response_variant (a b : response) : Prop :=
  match a, b with
  | inl r, inl r' => scalar_variant r r'
  | inr err, inr err' => err = err'
  | _, _ => False
  end.

(** Two answers that the loop cannot tell apart: the same error, or
    records with the same slice fields and the same names of other
    fields. *)
Definition alike (a b : response) : Prop :=
  match a, b with
  | inl r, inl r' =>
      (sliceFields r).1 = (sliceFields r').1 ∧
      Name <$> (sliceFields r).2 = Name <$> (sliceFields r').2
  | inr err, inr err' => err = err'
  | _, _ => False
  end.

(** The elements [xs] as they join a list that already has elements,
    and the member of the document for field [f] when the records
    [records] have been merged. *)
Definition separated (encElem : E → bytes) (xs : list E) : bytes :=
  match xs with
  | [] => []
  | _ => B "," ++ joined (encElem <$> xs)
  end.
Definition member (enc : encoder) (encElem : E → bytes)
  (records : list record) (f : field) : bytes :=
  rendered enc (EString (JSONName f)) ++ B ":[" ++
  joined (encElem <$> concat (valuesOf (Name f) <$> records)) ++ B "]".

(** *** Further vocabulary *)

(** A record as the encoder writes it on its own. *)
Definition encoded (enc : encoder) (part : record) : bytes :=
  concat (enc_writes enc (EPart part)).

(** What is logged for the answer that ends the reading: the error,
    unless it is the end of the stream. *)
Definition recvLog (recv : list response) : list logEntry :=
  match head (afterRecords recv) with
  | Some (inr err) => if bool_decide (err ≠ EOF) then [LogRecv err] else []
  | _ => []
  end.

(** The stores that the copy loop copies, in the order of its visit,
    and what it logs for the others. *)
Definition copied (e : env) (files : gmap string bytes) : list (string * bytes) :=
  filter (λ kv : string * bytes, seek_ok e kv.1 = true) (rangeOrder e files).
Definition seekLog (e : env) (files : gmap string bytes) : list logEntry :=
  (λ kv : string * bytes, LogSeek kv.1)
  <$> filter (λ kv : string * bytes, seek_ok e kv.1 = false) (rangeOrder e files).

(** What is logged for a record that the schema check objects to. *)
Definition newFieldLog (names : gmap string bool) (part : record) : list logEntry :=
  match schemaErr names (sliceFields part).1 (sliceFields part).2 with
  | Some name => [LogNewField name]
  | None => []
  end.

(** Two answers with the same non-nil slice fields, or two errors. *)
Definition same_slices (a b : response) : Prop :=
  match a, b with
  | inl r, inl r' => (sliceFields r).1 = (sliceFields r').1
  | inr _, inr _ => True
  | _, _ => False
  end.

(** The state of the loop with [w0] put before its output. *)
Definition shiftState (w0 : bytes) (st : state (W := bytes)) : state (W := bytes) :=
  mkState (w0 ++ st_w st) (st_files st) (st_log st).
End model.
Arguments gvalue : clear implicits.
Arguments structField : clear implicits.
Arguments field : clear implicits.
Arguments encodable : clear implicits.
Arguments encoder : clear implicits.
Arguments logEntry : clear implicits.
Arguments result : clear implicits.
Arguments state Sc E W : clear implicits.

Abbreviation record Sc E := (list (structField Sc E)).
Abbreviation response Sc E := (record Sc E + error)%type.
End Merge.

(** ** A concrete encoder and environment, for evaluating the model *)

Module Sample.
Import Merge.

Definition digits (n : nat) : bytes := B (pretty n).

(** The [Write] calls for a list: the stream is flushed after every
    comma, so a list of k elements arrives in k calls. *)
Fixpoint listWrites (xs : list bytes) : list bytes :=
  match xs with
  | [] => [B "]"]
  | [x] => [x ++ B "]"]
  | x :: xs => (x ++ B ",") :: listWrites xs
  end.
Definition openList (ps : list bytes) : list bytes :=
  match ps with
  | [] => []
  | p :: ps => (B "[" ++ p) :: ps
  end.

Definition valueWrites (v : gvalue nat nat) : list bytes :=
  match v with
  | Scalar n => [digits n]
  | Slice None => [B "null"]
  | Slice (Some xs) => openList (listWrites (digits <$> xs))
  end.

Definition memberBytes (sf : structField nat nat) : bytes :=
  quote ++ B (jsonName sf) ++ quote ++ B ":" ++ concat (valueWrites (sfValue sf)).

(** Values are written as JSON; [newline] says whether [Encode] ends
    its last write with a line feed, as [encoding/json] does. *)
Definition withNewline (newline : bool) (ps : list bytes) : list bytes :=
  if newline then
    match reverse ps with
    | [] => [nl]
    | p :: rps => reverse ((p ++ nl) :: rps)
    end
  else ps.

Definition jsonEncoder (newline : bool) : encoder nat nat :=
  {| enc_writes v :=
       withNewline newline
         match v with
         | EString s => [quote ++ B s ++ quote]
         | EValue v => valueWrites v
         | EPart part => [B "{" ++ joined (memberBytes <$> part) ++ B "}"]
         end;
     enc_err _ := None |}.

(** An environment in which nothing fails; [range] visits the stores in
    the order of [map_to_list], or in the opposite order. *)
Definition calm (backwards : bool) : env :=
  {| tempFile_ok _ := true;
     seek_ok _ := true;
     rangeOrder files :=
       if backwards then reverse (map_to_list files) else map_to_list files |}.

Definition scalarField (name : string) (x : nat) : structField nat nat :=
  {| sfName := name; sfTag := EmptyString; sfValue := Scalar x |}.
Definition sliceField (name : string) (xs : option (list nat)) : structField nat nat :=
  {| sfName := name; sfTag := EmptyString; sfValue := Slice xs |}.

(** A record of the schema "scalar A, repeated B, repeated C". *)
Definition abc (a : nat) (b c : option (list nat)) : record nat nat :=
  [scalarField "A" a; sliceField "B" b; sliceField "C" c].

(** The same with a third repeated field D. *)
Definition abcd (a : nat) (b c d : option (list nat)) : record nat nat :=
  [scalarField "A" a; sliceField "B" b; sliceField "C" c; sliceField "D" d].

(** The merge into an empty in-memory buffer. *)
Definition merged (newline backwards : bool) (first : record nat nat)
  (recv : list (response nat nat)) : result nat nat bytes :=
  mergeStreams (jsonEncoder newline) (calm backwards) [] first recv.

(** A quoted name, as it stands in the document. *)
Definition q (s : string) : bytes := quote ++ B s ++ quote.

(** First records, the fields [sliceFields] finds in [first1], and
    records that may follow.  [later1'] is [later1] with other values
    of the scalar; in [last2] both slices are nil; in [last3] C is non-nil
    though it is nil in [first2]; in [last4] B is non-nil but has no
    elements, in [last4'] it is nil. *)
Definition first1 : record nat nat := abc 7 (Some [1; 2]) (Some [10]).
Definition first2 : record nat nat := abc 7 (Some [1; 2]) None.
Definition fieldA1 : field nat nat := toField (scalarField "A" 7).
Definition fieldB1 : field nat nat := toField (sliceField "B" (Some [1; 2])).
Definition fieldC1 : field nat nat := toField (sliceField "C" (Some [10])).
Definition later1 : list (record nat nat) :=
  [abc 8 (Some [3]) None; abc 9 None (Some [11; 12])].
Definition later1' : list (record nat nat) :=
  [abc 0 (Some [3]) None; abc 0 None (Some [11; 12])].
Definition last2 : record nat nat := abc 8 None None.
Definition last3 : record nat nat := abc 8 (Some [3]) (Some [4]).
Definition last4 : record nat nat := abc 8 (Some []) (Some [4]).
Definition last4' : record nat nat := abc 8 None (Some [4]).
Definition names1 : gmap string bool :=
  <["C" := true]> (<["B" := true]> (<["A" := false]> ∅)).

(** A state of the streaming loop in which field C has a store. *)
Definition streaming : state nat nat bytes :=
  {| st_w := B "{" ++ q "B" ++ B ":[1";
     st_files := {[ "C" := q "C" ++ B ":[2" ]};
     st_log := [] |}.
Definition fieldB : field nat nat := toField (sliceField "B" (Some [1])).

(** The same state after the pass for a record whose C is nil. *)
Definition streaming_after : state nat nat bytes :=
  match step (jsonEncoder false) fieldB names1 streaming (abc 8 (Some [3]) None) with
  | inl st => st
  | inr _ => streaming
  end.

(** Environments in which one thing fails: [ioutil.TempFile] for the
    store of field [name], or [Seek] on that store. *)
Definition noTempFile (name : string) : env :=
  {| tempFile_ok n := bool_decide (n ≠ name);
     seek_ok _ := true;
     rangeOrder files := map_to_list files |}.
Definition noSeek (name : string) : env :=
  {| tempFile_ok _ := true;
     seek_ok n := bool_decide (n ≠ name);
     rangeOrder files := map_to_list files |}.

(** An encoder that writes as [jsonEncoder false] does and fails, after
    writing, on a record with a scalar field that holds [bad]. *)
Definition holdsA (bad : nat) (part : record nat nat) : bool :=
  existsb (λ sf, match sfValue sf with
                 | Scalar x => bool_decide (x = bad)
                 | Slice _ => false
                 end) part.
Definition choosyEncoder (bad : nat) : encoder nat nat :=
  {| enc_writes := enc_writes (jsonEncoder false);
     enc_err v := match v with
                  | EPart part => if holdsA bad part then Some (Err "unsupported value") else None
                  | _ => None
                  end |}.

(** Records without a non-nil slice field. *)
Definition flat (a : nat) : record nat nat := abc a None None.

(** The merge of [first1] as the lines before the loop leave it (the
    names to check against and the state), and its state after the
    records [later1]. *)
Definition started1 : gmap string bool * state nat nat bytes :=
  match start (jsonEncoder false) (calm false) [] fieldB1 [fieldC1] [fieldA1] with
  | inl p => p
  | inr _ => (∅, streaming)
  end.
Definition streamed1 : state nat nat bytes :=
  match streamed (jsonEncoder false) fieldB1 started1.1 started1.2 later1 with
  | inl st => st
  | inr _ => streaming
  end.

(** A record of another struct type with the same first slice field. *)
Definition bz (b : option (list nat)) (z : nat) : record nat nat :=
  [sliceField "B" b; scalarField "Z" z].
End Sample.


(** ** Dial options *)

Module Dial.
Section dial.
(** What the package takes from grpc, otel and its own other files, and
    [DialOpts] only passes on: the logging function, tracers, per-RPC
    credentials and transport credentials. *)
Context {LogFn TracerT PerRPC TransportCreds : Type}.
Variable LogTracer : option LogFn → string → TracerT.
Variable NewBasicAuth NewInsecureBasicAuth : string → string → PerRPC.
Variable NewClientTLSFromFile : string → string → TransportCreds + error.

(** [type DialConfig struct]; a nil [Log] or [Tracer] is [None]. *)
Record DialConfig : Type := mkDialConfig {
  PathPrefix : string;
  CAFile : string;
  ServerHostOverride : string;
  Username : string;
  Password : string;
  Log : option LogFn;
  AllowInsecurePasswordTransport : bool;
  Tracer : option TracerT
}.

(** The [grpc.DialOption] values that [DialOpts] builds.  The two
    interceptor chains are determined by the prefix they put before
    the method, the function they log to and the tracer. *)
Inductive DialOption : Type :=
  | WithCompressor
  | WithDecompressor
  | WithChainStreamInterceptor (prefix : string) (Log : option LogFn) (tracer : TracerT)
  | WithChainUnaryInterceptor (prefix : string) (Log : option LogFn) (tracer : TracerT)
  | WithPerRPCCredentials (ba : PerRPC)
  | WithInsecure
  | WithTransportCredentials (creds : TransportCreds).

(** [func DialOpts(conf DialConfig) ([]grpc.DialOption, error)] *)
Definition DialOpts (conf : DialConfig) : list DialOption * option error :=
  let dialOpts := [WithCompressor; WithDecompressor] in
  let dialOpts :=
    if bool_decide (PathPrefix conf ≠ EmptyString) || bool_decide (is_Some (Log conf)) then
      let tracer := match Tracer conf with
                    | Some t => t
                    | None => LogTracer (Log conf) "github.com/UNO-SOFT/grpcer"
                    end in
      dialOpts ++ [WithChainStreamInterceptor (PathPrefix conf) (Log conf) tracer;
                   WithChainUnaryInterceptor (PathPrefix conf) (Log conf) tracer]
    else dialOpts in
  if bool_decide (CAFile conf = EmptyString) then
    let dialOpts :=
      if AllowInsecurePasswordTransport conf then
        dialOpts ++ [WithPerRPCCredentials
                       (NewInsecureBasicAuth (Username conf) (Password conf))]
      else dialOpts in
    (dialOpts ++ [WithInsecure], None)
  else
    let ba := NewBasicAuth (Username conf) (Password conf) in
    let dialOpts := dialOpts ++ [WithPerRPCCredentials ba] in
    match NewClientTLSFromFile (CAFile conf) (ServerHostOverride conf) with
    | inr err => (dialOpts, Some err) (* [err] wrapped with the two strings *)
    | inl creds => (dialOpts ++ [WithTransportCredentials creds], None)
    end.

(** The options carry per-RPC credentials. *)
Definition has_basic_auth (opts : list DialOption) : Prop :=
  ∃ ba, WithPerRPCCredentials ba ∈ opts.
End dial.
Arguments DialConfig : clear implicits.
Arguments DialOption : clear implicits.

(** The configuration that [Connect] builds for an endpoint without a
    path and without a CA file, and the same with a CA file; nothing of
    what [DialOpts] passes on is looked into, so unit types stand for it. *)
Definition plain : DialConfig unit unit :=
  {| PathPrefix := EmptyString; CAFile := EmptyString;
     ServerHostOverride := EmptyString;
     Username := EmptyString; Password := EmptyString; Log := Some tt;
     AllowInsecurePasswordTransport := true; Tracer := None |}.
Definition secured : DialConfig unit unit :=
  {| PathPrefix := EmptyString; CAFile := "ca.pem";
     ServerHostOverride := EmptyString;
     Username := "scott"; Password := "tiger"; Log := None;
     AllowInsecurePasswordTransport := false; Tracer := None |}.
Definition dial (conf : DialConfig unit unit)
  : list (DialOption unit unit bool unit) * option error :=
  DialOpts (λ _ _, tt) (λ _ _, true) (λ _ _, false) (λ _ _, inl tt) conf.

Section connect.
(** [Connect] adds two things from outside: the function literal it
    logs to, and [grpc.Dial], which gives a connection or an error. *)
Context {LogFn TracerT PerRPC TransportCreds Conn : Type}.
Variable LogTracer : option LogFn → string → TracerT.
Variable NewBasicAuth NewInsecureBasicAuth : string → string → PerRPC.
Variable NewClientTLSFromFile : string → string → TransportCreds + error.
Variable noLog : LogFn.
Variable grpc_Dial :
  string → list (DialOption LogFn TracerT PerRPC TransportCreds) → Conn + error.

(** The first lines of [Connect]: [endpoint[:i]] and [endpoint[i:]] for
    the first slash, or the endpoint and no prefix. *)
Definition splitEndpoint (endpoint : string) : string * string :=
  match Merge.IndexByte endpoint "/"%char with
  | Some i => (String.substring 0 i endpoint,
               String.substring i (String.length endpoint - i) endpoint)
  | None => (endpoint, EmptyString)
  end.

(** The configuration [dc]. *)
Definition connectConfig (prefix CAFile serverHostOverride : string)
  : DialConfig LogFn TracerT :=
  {| PathPrefix := prefix; CAFile := CAFile;
     ServerHostOverride := serverHostOverride;
     Username := EmptyString; Password := EmptyString;
     Log := Some noLog;
     AllowInsecurePasswordTransport := true; Tracer := None |}.

(** What a call of [Connect] does and gives: the call of [grpc.Dial]
    it makes, if it makes one, and the connection or the error (which
    the source wraps with the configuration or the endpoint). *)
Record connected : Type := mkConnected {
  dialed : option (string * list (DialOption LogFn TracerT PerRPC TransportCreds));
  conn : Conn + error
}.

(** [func Connect(endpoint, CAFile, serverHostOverride string)], which
    returns a [grpc.ClientConn] and an error. *)
Definition Connect (endpoint CAFile serverHostOverride : string) : connected :=
  let '(endpoint, prefix) := splitEndpoint endpoint in
  let dc := connectConfig prefix CAFile serverHostOverride in
  match DialOpts LogTracer NewBasicAuth NewInsecureBasicAuth NewClientTLSFromFile dc with
  | (_, Some err) => {| dialed := None; conn := inr err |}
  | (opts, None) => {| dialed := Some (endpoint, opts); conn := grpc_Dial endpoint opts |}
  end.
End connect.
Arguments connected : clear implicits.

(** [Connect] with stand-ins for what it takes from outside: credentials
    are [true] when made by [NewBasicAuth], the CA file [missing.pem]
    cannot be loaded, and [grpc.Dial] connects to any target but the empty
    one. *)
Definition connect (endpoint CAFile serverHostOverride : string)
  : connected unit unit bool string string :=
  Connect (λ _ _, tt) (λ _ _, true) (λ _ _, false)
    (λ ca _, if bool_decide (ca = "missing.pem") then inr (Err "no such file") else inl ca)
    tt
    (λ target _, if bool_decide (target = EmptyString) then inr (Err "no target")
                 else inl target)
    endpoint CAFile serverHostOverride.
End Dial.

(** * Properties *)

(** ** The trim writer over an in-memory destination *)

Section trim_facts.
Implicit Types (tw : trimWriter bytes) (p : bytes) (ps : list bytes).

(** The destination only ever grows: what a trim writer does to a
    destination that already holds [w0] is what it does to an empty one,
    after [w0]. *)
Lemma Write_tail_shift (w0 : bytes) tw n p :
  Write_tail (shift w0 tw) n p =
    (shift w0 (Write_tail tw n p).1.1, (Write_tail tw n p).1.2, (Write_tail tw n p).2).
Proof.
  unfold Write_tail, shift, set_w, set_buf; simpl.
  case_bool_decide; simpl; [done|].
  unfold Write, buffer_Writer; simpl. by rewrite app_assoc.
Qed.

Lemma Write_flush_shift (w0 : bytes) tw n p :
  Write_flush (shift w0 tw) n p =
    (shift w0 (Write_flush tw n p).1.1, (Write_flush tw n p).1.2, (Write_flush tw n p).2).
Proof.
  unfold Write_flush. simpl.
  destruct (bool_decide (0 < length (buf tw)) && bool_decide (length (suffix tw) ≤ length (buf tw))).
  - change (Write (w0 ++ w tw) (buf tw)) with (w0 ++ w tw ++ buf tw, length (buf tw), @None error).
    change (Write (w tw) (buf tw)) with (w tw ++ buf tw, length (buf tw), @None error).
    simpl. rewrite <- Write_tail_shift. f_equal.
    unfold shift, set_w, set_buf; simpl. by rewrite app_assoc.
  - apply Write_tail_shift.
Qed.

Lemma Write_shift (w0 : bytes) tw p :
  trimWriter_Write (shift w0 tw) p =
    (shift w0 (trimWriter_Write tw p).1.1, (trimWriter_Write tw p).1.2,
     (trimWriter_Write tw p).2).
Proof.
  unfold trimWriter_Write. simpl.
  case_bool_decide; [case_bool_decide|]; simpl; try done.
  - rewrite <- Write_flush_shift. done.
  - apply Write_flush_shift.
Qed.

Lemma writeAll_shift (w0 : bytes) tw ps :
  writeAll (shift w0 tw) ps = (shift w0 (writeAll tw ps).1, (writeAll tw ps).2).
Proof.
  revert tw. induction ps as [|p ps IH]; intros tw; simpl; [done|].
  change (Write (shift w0 tw) p) with (trimWriter_Write (shift w0 tw) p).
  change (Write tw p) with (trimWriter_Write tw p).
  rewrite Write_shift.
  destruct (trimWriter_Write tw p) as [[tw' n] [err|]]; simpl; [done|].
  apply IH.
Qed.

Lemma Close_shift (w0 : bytes) tw :
  (trimWriter_Close (shift w0 tw)).1 = w0 ++ (trimWriter_Close tw).1.
Proof.
  unfold trimWriter_Close. simpl. case_bool_decide; simpl; [done|].
  unfold Write, buffer_Writer; simpl. by rewrite app_assoc.
Qed.

Lemma filtered_at (w0 prefix suffix : bytes) ps :
  (trimWriter_Close (writeAll (newTrimWriter w0 prefix suffix) ps).1).1 =
    w0 ++ filtered prefix suffix ps.
Proof.
  unfold filtered.
  replace (newTrimWriter w0 prefix suffix)
    with (shift w0 (newTrimWriter [] prefix suffix))
    by (unfold shift, set_w, newTrimWriter; simpl; by rewrite app_nil_r).
  rewrite writeAll_shift. simpl. apply Close_shift.
Qed.

(** With a suffix of one byte and calls that each carry a byte, the
    writer holds back exactly the last byte it has seen. *)
Lemma Write_tail_empty tw n p :
  buf tw = [] → length (suffix tw) = 1 → p ≠ [] →
  ∃ tw', Write_tail tw n p = (tw', n, None) ∧
         w tw' ++ buf tw' = w tw ++ p ∧ length (buf tw') = 1 ∧
         prefix tw' = prefix tw ∧ suffix tw' = suffix tw.
Proof.
  intros Hb Hs Hp. unfold Write_tail. rewrite Hb, Hs. simpl.
  assert (0 < length p) by (destruct p; [done | simpl; lia]).
  case_bool_decide.
  - eexists; split; [done|]. simpl. repeat split; try done. lia.
  - eexists; split; [done|]. simpl.
    rewrite Nat.add_0_r, <- app_assoc, take_drop.
    repeat split; try done. rewrite length_drop. lia.
Qed.

Lemma Write_holds tw (w0 y : bytes) p :
  holds tw w0 y → p ≠ [] →
  ∃ tw', trimWriter_Write tw p = (tw', length p, None) ∧
         holds tw' w0 (y ++ drop (length (prefix tw)) p) ∧
         prefix tw' = drop (length p) (prefix tw) ∧ suffix tw' = suffix tw.
Proof.
  intros (Hw & Hb & Hp & Hs) Hne. unfold trimWriter_Write.
  assert (0 < length p) by (destruct p; [done | simpl; lia]).
  destruct tw as [w pre suf buf]; cbn [TrimWriter.w prefix suffix TrimWriter.buf] in *.
  case_bool_decide as Hpre.
  - specialize (Hp Hpre). subst y. simpl in Hb.
    apply nil_length_inv in Hb. subst buf. rewrite !app_nil_r in Hw. subst w0.
    case_bool_decide as Hle.
    + eexists; split; [done|].
      rewrite (drop_ge p) by done. repeat split; simpl; done.
    + unfold Write_flush. simpl.
      destruct (Write_tail_empty (set_prefix (mkTrimWriter w pre suf []) [])
                  (length p) (drop (length pre) p))
        as (tw' & -> & Hw' & Hb' & Hp' & Hs'); [done | done | | ].
      { intros Hd. apply (f_equal length) in Hd. rewrite length_drop in Hd.
        simpl in Hd. lia. }
      eexists; split; [done|]. unfold holds.
      cbn [TrimWriter.w prefix suffix TrimWriter.buf set_prefix] in *.
      rewrite Hp', Hs', Hw', Hb', length_drop.
      split; [|split; [|done]].
      * repeat split; try done. lia.
      * symmetry. apply drop_ge. lia.
  - subst pre. simpl. rewrite drop_0.
    unfold Write_flush. cbn [TrimWriter.w prefix suffix TrimWriter.buf]. rewrite Hs.
    destruct y as [|b y].
    + simpl in Hb. apply nil_length_inv in Hb. subst buf. simpl.
      rewrite !app_nil_r in Hw. subst w0.
      destruct (Write_tail_empty (mkTrimWriter w [] suf []) (length p) p)
        as (tw' & -> & Hw' & Hb' & Hp' & Hs'); [done..|].
      eexists; split; [done|]. unfold holds.
      cbn [TrimWriter.w prefix suffix TrimWriter.buf] in *.
      rewrite Hp', Hs', Hw', Hb', drop_nil.
      repeat split; try done. lia.
    + simpl in Hb. rewrite Hb. simpl.
      change (Write w buf) with (w ++ buf, length buf, @None error).
      cbn beta iota.
      destruct (Write_tail_empty (set_buf (set_w (mkTrimWriter w [] suf buf) (w ++ buf)) [])
                  (length p) p)
        as (tw' & -> & Hw' & Hb' & Hp' & Hs'); [done..|].
      eexists; split; [done|]. unfold holds.
      cbn [TrimWriter.w prefix suffix TrimWriter.buf set_buf set_w] in *.
      rewrite Hp', Hs', Hw', Hb', Hw, drop_nil, <- app_assoc.
      cbn [length]. repeat split; try done; lia.
Qed.

Lemma writeAll_holds ps : ∀ tw (w0 y : bytes),
  holds tw w0 y → Forall (λ p, p ≠ []) ps →
  ∃ tw', writeAll tw ps = (tw', None) ∧
         holds tw' w0 (y ++ drop (length (prefix tw)) (concat ps)) ∧
         suffix tw' = suffix tw.
Proof.
  induction ps as [|p ps IH]; intros tw w0 y Hh Hps; simpl.
  - eexists; split; [done|]. by rewrite drop_nil, app_nil_r.
  - apply Forall_cons in Hps as [Hp Hps].
    destruct (Write_holds tw w0 y p Hh Hp) as (tw1 & Hw & Hh1 & Hp1 & Hs1).
    change (Write tw p) with (trimWriter_Write tw p). rewrite Hw.
    destruct (IH _ _ _ Hh1 Hps) as (tw' & -> & Hh' & Hs').
    eexists; split; [done|].
    rewrite Hp1, length_drop, <- app_assoc in Hh'.
    rewrite drop_app. split; [done | congruence].
Qed.

(** The suffix is there: it is dropped, and so is a prefix of the same
    length as the configured one. *)
Lemma filtered_strip (prefix suffix : bytes) ps (x : bytes) :
  length suffix = 1 → Forall (λ p, p ≠ []) ps →
  drop (length prefix) (concat ps) = x ++ suffix →
  filtered prefix suffix ps = x.
Proof.
  intros Hs Hps Hx. unfold filtered.
  destruct (writeAll_holds ps (newTrimWriter [] prefix suffix) [] [])
    as (tw' & -> & (Hw & Hb & _ & _) & Hs'); [|done|].
  { repeat split; simpl; done. }
  cbn [fst newTrimWriter TrimWriter.prefix TrimWriter.suffix] in *.
  rewrite app_nil_l in Hw, Hb. rewrite Hx in Hw, Hb.
  rewrite length_app, Hs in Hb.
  change ([] ++ x ++ suffix) with (x ++ suffix) in Hw.
  apply app_inj_2 in Hw as [Hw1 Hw2]; [|lia].
  unfold trimWriter_Close. rewrite Hs', Hw2.
  by rewrite bool_decide_eq_true_2.
Qed.

(** The prefix is counted, not compared. *)
Lemma Write_flush_count tw n n' p :
  (Write_flush tw n p).1.1 = (Write_flush tw n' p).1.1 ∧ (Write_flush tw n p).2 = None.
Proof.
  unfold Write_flush, Write_tail.
  destruct (bool_decide (0 < length (buf tw)) && bool_decide (length (suffix tw) ≤ length (buf tw)));
    [change (Write (w tw) (buf tw)) with (w tw ++ buf tw, length (buf tw), @None error);
     cbn beta iota|];
    case_bool_decide; done.
Qed.

Lemma set_prefix_nil tw : prefix tw = [] → set_prefix tw [] = tw.
Proof. destruct tw as [w pre suf buf]. simpl. by intros ->. Qed.

Lemma writeAll_counts_prefix ps : ∀ tw,
  set_prefix (writeAll tw ps).1 [] =
    set_prefix (writeAll (set_prefix tw []) (dropBytes (length (prefix tw)) ps)).1 [].
Proof.
  induction ps as [|p ps IH]; intros tw; [done|].
  cbn [dropBytes]. case_bool_decide as Hn.
  - apply nil_length_inv in Hn. by rewrite (set_prefix_nil tw Hn).
  - cbn [writeAll]. change (Write tw p) with (trimWriter_Write tw p).
    unfold trimWriter_Write at 1.
    rewrite bool_decide_eq_true_2 by (by intros Hp; rewrite Hp in Hn).
    case_bool_decide as Hle.
    + rewrite IH. cbn [prefix set_prefix w suffix buf]. by rewrite length_drop.
    + cbn [writeAll].
      change (Write (set_prefix tw []) (drop (length (prefix tw)) p))
        with (trimWriter_Write (set_prefix tw []) (drop (length (prefix tw)) p)).
      unfold trimWriter_Write. cbn [prefix set_prefix].
      rewrite bool_decide_eq_false_2 by (by intros Hp).
      destruct (Write_flush_count (set_prefix tw []) (length p)
                  (length (drop (length (prefix tw)) p)) (drop (length (prefix tw)) p))
        as [Hst Herr].
      pose proof (Write_flush_count (set_prefix tw [])
                    (length (drop (length (prefix tw)) p)) (length p)
                    (drop (length (prefix tw)) p)) as [_ Herr'].
      destruct (Write_flush (set_prefix tw []) (length p) _) as [[tw1 n1] err1].
      destruct (Write_flush (set_prefix tw []) (length (drop _ p)) _) as [[tw2 n2] err2].
      simpl in *. by subst.
Qed.

Lemma Close_ignores_prefix tw :
  trimWriter_Close (set_prefix tw []) = trimWriter_Close tw.
Proof. done. Qed.

(** The suffix is not there: nothing is held back in the end. *)
Lemma filtered_keep (prefix suffix : bytes) ps (y : bytes) :
  length suffix = 1 → Forall (λ p, p ≠ []) ps →
  drop (length prefix) (concat ps) = y → (∀ x, y ≠ x ++ suffix) →
  filtered prefix suffix ps = y.
Proof.
  intros Hs Hps Hy Hnot. unfold filtered.
  destruct (writeAll_holds ps (newTrimWriter [] prefix suffix) [] [])
    as (tw' & -> & (Hw & Hb & _ & _) & Hs'); [|done|].
  { repeat split; simpl; done. }
  cbn [fst newTrimWriter TrimWriter.prefix TrimWriter.suffix] in *.
  rewrite Hy in Hw. change ([] ++ [] ++ y) with y in Hw.
  unfold trimWriter_Close. rewrite Hs'. case_bool_decide as Heq.
  - destruct (Hnot (w tw')). by rewrite Heq.
  - done.
Qed.

(** A value that ends with a closing bracket and a line feed keeps
    both when the suffix to drop is the bracket, however the value is
    split over calls. *)
Lemma line_feed_keeps_bracket (prefix : bytes) ps (x : bytes) :
  Forall (λ p, p ≠ []) ps →
  drop (length prefix) (concat ps) = x ++ B "]" ++ nl →
  filtered prefix (B "]") ps = x ++ B "]" ++ nl.
Proof.
  intros Hps Hx. apply filtered_keep; [done | done | done |].
  intros y Heq. rewrite app_assoc in Heq.
  apply app_inj_2 in Heq as [_ Heq]; [discriminate Heq | done].
Qed.
End trim_facts.

(** ** Lists joined by commas *)

Section joined_facts.
Implicit Types (x : bytes) (xs ys : list bytes).

Lemma joined_cons x xs :
  joined (x :: xs) = x ++ concat ((λ y, B "," ++ y) <$> xs).
Proof.
  revert x. induction xs as [|y xs IH]; intros x.
  - simpl. by rewrite app_nil_r.
  - change (joined (x :: y :: xs)) with (x ++ B "," ++ joined (y :: xs)).
    rewrite IH, fmap_cons. cbn [concat]. by rewrite <- !app_assoc.
Qed.

Lemma joined_app xs ys :
  xs ≠ [] → ys ≠ [] → joined (xs ++ ys) = joined xs ++ B "," ++ joined ys.
Proof.
  destruct xs as [|x xs]; [done|]. destruct ys as [|y ys]; [done|]. intros _ _.
  change ((x :: xs) ++ y :: ys) with (x :: (xs ++ y :: ys)).
  rewrite !joined_cons, fmap_app, concat_app, fmap_cons. cbn [concat].
  by rewrite <- !app_assoc.
Qed.

(** Joining the joined pieces of non-empty lists joins all elements. *)
Lemma joined_concat {A} (enc1 : A → bytes) (xss : list (list A)) :
  Forall (λ l, l ≠ []) xss →
  joined ((λ l, joined (enc1 <$> l)) <$> xss) = joined (enc1 <$> concat xss).
Proof.
  induction xss as [|l xss IH]; intros Hne; [done|].
  apply Forall_cons in Hne as [Hl Hne]. rewrite fmap_cons. cbn [concat].
  destruct xss as [|l' xss].
  - simpl. by rewrite app_nil_r.
  - rewrite fmap_app, joined_app.
    + rewrite <- IH by done.
      change (joined (joined (enc1 <$> l) :: ?t)) with
        (joined (enc1 <$> l) ++ B "," ++ joined t). done.
    + by destruct l.
    + apply Forall_cons in Hne as [Hl' _]. destruct l'; [done|]. done.
Qed.
End joined_facts.

(** A permutation of the image of a list is the image of a permutation. *)
Lemma fmap_Permutation_inv {A C} (f : A → C) (l : list C) (k : list A) :
  l ≡ₚ f <$> k → ∃ k', l = f <$> k' ∧ k' ≡ₚ k.
Proof.
  remember (f <$> k) as m eqn:Hm. intros HP. revert k Hm.
  induction HP as [|x l m _ IH|x y l|l m n _ IH1 _ IH2]; intros k Hm.
  - symmetry in Hm. apply fmap_nil_inv in Hm as ->. by exists [].
  - symmetry in Hm. apply fmap_cons_inv in Hm as (a & k0 & -> & -> & ->).
    destruct (IH k0 eq_refl) as (k' & -> & Hk'). exists (a :: k'). split; [done|].
    by constructor.
  - symmetry in Hm. apply fmap_cons_inv in Hm as (a & k0 & -> & Hm & ->).
    symmetry in Hm. apply fmap_cons_inv in Hm as (b & k1 & -> & -> & ->).
    exists (b :: a :: k1). split; [done|]. constructor.
  - destruct (IH2 k Hm) as (k1 & -> & Hk1).
    destruct (IH1 k1 eq_refl) as (k2 & -> & Hk2).
    exists k2. split; [done|]. by etrans.
Qed.

(** ** The merge into an in-memory output *)

Section merge_facts.
Import Merge.
Context {Sc E : Type}.
Variable enc : encoder Sc E.
Variable e : env.
Implicit Types (part : record Sc E) (st : state Sc E bytes) (f : field Sc E).
Implicit Types (files : gmap string bytes) (names : gmap string bool).

Lemma put_buffer (w p : bytes) : put w p = w ++ p.
Proof. reflexivity. Qed.

Lemma encodeTrimmed_buffer (w prefix suffix : bytes) v :
  encodeTrimmed enc w prefix suffix v = w ++ filtered prefix suffix (enc_writes enc v).
Proof.
  unfold encodeTrimmed, Encode. rewrite <- filtered_at.
  by destruct (writeAll (newTrimWriter w prefix suffix) (enc_writes enc v)) as [tw [err|]].
Qed.

(** [sliceFields] keeps the non-nil slice fields and the fields of other
    kinds, each in declared order. *)
Lemma classify_foldl part : ∀ (slice notSlice : list (field Sc E)),
  foldl classify (slice, notSlice) part =
    (slice ++ (toField <$> filter (λ sf, isSliceField sf) part),
     notSlice ++ (toField <$> filter (λ sf, isScalarField sf) part)).
Proof.
  induction part as [|sf part IH]; intros slice notSlice.
  - simpl. by rewrite !app_nil_r.
  - cbn [foldl]. rewrite !filter_cons. unfold classify at 2.
    fold (toField sf).
    destruct (sfValue sf) as [x|[xs|]] eqn:Hv; rewrite IH.
    all: repeat case_decide.
    all: repeat match goal with
           | H : context [isSliceField _] |- _ =>
               unfold isSliceField in H; rewrite Hv in H
           | H : context [isScalarField _] |- _ =>
               unfold isScalarField in H; rewrite Hv in H
           end; simpl in *; try done.
    all: by rewrite <- ?app_assoc.
Qed.

Lemma sliceFields_spec part :
  sliceFields part =
    (toField <$> filter (λ sf, isSliceField sf) part,
     toField <$> filter (λ sf, isScalarField sf) part).
Proof. unfold sliceFields. by rewrite classify_foldl. Qed.

(** The scalar members are written one after the other. *)
Lemma writeScalar_foldl (fs : list (field Sc E)) : ∀ (w : bytes) names,
  (foldl (writeScalar enc) (w, names) fs).1 = w ++ scalars enc fs.
Proof.
  induction fs as [|f fs IH]; intros w names; simpl.
  - by rewrite app_nil_r.
  - rewrite IH. rewrite !put_buffer, !encodeTrimmed_buffer.
    unfold scalars, rendered. rewrite fmap_cons. cbn [concat]. by rewrite <- !app_assoc.
Qed.

(** A pass over the fields that go to stores adds to the store of every
    such field a comma and the elements, and leaves other stores as they
    are; it panics only on a field without a store. *)
Lemma appendStores_lookup (Ss : list (field Sc E)) : ∀ files files',
  appendStores enc Ss files = Some files' →
  ∀ n, files' !! n =
       (λ c, c ++ concat ((λ f, B "," ++ spliced enc (Value f))
                          <$> filter (λ f, Name f = n) Ss)) <$> files !! n.
Proof.
  induction Ss as [|f Ss IH]; intros files files' Hrun n; simpl in Hrun.
  - injection Hrun as <-. simpl. destruct (files !! n); simpl; [|done].
    by rewrite app_nil_r.
  - destruct (files !! Name f) as [fh|] eqn:Hfh; [|done].
    rewrite (IH _ _ Hrun n), filter_cons.
    rewrite put_buffer, encodeTrimmed_buffer. fold (spliced enc (Value f)).
    case_decide as Hn.
    + subst n. rewrite lookup_insert_eq, Hfh. simpl. by rewrite <- !app_assoc.
    + by rewrite lookup_insert_ne.
Qed.

Lemma appendStores_is_Some (Ss : list (field Sc E)) : ∀ files,
  Forall (λ f, is_Some (files !! Name f)) Ss →
  is_Some (appendStores enc Ss files).
Proof.
  induction Ss as [|f Ss IH]; intros files HS; simpl; [done|].
  apply Forall_cons in HS as [[fh Hfh] HS]. rewrite Hfh.
  apply IH. eapply Forall_impl; [exact HS|]. intros g Hg. simpl in Hg.
  destruct (decide (Name f = Name g)) as [->|Hne].
  - by rewrite lookup_insert_eq.
  - by rewrite lookup_insert_ne.
Qed.

Lemma appendStores_has_store (Ss : list (field Sc E)) : ∀ files,
  is_Some (appendStores enc Ss files) →
  Forall (λ f, is_Some (files !! Name f)) Ss.
Proof.
  induction Ss as [|f Ss IH]; intros files HS; simpl in *; [done|].
  destruct (files !! Name f) as [fh|] eqn:Hfh; [|by destruct HS].
  apply Forall_cons. split; [by rewrite Hfh|].
  eapply Forall_impl; [exact (IH _ HS)|]. intros g Hg. simpl in Hg.
  destruct (decide (Name f = Name g)) as [Heq|Hne].
  - by rewrite <- Heq, Hfh.
  - by rewrite lookup_insert_ne in Hg.
Qed.

(** One pass of the loop, when it does not panic. *)
Lemma step_inl first0 names st part st' :
  step enc first0 names st part = inl st' →
  (sliceFields part).1 ≠ [] ∧
  st_w st' = st_w st ++ firstPart enc first0 part ∧
  appendStores enc (spillFields first0 part) (st_files st) = Some (st_files st').
Proof.
  unfold step, firstPart, spillFields.
  destruct (sliceFields part) as [[|f0 Ss'] nS]; [done|]. simpl.
  case_bool_decide.
  - rewrite put_buffer, encodeTrimmed_buffer. fold (spliced enc (Value f0)).
    destruct (appendStores enc Ss' (st_files st)); [|done].
    intros [= <-]. simpl. by rewrite <- app_assoc.
  - destruct (appendStores enc (f0 :: Ss') (st_files st)); [|done].
    intros [= <-]. simpl. by rewrite app_nil_r.
Qed.

Lemma step_ok first0 names st part :
  (sliceFields part).1 ≠ [] →
  Forall (λ f, is_Some (st_files st !! Name f)) (spillFields first0 part) →
  ∃ st', step enc first0 names st part = inl st'.
Proof.
  unfold step, spillFields.
  destruct (sliceFields part) as [[|f0 Ss'] nS]; [done|]. simpl.
  intros _ HS. apply appendStores_is_Some in HS as [files HS].
  case_bool_decide; rewrite HS; by eexists.
Qed.

(** Whatever a pass does, the output keeps what it had. *)
Lemma step_extends first0 names st part :
  match step enc first0 names st part with
  | inl st' => ∃ x, st_w st' = st_w st ++ x
  | inr (w, _) => ∃ x, w = st_w st ++ x
  end.
Proof.
  unfold step.
  destruct (sliceFields part) as [[|f0 Ss'] nS].
  { exists []. by rewrite app_nil_r. }
  case_bool_decide.
  - rewrite put_buffer, encodeTrimmed_buffer.
    destruct (appendStores enc Ss' (st_files st)); simpl;
      eexists; by rewrite <- app_assoc.
  - destruct (appendStores enc (f0 :: Ss') (st_files st)); simpl;
      exists []; by rewrite app_nil_r.
Qed.

(** The loop on records alone. *)
Lemma streamed_inl first0 names (rs : list (record Sc E)) : ∀ st st',
  streamed enc first0 names st rs = inl st' →
  st_w st' = st_w st ++ concat (firstPart enc first0 <$> rs) ∧
  ∀ n, st_files st' !! n =
       (λ c, c ++ concat (spillPart enc first0 n <$> rs)) <$> st_files st !! n.
Proof.
  induction rs as [|r rs IH]; intros st st' Hrun; simpl in Hrun.
  - injection Hrun as <-. simpl. rewrite app_nil_r. split; [done|].
    intros n. destruct (st_files st !! n); simpl; [|done]. by rewrite app_nil_r.
  - destruct (step enc first0 names st r) as [st1|[w1 lg1]] eqn:Hstep; [|done].
    apply step_inl in Hstep as (_ & Hw & Hfiles).
    destruct (IH _ _ Hrun) as [Hw' Hfiles'].
    rewrite Hw', Hw. rewrite fmap_cons. cbn [concat].
    split; [by rewrite <- app_assoc|].
    intros n. rewrite Hfiles', (appendStores_lookup _ _ _ Hfiles n).
    fold (spillPart enc first0 n r).
    destruct (st_files st !! n); simpl; [|done]. by rewrite <- app_assoc.
Qed.

Lemma streamed_ok first0 names (rs : list (record Sc E)) : ∀ st,
  Forall (λ r, (sliceFields r).1 ≠ [] ∧
               Forall (λ f, is_Some (st_files st !! Name f)) (spillFields first0 r)) rs →
  ∃ st', streamed enc first0 names st rs = inl st'.
Proof.
  induction rs as [|r rs IH]; intros st Hrs; simpl; [by eexists|].
  apply Forall_cons in Hrs as [[Hne Hstores] Hrs].
  destruct (step_ok first0 names st r Hne Hstores) as [st1 Hstep].
  rewrite Hstep. apply IH.
  apply step_inl in Hstep as (_ & _ & Hfiles).
  eapply Forall_impl; [exact Hrs|]. intros r' [Hne' Hst']. split; [done|].
  eapply Forall_impl; [exact Hst'|]. intros f Hf. simpl in Hf.
  rewrite (appendStores_lookup _ _ _ Hfiles). by apply fmap_is_Some.
Qed.

(** The lines after the loop. *)
Lemma copyStore_foldl (l : list (string * bytes)) :
  ∀ (w : bytes) (lg : list (logEntry Sc E)),
  (foldl (copyStore e) (w, lg) l).1 =
    w ++ concat ((λ kv : string * bytes,
                    if seek_ok e kv.1 then B "," ++ kv.2 ++ B "]" else []) <$> l).
Proof.
  induction l as [|kv l IH]; intros w lg.
  - simpl. by rewrite app_nil_r.
  - cbn [foldl]. rewrite fmap_cons. cbn [concat]. unfold copyStore at 2.
    destruct (seek_ok e kv.1); rewrite IH.
    + rewrite !put_buffer. by rewrite <- !app_assoc.
    + done.
Qed.

Lemma finalize_out st :
  (finalize e st).1 = st_w st ++ B "]" ++ spillover e (st_files st) ++ B "}" ++ nl.
Proof.
  unfold finalize, spillover.
  pose proof (copyStore_foldl (rangeOrder e (st_files st))
                (put (st_w st) (B "]")) (st_log st)) as Hc.
  destruct (foldl (copyStore e) _ _) as [w lg]. simpl in *. subst w.
  rewrite !put_buffer. by rewrite <- !app_assoc.
Qed.

Lemma copyStore_log (l : list (string * bytes)) :
  ∀ (w : bytes) (lg : list (logEntry Sc E)),
  ∃ x, (foldl (copyStore e) (w, lg) l).2 = lg ++ x.
Proof.
  induction l as [|kv l IH]; intros w lg.
  - exists []. simpl. by rewrite app_nil_r.
  - cbn [foldl]. unfold copyStore at 2. destruct (seek_ok e kv.1).
    + apply IH.
    + destruct (IH w (lg ++ [LogSeek kv.1])) as [x ->].
      eexists. by rewrite <- app_assoc.
Qed.

Lemma finalize_log st : ∃ x, (finalize e st).2 = st_log st ++ x.
Proof.
  unfold finalize.
  pose proof (copyStore_log (rangeOrder e (st_files st))
                (put (st_w st) (B "]")) (st_log st)) as [x Hc].
  destruct (foldl (copyStore e) _ _) as [w lg]. simpl in *. by exists x.
Qed.

Lemma finalize_log_irrelevant (w : bytes) files (lg lg' : list (logEntry Sc E)) :
  (finalize e (mkState w files lg)).1 = (finalize e (mkState w files lg')).1.
Proof. by rewrite !finalize_out. Qed.

(** The loop reads the records before the first error, and then
    either has panicked or goes on to the lines after the loop. *)
Lemma loop_reaches first0 names (recv : list (response Sc E)) : ∀ st st',
  streamed enc first0 names st (readable recv) = inl st' →
  out (loop enc e first0 names st recv) =
    st_w st' ++ B "]" ++ spillover e (st_files st') ++ B "}" ++ nl ∧
  how (loop enc e first0 names st recv) = Finished ∧
  unread (loop enc e first0 names st recv) = tail (afterRecords recv) ∧
  ∀ err, head (afterRecords recv) = Some (inr err) → err ≠ EOF →
         LogRecv err ∈ log (loop enc e first0 names st recv).
Proof.
  induction recv as [|[r|err] recv IH]; intros st st' Hrun; simpl in Hrun.
  - injection Hrun as <-. cbn [loop].
    pose proof (finalize_out st) as Hout.
    destruct (finalize e st) as [w lg]. by repeat split.
  - destruct (step enc first0 names st r) as [st1|[w1 lg1]] eqn:Hstep; [|done].
    cbn [loop]. rewrite Hstep. apply (IH _ _ Hrun).
  - injection Hrun as <-. cbn [loop].
    set (lg0 := if bool_decide (err ≠ EOF) then _ else _).
    pose proof (finalize_out (mkState (st_w st) (st_files st) lg0)) as Hout.
    pose proof (finalize_log (mkState (st_w st) (st_files st) lg0)) as [x Hlog].
    destruct (finalize e _) as [w lg]. simpl in *. repeat split; [done|].
    intros err' [= <-] Hne. subst lg lg0.
    rewrite bool_decide_eq_true_2 by done.
    apply elem_of_app. left. apply elem_of_app. right. apply list_elem_of_singleton. done.
Qed.

Lemma loop_panics first0 names (recv : list (response Sc E)) : ∀ st w lg,
  streamed enc first0 names st (readable recv) = inr (w, lg) →
  out (loop enc e first0 names st recv) = w ∧
  how (loop enc e first0 names st recv) = Panicked.
Proof.
  induction recv as [|[r|err] recv IH]; intros st w lg Hrun; simpl in *; try done.
  destruct (step enc first0 names st r) as [st1|[w1 lg1]].
  - by apply (IH st1 w lg).
  - by injection Hrun as <- <-.
Qed.

(** The lines before the loop. *)
Lemma openStores_inl (fs : list (field Sc E)) : ∀ files names files' names',
  openStores enc e fs files names = inl (files', names') →
  files' = openedStores enc fs files.
Proof.
  induction fs as [|f fs IH]; intros files names files' names' Hrun; simpl in Hrun.
  - by injection Hrun as <- <-.
  - destruct (tempFile_ok e (Name f)); [|done].
    apply IH in Hrun. rewrite Hrun. cbn [openedStores foldl]. f_equal.
    rewrite put_buffer, !encodeTrimmed_buffer. simpl.
    unfold storeHead, rendered, spliced. by rewrite <- app_assoc.
Qed.

Lemma openStores_ok (fs : list (field Sc E)) : ∀ files names,
  (∀ n, tempFile_ok e n = true) →
  ∃ r, openStores enc e fs files names = inl r.
Proof.
  induction fs as [|f fs IH]; intros files names Hok; simpl; [by eexists|].
  rewrite Hok. by apply IH.
Qed.

Lemma start_inl (w : bytes) first0 others notSlice names st :
  start enc e w first0 others notSlice = inl (names, st) →
  st_w st = w ++ docHead enc first0 notSlice ∧
  st_files st = openedStores enc others ∅ ∧
  st_log st = [LogSlices (first0 :: others)].
Proof.
  unfold start.
  pose proof (writeScalar_foldl notSlice (put w (B "{")) ∅) as Hsc.
  destruct (foldl (writeScalar enc) _ notSlice) as [w1 names1]. simpl in Hsc. subst w1.
  destruct (openStores enc e others ∅ _) as [[files names2]|name] eqn:Hopen; [|done].
  intros [= <- <-]. simpl. apply openStores_inl in Hopen. split; [|done].
  rewrite !put_buffer, !encodeTrimmed_buffer. unfold docHead, rendered.
  by rewrite <- !app_assoc.
Qed.

Lemma start_inr (w : bytes) first0 others notSlice w' lg :
  start enc e w first0 others notSlice = inr (w', lg) →
  w' = w ++ docHead enc first0 notSlice.
Proof.
  unfold start.
  pose proof (writeScalar_foldl notSlice (put w (B "{")) ∅) as Hsc.
  destruct (foldl (writeScalar enc) _ notSlice) as [w1 names1]. simpl in Hsc. subst w1.
  destruct (openStores enc e others ∅ _) as [[files names2]|name] eqn:Hopen; [done|].
  intros [= <- <-].
  rewrite !put_buffer, !encodeTrimmed_buffer. unfold docHead, rendered.
  by rewrite <- !app_assoc.
Qed.

Lemma start_ok (w : bytes) first0 others notSlice :
  (∀ n, tempFile_ok e n = true) →
  ∃ names st, start enc e w first0 others notSlice = inl (names, st).
Proof.
  intros Hok. unfold start.
  destruct (foldl (writeScalar enc) _ notSlice) as [w1 names1].
  destruct (openStores_ok others ∅ (<[Name first0 := true]> names1) Hok)
    as [[files names2] ->].
  by eexists _, _.
Qed.

(** The stores that are opened: one for every field, under its name. *)
Lemma openedStores_lookup_ne (fs : list (field Sc E)) : ∀ files n,
  n ∉ (Name <$> fs) → openedStores enc fs files !! n = files !! n.
Proof.
  induction fs as [|f fs IH]; intros files n Hn; [done|].
  rewrite fmap_cons in Hn. apply not_elem_of_cons in Hn as [Hne Hn].
  cbn [openedStores foldl]. fold (openedStores enc fs (<[Name f:=storeHead enc f]> files)).
  rewrite IH by done. by rewrite lookup_insert_ne.
Qed.

Lemma openedStores_lookup (fs : list (field Sc E)) : ∀ files f,
  NoDup (Name <$> fs) → f ∈ fs →
  openedStores enc fs files !! Name f = Some (storeHead enc f).
Proof.
  induction fs as [|g fs IH]; intros files f Hnd Hf; [by apply elem_of_nil in Hf|].
  rewrite fmap_cons in Hnd. apply NoDup_cons in Hnd as [Hg Hnd].
  cbn [openedStores foldl]. fold (openedStores enc fs (<[Name g:=storeHead enc g]> files)).
  apply elem_of_cons in Hf as [->|Hf].
  - rewrite openedStores_lookup_ne by done. by rewrite lookup_insert_eq.
  - by apply IH.
Qed.

Lemma mergeStreams_merge (w : bytes) first first0 others notSlice names st recv :
  sliceFields first = (first0 :: others, notSlice) →
  start enc e w first0 others notSlice = inl (names, st) →
  mergeStreams enc e w first recv = loop enc e first0 names st recv.
Proof. intros Hs Hstart. unfold mergeStreams. by rewrite Hs, Hstart. Qed.

Lemma mergeStreams_abort (w : bytes) first first0 others notSlice w' lg recv :
  sliceFields first = (first0 :: others, notSlice) →
  start enc e w first0 others notSlice = inr (w', lg) →
  mergeStreams enc e w first recv = mkResult w' lg recv Aborted.
Proof. intros Hs Hstart. unfold mergeStreams. by rewrite Hs, Hstart. Qed.

Lemma readable_records (rs : list (record Sc E)) (tl : list (response Sc E)) :
  readable ((inl <$> rs) ++ tl) = rs ++ readable tl.
Proof. induction rs as [|r rs IH]; csimpl; [done|]. by rewrite IH. Qed.

Lemma afterRecords_records (rs : list (record Sc E)) err (tl : list (response Sc E)) :
  afterRecords ((inl <$> rs) ++ inr err :: tl) = inr err :: tl.
Proof.
  unfold afterRecords. rewrite (readable_records rs (inr err :: tl)).
  simpl. rewrite app_nil_r.
  rewrite drop_app_length'; [done|]. by rewrite length_fmap.
Qed.

(** The output only grows. *)
Lemma loop_extends first0 names (recv : list (response Sc E)) : ∀ st,
  ∃ x, out (loop enc e first0 names st recv) = st_w st ++ x.
Proof.
  induction recv as [|[r|err] recv IH]; intros st; cbn [loop].
  - pose proof (finalize_out st) as Hout.
    destruct (finalize e st) as [w lg]. simpl in *. by eexists.
  - pose proof (step_extends first0 names st r) as Hstep.
    destruct (step enc first0 names st r) as [st1|[w1 lg1]].
    + destruct Hstep as [x Hx]. destruct (IH st1) as [y Hy].
      exists (x ++ y). by rewrite Hy, Hx, <- app_assoc.
    + done.
  - set (lg0 := if bool_decide (err ≠ EOF) then _ else _).
    pose proof (finalize_out (mkState (st_w st) (st_files st) lg0)) as Hout.
    destruct (finalize e _) as [w lg]. simpl in *. by eexists.
Qed.

(** The loop looks at a record only through [sliceFields], and at the
    fields that are not slices only through their names. *)
Lemma offender_names names want (nS nS' : list (field Sc E)) : ∀ acc,
  Name <$> nS = Name <$> nS' →
  foldl (offender names want) acc nS = foldl (offender names want) acc nS'.
Proof.
  revert nS'. induction nS as [|f nS IH]; intros [|f' nS'] acc Hn; try done.
  rewrite !fmap_cons in Hn. injection Hn as Hf Hn. cbn [foldl].
  unfold offender at 2 4. rewrite Hf. by apply IH.
Qed.

Lemma step_alike first0 names st (r r' : record Sc E) :
  alike (inl r) (inl r') →
  step enc first0 names st r = step enc first0 names st r'.
Proof.
  intros [HS HnS]. unfold step.
  destruct (sliceFields r) as [Ss nS], (sliceFields r') as [Ss' nS'].
  simpl in *. subst Ss'. unfold schemaErr.
  by rewrite (offender_names _ _ nS nS' _ HnS).
Qed.

Lemma loop_alike first0 names (recv recv' : list (response Sc E)) :
  Forall2 alike recv recv' → ∀ st,
  out (loop enc e first0 names st recv) = out (loop enc e first0 names st recv') ∧
  log (loop enc e first0 names st recv) = log (loop enc e first0 names st recv') ∧
  how (loop enc e first0 names st recv) = how (loop enc e first0 names st recv').
Proof.
  induction 1 as [|a b recv recv' Hab _ IH]; intros st; [done|].
  destruct a as [r|err], b as [r'|err']; try done.
  - cbn [loop]. rewrite (step_alike first0 names st r r' Hab).
    destruct (step enc first0 names st r') as [st1|[w1 lg1]]; [apply IH | done].
  - simpl in Hab. subst err'. cbn [loop].
    by destruct (finalize e _) as [w lg].
Qed.

Lemma toField_eq (a b : structField Sc E) :
  sfName a = sfName b → sfTag a = sfTag b → sfValue a = sfValue b →
  toField a = toField b.
Proof. intros Hn Ht Hv. unfold toField, jsonName. by rewrite Hn, Ht, Hv. Qed.

Lemma scalar_variant_alike (r r' : record Sc E) :
  scalar_variant r r' → alike (inl r) (inl r').
Proof.
  intros Hv. unfold alike. rewrite !sliceFields_spec. cbn [fst snd].
  induction Hv as [|a b r r' (Hn & Ht & Hval) _ [IH1 IH2]]; [done|].
  rewrite !filter_cons.
  assert (isSliceField a = isSliceField b ∧ isScalarField a = isScalarField b)
    as [Hsl Hsc].
  { unfold isSliceField, isScalarField.
    destruct Hval as [->|(x & y & -> & ->)]; done. }
  assert (Is_true (isSliceField a) → toField a = toField b) as Hfld.
  { intros Hk. destruct Hval as [Hval|(x & y & Ha & Hb)].
    - by apply toField_eq.
    - unfold isSliceField in Hk. by rewrite Ha in Hk. }
  rewrite Hsl, Hsc in *.
  destruct (isSliceField b), (isScalarField b); repeat case_decide; try done;
    rewrite ?fmap_cons; cbn [Name toField]; split; try congruence.
  all: rewrite Hfld by done; congruence.
Qed.

(** A nil slice field is in neither list of [sliceFields]. *)
Lemma nil_in_sliceFields name part :
  nil_in name part →
  (name ∉ (Name <$> (sliceFields part).1)) ∧ (name ∉ (Name <$> (sliceFields part).2)).
Proof.
  unfold nil_in. intros Hnil. rewrite sliceFields_spec. cbn [fst snd].
  split; intros (f & -> & (sf & -> & Hsf)%list_elem_of_fmap)%list_elem_of_fmap;
    apply list_elem_of_filter in Hsf as [Hkind Hsf];
    rewrite Forall_forall in Hnil; specialize (Hnil sf Hsf eq_refl);
    unfold isSliceField, isScalarField in Hkind; by rewrite Hnil in Hkind.
Qed.

Lemma offender_elem names want (fs : list (field Sc E)) : ∀ acc other,
  foldl (offender names want) acc fs = Some other →
  acc = Some other ∨ other ∈ (Name <$> fs).
Proof.
  induction fs as [|f fs IH]; intros acc other Hrun; [by left|].
  cbn [foldl] in Hrun. apply IH in Hrun as [Hacc|Hin].
  - unfold offender in Hacc. rewrite fmap_cons.
    destruct (names !! Name f) as [isSlice|]; [case_bool_decide|].
    + by left.
    + right. injection Hacc as <-. apply elem_of_cons. by left.
    + right. injection Hacc as <-. apply elem_of_cons. by left.
  - right. rewrite fmap_cons. apply elem_of_cons. by right.
Qed.

Lemma schemaErr_elem names (Ss nS : list (field Sc E)) other :
  schemaErr names Ss nS = Some other →
  other ∈ (Name <$> Ss) ∨ other ∈ (Name <$> nS).
Proof.
  unfold schemaErr. intros [Hacc|Hin]%offender_elem; [|by right].
  apply offender_elem in Hacc as [?|?]; [done | by left].
Qed.

Lemma readable_inl (rs : list (record Sc E)) : readable (inl <$> rs) = rs.
Proof. induction rs as [|r rs IH]; csimpl; [done|]. by rewrite IH. Qed.

(** A run that finishes has opened its stores and read its records
    without a panic. *)
Lemma finished_inv first first0 others notSlice (recv : list (response Sc E)) :
  sliceFields first = (first0 :: others, notSlice) →
  how (mergeStreams enc e ([] : bytes) first recv) = Finished →
  ∃ names st0 st,
    start enc e [] first0 others notSlice = inl (names, st0) ∧
    streamed enc first0 names st0 (readable recv) = inl st.
Proof.
  intros Hs Hfin.
  destruct (start enc e [] first0 others notSlice) as [[names st0]|[w' lg]] eqn:Hstart.
  - rewrite (mergeStreams_merge _ _ _ _ _ _ _ _ Hs Hstart) in Hfin.
    destruct (streamed enc first0 names st0 (readable recv)) as [st|[w lg]] eqn:Hrun.
    + by exists names, st0, st.
    + apply (loop_panics first0 names recv) in Hrun as [_ Hp]. congruence.
  - by rewrite (mergeStreams_abort _ _ _ _ _ _ _ _ Hs Hstart) in Hfin.
Qed.

(** C8: when [Recv] fails with an error other than end-of-stream after
    the records [rs], no further answer is read, the error is logged,
    and the document is closed as it is at the end of a stream: the
    closing bracket of the streamed list, the stores, the closing brace.
    "The run gets to the failing [Recv]" is: the merge of [rs] alone
    runs to its end. *)
Theorem read_failure_is_finalized first first0 others notSlice
    (rs : list (record Sc E)) err (tl : list (response Sc E)) :
  sliceFields first = (first0 :: others, notSlice) →
  how (mergeStreams enc e ([] : bytes) first (inl <$> rs)) = Finished →
  err ≠ EOF →
  let r := mergeStreams enc e ([] : bytes) first ((inl <$> rs) ++ inr err :: tl) in
  how r = Finished ∧ unread r = tl ∧ LogRecv err ∈ log r ∧
  out r = out (mergeStreams enc e ([] : bytes) first (inl <$> rs)) ∧
  ∃ names st0 st,
    start enc e [] first0 others notSlice = inl (names, st0) ∧
    streamed enc first0 names st0 rs = inl st ∧
    out r = st_w st ++ B "]" ++ spillover e (st_files st) ++ B "}" ++ nl.
Proof.
  intros Hs Hfin Hne r.
  destruct (finished_inv _ _ _ _ _ Hs Hfin) as (names & st0 & st & Hstart & Hrun).
  rewrite readable_inl in Hrun. subst r.
  rewrite !(mergeStreams_merge _ _ _ _ _ _ _ _ Hs Hstart).
  destruct (loop_reaches first0 names ((inl <$> rs) ++ inr err :: tl) st0 st)
    as (Hout & Hhow & Hunread & Hlog).
  { by rewrite readable_records, app_nil_r. }
  destruct (loop_reaches first0 names (inl <$> rs) st0 st) as (Hout' & _).
  { by rewrite readable_inl. }
  rewrite afterRecords_records in Hunread, Hlog.
  repeat split; try done.
  - by apply Hlog.
  - by rewrite Hout, Hout'.
  - by exists names, st0, st.
Qed.

(** C6: in a merged document the scalar members are those of the first
    record, and a source whose later records differ only in the values
    of scalar fields gives the same document.  The hypothesis is that the
    first record has a slice field, so that there is a merge. *)
Theorem scalars_come_from_first_record first first0 others notSlice
    (recv recv' : list (response Sc E)) :
  sliceFields first = (first0 :: others, notSlice) →
  Forall2 response_variant recv recv' →
  out (mergeStreams enc e ([] : bytes) first recv) =
    out (mergeStreams enc e ([] : bytes) first recv') ∧
  how (mergeStreams enc e ([] : bytes) first recv) =
    how (mergeStreams enc e ([] : bytes) first recv') ∧
  ∃ rest, out (mergeStreams enc e ([] : bytes) first recv) =
            B "{" ++ scalars enc notSlice ++ rest.
Proof.
  intros Hs Hv.
  assert (Forall2 alike recv recv') as Hal.
  { eapply Forall2_impl; [exact Hv|]. intros [r|err] [r'|err']; try done.
    apply scalar_variant_alike. }
  destruct (start enc e [] first0 others notSlice) as [[names st0]|[w' lg]] eqn:Hstart.
  - rewrite !(mergeStreams_merge _ _ _ _ _ _ _ _ Hs Hstart).
    destruct (loop_alike first0 names recv recv' Hal st0) as (Hout & _ & Hhow).
    repeat split; try done.
    destruct (loop_extends first0 names recv st0) as [x Hx].
    apply start_inl in Hstart as (Hw & _). rewrite Hx, Hw, app_nil_l.
    unfold docHead. rewrite <- !app_assoc. by eexists.
  - rewrite !(mergeStreams_abort _ _ _ _ _ _ _ _ Hs Hstart). repeat split.
    apply start_inr in Hstart as ->. rewrite app_nil_l. unfold docHead.
    cbn [out]. by eexists.
Qed.

(** A record without a non-nil slice field ends the run in a panic,
    wherever it comes in the stream. *)
Lemma step_panics_without_slices first0 names st part :
  (sliceFields part).1 = [] →
  ∃ lg, step enc first0 names st part = inr (st_w st, lg).
Proof.
  unfold step. destruct (sliceFields part) as [Ss nS]. cbn [fst].
  intros ->. by eexists.
Qed.

Lemma loop_panics_without_slices first0 names (rs : list (record Sc E)) part
    (tl : list (response Sc E)) st st' :
  streamed enc first0 names st rs = inl st' →
  (sliceFields part).1 = [] →
  how (loop enc e first0 names st ((inl <$> rs) ++ inl part :: tl)) = Panicked ∧
  out (loop enc e first0 names st ((inl <$> rs) ++ inl part :: tl)) = st_w st'.
Proof.
  intros Hrun Hnone.
  destruct (step_panics_without_slices first0 names st' part Hnone) as [lg Hstep].
  assert (streamed enc first0 names st (readable ((inl <$> rs) ++ inl part :: tl)) =
            inr (st_w st', lg)) as Hp.
  { rewrite readable_records. clear Hnone. revert st Hrun.
    induction rs as [|r rs IH]; intros st Hrun; simpl in *.
    - injection Hrun as ->. by rewrite Hstep.
    - destruct (step enc first0 names st r) as [st1|[w1 lg1]]; [by apply IH | done]. }
  apply loop_panics in Hp as [-> ->]. done.
Qed.

Lemma step_log first0 names st part st' :
  step enc first0 names st part = inl st' →
  st_log st' =
    match schemaErr names (sliceFields part).1 (sliceFields part).2 with
    | Some name => st_log st ++ [LogNewField name]
    | None => st_log st
    end.
Proof.
  unfold step. destruct (sliceFields part) as [[|f0 Ss'] nS]; [done|]. cbn [fst snd].
  case_bool_decide.
  - destruct (appendStores enc Ss' (st_files st)); [|done]. by intros [= <-].
  - destruct (appendStores enc (f0 :: Ss') (st_files st)); [|done]. by intros [= <-].
Qed.

Lemma spillFields_elem first0 part f :
  f ∈ spillFields first0 part → f ∈ (sliceFields part).1.
Proof.
  unfold spillFields. destruct (sliceFields part).1 as [|f0 Ss']; [done|].
  case_bool_decide; [|done]. intros Hf. apply elem_of_cons. by right.
Qed.

Lemma filter_name_nil (fs : list (field Sc E)) name :
  name ∉ (Name <$> fs) → filter (λ f, Name f = name) fs = [].
Proof.
  induction fs as [|f fs IH]; intros Hn; [done|].
  rewrite fmap_cons in Hn. apply not_elem_of_cons in Hn as [Hne Hn].
  rewrite filter_cons. case_decide; [congruence | by apply IH].
Qed.

(** C7 (as the code has it): a slice field that is nil in a record is
    in neither list of the classifier, so it is not checked against the
    first record; the pass for that record leaves the field's store as it
    is, sends nothing to the output if the field is the streamed one, and
    any new field it reports is another one. *)
Theorem nil_slice_is_skipped first0 names st part name st' :
  nil_in name part →
  step enc first0 names st part = inl st' →
  (name ∉ (Name <$> (sliceFields part).1)) ∧
  (name ∉ (Name <$> (sliceFields part).2)) ∧
  st_files st' !! name = st_files st !! name ∧
  (name = Name first0 → st_w st' = st_w st) ∧
  (st_log st' = st_log st ∨
   ∃ other, other ≠ name ∧ st_log st' = st_log st ++ [LogNewField other]).
Proof.
  intros Hnil Hstep.
  destruct (nil_in_sliceFields name part Hnil) as [HS HnS].
  split; [done|]. split; [done|].
  pose proof Hstep as (_ & Hw & Hfiles)%step_inl.
  repeat split.
  - rewrite (appendStores_lookup _ _ _ Hfiles name), filter_name_nil.
    + destruct (st_files st !! name); simpl; [|done]. by rewrite app_nil_r.
    + intros (f & -> & Hf)%list_elem_of_fmap. apply HS.
      apply list_elem_of_fmap. exists f. split; [done|]. by eapply spillFields_elem.
  - intros ->. rewrite Hw. unfold firstPart.
    destruct (sliceFields part).1 as [|f0 Ss']; [by rewrite app_nil_r|].
    rewrite bool_decide_eq_false_2; [by rewrite app_nil_r|].
    intros Heq. apply HS. rewrite fmap_cons, Heq. apply elem_of_cons. by left.
  - rewrite (step_log _ _ _ _ _ Hstep).
    destruct (schemaErr names _ _) as [other|] eqn:Herr; [|by left].
    right. exists other. split; [|done].
    intros ->. apply schemaErr_elem in Herr as [?|?]; done.
Qed.
(** C9 (as the code has it): the copy loop visits the stores in the
    order in which [range] yields the map, every store once, and writes
    for each a comma, the contents of the store and a closing bracket. *)
Theorem stores_are_copied_in_range_order st :
  env_sound e → (∀ n, seek_ok e n = true) →
  ∃ l, l = rangeOrder e (st_files st) ∧ l ≡ₚ map_to_list (st_files st) ∧
       (finalize e st).1 =
         st_w st ++ B "]" ++
         concat ((λ kv : string * bytes, B "," ++ kv.2 ++ B "]") <$> l) ++
         B "}" ++ nl.
Proof.
  intros Hsound Hseek. eexists. split; [done|]. split; [apply Hsound|].
  rewrite finalize_out. unfold spillover. do 4 f_equal.
  apply list_fmap_ext. intros i kv _. by rewrite Hseek.
Qed.

(** *** With an encoder that writes lists in brackets *)

Section list_encoder.
Variable encElem : E → bytes.
Hypothesis Hlist : list_encoder enc encElem.

Lemma spliced_list xs :
  spliced enc (Slice (Some xs)) = joined (encElem <$> xs).
Proof using Hlist.
  destruct (Hlist xs) as [Hne Hcat]. unfold spliced.
  apply filtered_strip; [done | done |].
  rewrite Hcat. by rewrite drop_app_length.
Qed.

Lemma opened_list xs :
  filtered [] (B "]") (enc_writes enc (EValue (Slice (Some xs)))) =
    B "[" ++ joined (encElem <$> xs).
Proof using Hlist.
  destruct (Hlist xs) as [Hne Hcat].
  apply filtered_strip; [done | done |].
  rewrite Hcat. by rewrite drop_0, app_assoc.
Qed.

Lemma sliceFields_value part f :
  f ∈ (sliceFields part).1 → ∃ xs, Value f = Slice (Some xs).
Proof.
  rewrite sliceFields_spec. cbn [fst].
  intros (sf & -> & [Hk _]%list_elem_of_filter)%list_elem_of_fmap.
  unfold isSliceField in Hk. cbn [Value toField].
  destruct (sfValue sf) as [x|[xs|]]; try done. by exists xs.
Qed.

Lemma firstPart_headValue first0 part :
  firstPart enc first0 part =
    match headValue first0 part with
    | Some xs => B "," ++ joined (encElem <$> xs)
    | None => []
    end.
Proof using Hlist.
  unfold firstPart, headValue.
  destruct (sliceFields part).1 as [|f0 Ss'] eqn:HS; [done|].
  case_bool_decide; [|done].
  destruct (sliceFields_value part f0) as [xs Hxs].
  { rewrite HS. apply elem_of_cons. by left. }
  by rewrite Hxs, spliced_list.
Qed.

Lemma firstParts first0 (rs : list (record Sc E)) :
  concat (firstPart enc first0 <$> rs) =
    concat ((λ x, B "," ++ x) <$>
            ((λ xs, joined (encElem <$> xs)) <$> omap (headValue first0) rs)).
Proof using Hlist.
  induction rs as [|r rs IH]; [done|].
  rewrite fmap_cons. cbn [concat]. rewrite IH, firstPart_headValue.
  change (omap (headValue first0) (r :: rs)) with
    (match headValue first0 r with
     | Some xs => xs :: omap (headValue first0) rs
     | None => omap (headValue first0) rs
     end).
  by destruct (headValue first0 r).
Qed.

(** With such an encoder the streamed list is opened once, with the
    bracket the encoder wrote for the first record; the bracket that
    ends each encoded value is dropped, as is the opening bracket of
    every later value, and the only closing bracket is the one written
    after the loop.  Between the brackets are the elements of the first
    field of each record that had it first, separated by commas. *)
Lemma first_list_is_closed_once first first0 others notSlice
    (recv : list (response Sc E)) :
  sliceFields first = (first0 :: others, notSlice) →
  how (mergeStreams enc e ([] : bytes) first recv) = Finished →
  ∃ xs0 files,
    Value first0 = Slice (Some xs0) ∧
    let xss := xs0 :: omap (headValue first0) (readable recv) in
    out (mergeStreams enc e ([] : bytes) first recv) =
      B "{" ++ scalars enc notSlice ++
      rendered enc (EString (JSONName first0)) ++ B ":" ++
      B "[" ++ joined ((λ xs, joined (encElem <$> xs)) <$> xss) ++ B "]" ++
      spillover e files ++ B "}" ++ nl ∧
    (Forall (λ xs, xs ≠ []) xss →
     joined ((λ xs, joined (encElem <$> xs)) <$> xss) =
       joined (encElem <$> concat xss)).
Proof using Hlist.
  intros Hs Hfin.
  destruct (finished_inv _ _ _ _ _ Hs Hfin) as (names & st0 & st & Hstart & Hrun).
  destruct (sliceFields_value first first0) as [xs0 Hxs0].
  { rewrite Hs. apply elem_of_cons. by left. }
  exists xs0, (st_files st). split; [done|]. split; [|apply joined_concat].
  rewrite (mergeStreams_merge _ _ _ _ _ _ _ _ Hs Hstart).
  destruct (loop_reaches first0 names recv st0 st Hrun) as (-> & _).
  apply streamed_inl in Hrun as [-> _].
  apply start_inl in Hstart as (-> & _).
  unfold docHead. rewrite Hxs0, opened_list, firstParts, fmap_cons, joined_cons.
  rewrite app_nil_l. by rewrite <- !app_assoc.
Qed.

(** *** Records of one struct type *)

Lemma nonnil_isSliceField (sf : structField Sc E) :
  nonnil sf ↔ isSliceField sf.
Proof.
  unfold nonnil, isSliceField. split.
  - by intros [xs ->].
  - destruct (sfValue sf) as [x|[xs|]]; try done. by exists xs.
Qed.

Lemma conforms_names (first r : record Sc E) :
  conforms first r → sfName <$> r = sfName <$> first.
Proof.
  induction 1 as [|a b first r [Hn _] _ IH]; [done|].
  rewrite !fmap_cons. by rewrite Hn, IH.
Qed.

Lemma conforms_sublist (first r : record Sc E) :
  conforms first r →
  (Name <$> (sliceFields r).1) `sublist_of` (Name <$> (sliceFields first).1).
Proof.
  rewrite !sliceFields_spec. cbn [fst].
  induction 1 as [|a b first r [Hn Himp] _ IH]; [done|].
  rewrite !filter_cons. rewrite !nonnil_isSliceField in Himp.
  destruct (decide (isSliceField b)) as [Hb|Hb].
  - destruct (decide (isSliceField a)) as [Ha|Ha]; [|by destruct Ha; auto].
    rewrite !fmap_cons. cbn [Name toField]. rewrite Hn. by apply sublist_skip.
  - destruct (decide (isSliceField a)) as [Ha|Ha]; [|done].
    rewrite fmap_cons. by apply sublist_cons.
Qed.

Lemma has_slice_sliceFields (r : record Sc E) :
  has_slice r → (sliceFields r).1 ≠ [].
Proof.
  rewrite sliceFields_spec. cbn [fst].
  intros (sf & Hsf & Hnn%nonnil_isSliceField)%Exists_exists Hnil.
  apply fmap_nil_inv in Hnil.
  assert (sf ∈ filter (λ sf, isSliceField sf) r) as Hin
    by (by apply list_elem_of_filter).
  rewrite Hnil in Hin. by apply elem_of_nil in Hin.
Qed.

(** The fields of a later record that go to stores are among those
    that have a store, because the first slice field comes first. *)
Lemma spillFields_sublist first0 (others : list (field Sc E)) part :
  NoDup (Name <$> first0 :: others) →
  (Name <$> (sliceFields part).1) `sublist_of` (Name <$> first0 :: others) →
  (Name <$> spillFields first0 part) `sublist_of` (Name <$> others).
Proof.
  rewrite fmap_cons. intros [Hnotin _]%NoDup_cons. unfold spillFields.
  destruct (sliceFields part).1 as [|f0 Ss']; [intros _; apply sublist_nil_l|].
  rewrite fmap_cons. intros [Hsub|(l' & [= Hhead <-] & Hsub)]%sublist_cons_r.
  - case_bool_decide as Heq; [|by rewrite fmap_cons].
    destruct Hnotin. rewrite <- Heq. eapply elem_of_sublist; [|exact Hsub].
    apply elem_of_cons. by left.
  - by rewrite bool_decide_eq_true_2.
Qed.

Lemma openedStores_is_Some (fs : list (field Sc E)) : ∀ files n,
  n ∈ (Name <$> fs) → is_Some (openedStores enc fs files !! n).
Proof.
  induction fs as [|f fs IH]; intros files n Hn; [by apply elem_of_nil in Hn|].
  cbn [openedStores foldl]. fold (openedStores enc fs (<[Name f:=storeHead enc f]> files)).
  destruct (decide (n ∈ (Name <$> fs))) as [Hin|Hnotin]; [by apply IH|].
  rewrite openedStores_lookup_ne by done.
  rewrite fmap_cons in Hn. apply elem_of_cons in Hn as [->|?]; [|done].
  by rewrite lookup_insert_eq.
Qed.

(** *** What a record gives to the list of a field *)

Lemma valuesOf_cons name (sf : structField Sc E) (r : record Sc E) :
  valuesOf name (sf :: r) =
    (if bool_decide (sfName sf = name) then sliceElems (sfValue sf) else []) ++
    valuesOf name r.
Proof. done. Qed.

Lemma valuesOf_absent name (r : record Sc E) :
  name ∉ (sfName <$> r) → valuesOf name r = [].
Proof.
  induction r as [|sf r IH]; intros Hn; [done|].
  rewrite fmap_cons in Hn. apply not_elem_of_cons in Hn as [Hne Hn].
  rewrite valuesOf_cons, bool_decide_eq_false_2 by done. by apply IH.
Qed.

Lemma valuesOf_elem (sf : structField Sc E) (r : record Sc E) :
  NoDup (sfName <$> r) → sf ∈ r →
  valuesOf (sfName sf) r = sliceElems (sfValue sf).
Proof.
  induction r as [|sf' r IH]; intros Hnd Hin; [by apply elem_of_nil in Hin|].
  rewrite fmap_cons in Hnd. apply NoDup_cons in Hnd as [Hnotin Hnd].
  rewrite valuesOf_cons. apply elem_of_cons in Hin as [<-|Hin].
  - rewrite bool_decide_eq_true_2 by done.
    by rewrite valuesOf_absent, app_nil_r.
  - rewrite bool_decide_eq_false_2; [by apply IH|].
    intros Heq. apply Hnotin. rewrite Heq. by apply list_elem_of_fmap_2.
Qed.

(** The fields called [name] among the slice fields of a record give
    a comma and the elements of that field, if it has any. *)
Lemma named_slices name (r : record Sc E) :
  NoDup (sfName <$> r) → no_empty_slice r →
  concat ((λ f, B "," ++ spliced enc (Value f))
          <$> filter (λ f, Name f = name) (sliceFields r).1) =
    separated encElem (valuesOf name r).
Proof using Hlist.
  rewrite sliceFields_spec. cbn [fst]. unfold no_empty_slice.
  induction r as [|sf r IH]; intros Hnd Hne; [done|].
  rewrite fmap_cons in Hnd. apply NoDup_cons in Hnd as [Hnotin Hnd].
  apply Forall_cons in Hne as [Hsf Hne].
  rewrite valuesOf_cons, filter_cons.
  destruct (decide (isSliceField sf)) as [Hk|Hk].
  - rewrite fmap_cons, filter_cons. cbn [Name toField].
    apply nonnil_isSliceField in Hk as [xs Hxs].
    destruct (decide (sfName sf = name)) as [Heq|Hneq].
    + rewrite bool_decide_eq_true_2 by done.
      rewrite fmap_cons. cbn [concat Value toField].
      rewrite IH by done. rewrite Hxs, spliced_list. cbn [sliceElems].
      rewrite valuesOf_absent, app_nil_r by (by rewrite <- Heq).
      destruct xs; [done|]. by rewrite app_nil_r.
    + rewrite bool_decide_eq_false_2 by done. by apply IH.
  - rewrite IH by done.
    assert (sliceElems (sfValue sf) = []) as ->.
    { unfold isSliceField in Hk. by destruct (sfValue sf) as [x|[xs|]]. }
    by case_bool_decide.
Qed.

Lemma filter_spillFields first0 name part :
  name ≠ Name first0 →
  filter (λ f, Name f = name) (spillFields first0 part) =
    filter (λ f, Name f = name) (sliceFields part).1.
Proof.
  intros Hne. unfold spillFields.
  destruct (sliceFields part).1 as [|f0 Ss']; [done|].
  case_bool_decide as Heq; [|done].
  rewrite filter_cons. case_decide; [congruence | done].
Qed.

Lemma spillPart_values first0 name (r : record Sc E) :
  name ≠ Name first0 → NoDup (sfName <$> r) → no_empty_slice r →
  spillPart enc first0 name r = separated encElem (valuesOf name r).
Proof using Hlist.
  intros Hne Hnd Hnoempty. unfold spillPart.
  rewrite filter_spillFields by done. by apply named_slices.
Qed.

Lemma firstPart_values first0 (others : list (field Sc E)) (r : record Sc E) :
  NoDup (Name <$> first0 :: others) →
  (Name <$> (sliceFields r).1) `sublist_of` (Name <$> first0 :: others) →
  NoDup (sfName <$> r) → no_empty_slice r →
  firstPart enc first0 r = separated encElem (valuesOf (Name first0) r).
Proof using Hlist.
  intros Hnd Hsub Hnames Hnoempty.
  rewrite <- named_slices by done.
  pose proof (spillFields_sublist first0 others r Hnd Hsub) as Hspill.
  rewrite fmap_cons in Hnd. apply NoDup_cons in Hnd as [Hnotin _].
  assert (filter (λ f, Name f = Name first0) (spillFields first0 r) = []) as Hnone.
  { apply filter_name_nil. intros Hin. apply Hnotin.
    by eapply elem_of_sublist. }
  unfold firstPart. unfold spillFields in Hnone.
  destruct (sliceFields r).1 as [|f0 Ss']; [done|].
  rewrite filter_cons. case_bool_decide as Heq.
  - rewrite decide_True by done. rewrite Hnone. simpl. by rewrite app_nil_r.
  - rewrite filter_cons, decide_False in Hnone by done.
    rewrite decide_False by done. by rewrite Hnone.
Qed.

(** The elements that later records add, each set after a comma, make
    one joined list with the elements that are there. *)
Lemma joined_separated (yss : list (list E)) : ∀ xs,
  xs ≠ [] →
  joined (encElem <$> xs) ++ concat (separated encElem <$> yss) =
    joined (encElem <$> (xs ++ concat yss)).
Proof.
  induction yss as [|ys yss IH]; intros xs Hxs.
  - simpl. by rewrite !app_nil_r.
  - rewrite fmap_cons. cbn [concat]. destruct ys as [|y ys].
    + simpl. by apply IH.
    + unfold separated at 1. rewrite !app_assoc.
      rewrite <- (app_assoc (joined _)), <- joined_app, <- fmap_app.
      * rewrite IH by (by destruct xs). by rewrite <- !app_assoc.
      * by destruct xs.
      * done.
Qed.

Lemma sliceFields_names_sublist (r : record Sc E) :
  (Name <$> (sliceFields r).1) `sublist_of` (sfName <$> r).
Proof.
  rewrite sliceFields_spec. cbn [fst].
  induction r as [|sf r IH]; [done|].
  rewrite filter_cons, fmap_cons. case_decide.
  - rewrite fmap_cons. by apply sublist_skip.
  - by apply sublist_cons.
Qed.

Lemma first_values (first : record Sc E) f :
  NoDup (sfName <$> first) → no_empty_slice first →
  f ∈ (sliceFields first).1 →
  ∃ xs, Value f = Slice (Some xs) ∧ xs = valuesOf (Name f) first ∧ xs ≠ [].
Proof.
  intros Hnd Hne. rewrite sliceFields_spec. cbn [fst].
  intros (sf & -> & [Hk Hin]%list_elem_of_filter)%list_elem_of_fmap.
  apply nonnil_isSliceField in Hk as [xs Hxs]. exists xs. cbn [Value Name toField].
  rewrite (valuesOf_elem sf first Hnd Hin), Hxs. repeat split.
  intros ->. unfold no_empty_slice in Hne. rewrite Forall_forall in Hne.
  by apply (Hne sf Hin).
Qed.

(** The member of a slice field of the first record, from what the
    run writes for it. *)
Lemma member_content (first : record Sc E) (rs : list (record Sc E)) f :
  NoDup (sfName <$> first) → no_empty_slice first →
  f ∈ (sliceFields first).1 →
  rendered enc (EString (JSONName f)) ++ B ":[" ++ spliced enc (Value f) ++
  concat ((λ r, separated encElem (valuesOf (Name f) r)) <$> rs) ++ B "]" =
    member enc encElem (first :: rs) f.
Proof using Hlist.
  intros Hnd Hne Hf.
  destruct (first_values first f Hnd Hne Hf) as (xs & Hv & Hxs & Hnil).
  unfold member. rewrite Hv, spliced_list. do 2 f_equal.
  rewrite app_assoc. f_equal.
  replace ((λ r, separated encElem (valuesOf (Name f) r)) <$> rs)
    with (separated encElem <$> (valuesOf (Name f) <$> rs))
    by (by rewrite <- list_fmap_compose).
  rewrite joined_separated by done. rewrite fmap_cons. cbn [concat].
  by rewrite <- Hxs.
Qed.

Section members.
Variables (first : record Sc E) (first0 : field Sc E).
Variables (others notSlice : list (field Sc E)) (rs : list (record Sc E)).
Hypothesis Hnd : NoDup (sfName <$> first).
Hypothesis Hs : sliceFields first = (first0 :: others, notSlice).
Hypothesis Hne1 : no_empty_slice first.
Hypothesis Hne : Forall no_empty_slice rs.
Hypothesis Hnds : Forall (λ r, NoDup (sfName <$> r)) rs.
Hypothesis Hsub :
  Forall (λ r, (Name <$> (sliceFields r).1) `sublist_of`
               (Name <$> first0 :: others)) rs.
Hypothesis Hnd' : NoDup (Name <$> first0 :: others).

Lemma first_member :
  docHead enc first0 notSlice ++ concat (firstPart enc first0 <$> rs) ++ B "]" =
    B "{" ++ scalars enc notSlice ++ member enc encElem (first :: rs) first0.
Proof using All.
  assert (first0 ∈ (sliceFields first).1) as Hin
    by (rewrite Hs; apply elem_of_cons; by left).
  rewrite <- (member_content first rs first0 Hnd Hne1 Hin).
  destruct (first_values first first0 Hnd Hne1 Hin) as (xs & Hv & _ & _).
  unfold docHead. rewrite Hv, opened_list, spliced_list.
  replace (firstPart enc first0 <$> rs)
    with ((λ r, separated encElem (valuesOf (Name first0) r)) <$> rs).
  - change (B ":[") with (B ":" ++ B "["). by rewrite <- !app_assoc.
  - apply Forall_fmap_ext_1.
    rewrite Forall_forall in Hne, Hnds, Hsub |- *. intros r Hr. symmetry.
    apply (firstPart_values first0 others); auto.
Qed.

Lemma store_member f :
  f ∈ others →
  storeHead enc f ++ concat (spillPart enc first0 (Name f) <$> rs) ++ B "]" =
    member enc encElem (first :: rs) f.
Proof using All.
  intros Hf.
  assert (f ∈ (sliceFields first).1) as Hin
    by (rewrite Hs; apply elem_of_cons; by right).
  assert (Name f ≠ Name first0) as Hname.
  { rewrite fmap_cons in Hnd'. apply NoDup_cons in Hnd' as [Hnotin _].
    intros Heq. apply Hnotin. rewrite <- Heq. by apply list_elem_of_fmap_2. }
  rewrite <- (member_content first rs f Hnd Hne1 Hin).
  unfold storeHead.
  replace (spillPart enc first0 (Name f) <$> rs)
    with ((λ r, separated encElem (valuesOf (Name f) r)) <$> rs).
  - by rewrite <- !app_assoc.
  - apply Forall_fmap_ext_1.
    rewrite Forall_forall in Hne, Hnds |- *. intros r Hr. symmetry.
    apply spillPart_values; auto.
Qed.
End members.

End list_encoder.
End merge_facts.

(** ** The concrete encoder and environment *)

Section sample_facts.
Import Merge Sample.

Lemma listWrites_concat (bs : list bytes) :
  concat (listWrites bs) = joined bs ++ B "]".
Proof.
  induction bs as [|x [|y bs] IH]; [done | by simpl; rewrite app_nil_r |].
  change (listWrites (x :: y :: bs)) with ((x ++ B ",") :: listWrites (y :: bs)).
  change (joined (x :: y :: bs)) with (x ++ B "," ++ joined (y :: bs)).
  cbn [concat]. rewrite IH. by rewrite <- !app_assoc.
Qed.

Lemma listWrites_nonempty (bs : list bytes) :
  listWrites bs ≠ [] ∧ Forall (λ p, p ≠ []) (listWrites bs).
Proof.
  induction bs as [|x [|y bs] [_ IH]].
  - split; [done|]. by repeat constructor.
  - split; [done|]. repeat constructor. by destruct x.
  - change (listWrites (x :: y :: bs)) with ((x ++ B ",") :: listWrites (y :: bs)).
    split; [done|]. constructor; [|done]. by destruct x.
Qed.

(** Without the line feed the sample encoder writes lists as
    [list_encoder] asks. *)
Lemma jsonEncoder_list : list_encoder (jsonEncoder false) digits.
Proof.
  intros xs. cbn [enc_writes jsonEncoder withNewline valueWrites].
  pose proof (listWrites_concat (digits <$> xs)) as Hcat.
  destruct (listWrites_nonempty (digits <$> xs)) as [Hne Hall].
  destruct (listWrites (digits <$> xs)) as [|p ps]; [done|].
  cbn [openList concat] in *. apply Forall_cons in Hall as [_ Hall]. split.
  - by constructor.
  - by rewrite <- app_assoc, Hcat.
Qed.

Lemma calm_sound backwards : env_sound (calm backwards).
Proof.
  intros files. destruct backwards; cbn [rangeOrder calm]; [|done].
  apply reverse_Permutation.
Qed.

(** Records of the sample schema against each other. *)
Lemma conforms_abc a b c a' b' c' :
  (is_Some b' → is_Some b) → (is_Some c' → is_Some c) →
  conforms (abc a b c) (abc a' b' c').
Proof.
  intros Hb Hc. unfold conforms, abc.
  repeat (constructor; [split; [reflexivity|]|]); unfold nonnil; cbn [sfValue sliceField scalarField].
  - intros [xs Hx]. discriminate Hx.
  - intros [xs [= ->]]. destruct Hb as [ys ->]; by eexists.
  - intros [xs [= ->]]. destruct Hc as [ys ->]; by eexists.
  - constructor.
Qed.

Lemma has_slice_abc a b c : is_Some b ∨ is_Some c → has_slice (abc a b c).
Proof.
  unfold has_slice, abc. intros [[xs ->]|[xs ->]].
  - apply Exists_cons_tl, Exists_cons_hd. by eexists.
  - apply Exists_cons_tl, Exists_cons_tl, Exists_cons_hd. by eexists.
Qed.

Lemma no_empty_slice_abc a b c :
  b ≠ Some [] → c ≠ Some [] → no_empty_slice (abc a b c).
Proof.
  intros Hb Hc. unfold no_empty_slice, abc.
  repeat constructor; cbn [sfValue sliceField scalarField]; congruence.
Qed.

Lemma scalar_variant_abc a a' b c : scalar_variant (abc a b c) (abc a' b c).
Proof.
  unfold scalar_variant, abc.
  repeat (constructor; [split; [reflexivity | split; [reflexivity|]]|]).
  - right. by eexists _, _.
  - by left.
  - by left.
  - constructor.
Qed.


(** C6, witness: the later records carry 8 and 9 for A in one source
    and 0 in the other. *)
Lemma scalars_come_from_first_record_witness :
  out (merged false false first1 (inl <$> later1)) =
    out (merged false false first1 (inl <$> later1')) ∧
  how (merged false false first1 (inl <$> later1)) =
    how (merged false false first1 (inl <$> later1')) ∧
  ∃ rest, out (merged false false first1 (inl <$> later1)) =
            B "{" ++ scalars (jsonEncoder false) [fieldA1] ++ rest.
Proof.
  apply (scalars_come_from_first_record (jsonEncoder false) (calm false)
           first1 fieldB1 [fieldC1] [fieldA1] (inl <$> later1) (inl <$> later1')).
  - reflexivity.
  - repeat (constructor; [apply scalar_variant_abc|]). constructor.
Defined.

(** C7, witness: a record with B non-nil and C nil, in a state where C
    has a store. *)
Lemma nil_slice_is_skipped_witness :
  (("C" : string) ∉ (Name <$> (sliceFields (abc 8 (Some [3]) None)).1)) ∧
  (("C" : string) ∉ (Name <$> (sliceFields (abc 8 (Some [3]) None)).2)) ∧
  st_files streaming_after !! "C" = st_files streaming !! "C" ∧
  ("C" = Name fieldB → st_w streaming_after = st_w streaming) ∧
  (st_log streaming_after = st_log streaming ∨
   ∃ other, other ≠ "C" ∧
            st_log streaming_after = st_log streaming ++ [LogNewField other]).
Proof.
  apply (nil_slice_is_skipped (jsonEncoder false) fieldB names1 streaming
           (abc 8 (Some [3]) None) "C" streaming_after).
  - repeat (constructor; [intros Hn; first [discriminate Hn | reflexivity]|]).
    constructor.
  - vm_compute. reflexivity.
Defined.

(** C8, witness: [Recv] fails after two records, with a record still
    unread. *)
Lemma read_failure_is_finalized_witness :
  let r := merged false false first1
             ((inl <$> later1) ++ inr (Err "deadline exceeded") :: [inl last2]) in
  how r = Finished ∧ unread r = [inl last2] ∧
  LogRecv (Err "deadline exceeded") ∈ log r ∧
  out r = out (merged false false first1 (inl <$> later1)) ∧
  ∃ names st0 st,
    start (jsonEncoder false) (calm false) [] fieldB1 [fieldC1] [fieldA1] =
      inl (names, st0) ∧
    streamed (jsonEncoder false) fieldB1 names st0 later1 = inl st ∧
    out r = st_w st ++ B "]" ++ spillover (calm false) (st_files st) ++ B "}" ++ nl.
Proof.
  apply (read_failure_is_finalized (jsonEncoder false) (calm false)
           first1 fieldB1 [fieldC1] [fieldA1] later1 (Err "deadline exceeded")
           [inl last2]).
  - reflexivity.
  - vm_compute. reflexivity.
  - discriminate.
Defined.

(** C9, witness: one store, visited by a [range] that runs backwards. *)
Lemma stores_are_copied_in_range_order_witness :
  ∃ l, l = rangeOrder (calm true) (st_files streaming) ∧
       l ≡ₚ map_to_list (st_files streaming) ∧
       (finalize (calm true) streaming).1 =
         st_w streaming ++ B "]" ++
         concat ((λ kv : string * bytes, B "," ++ kv.2 ++ B "]") <$> l) ++
         B "}" ++ nl.
Proof.
  apply (stores_are_copied_in_range_order (calm true) streaming).
  - apply calm_sound.
  - reflexivity.
Defined.


(** C7, counterexample: B is non-nil without elements in the second
    record.  The pass writes the comma and nothing after it, so the list
    of B gets an empty place; with B nil it does not. *)
Lemma empty_slice_leaves_comma :
  out (merged false false first1 [inl last4]) =
    B "{" ++ q "A" ++ B ":7," ++ q "B" ++ B ":[1,2,]," ++ q "C" ++ B ":[10,4]}" ++ nl ∧
  out (merged false false first1 [inl last4']) =
    B "{" ++ q "A" ++ B ":7," ++ q "B" ++ B ":[1,2]," ++ q "C" ++ B ":[10,4]}" ++ nl.
Proof. split; vm_compute; reflexivity. Qed.

(** C9, counterexample: the stores of C and D are opened in this order;
    a [range] that visits D first puts D before C in the document, and
    one that visits C first puts C before D. *)
Lemma stores_out_of_creation_order :
  env_sound (calm true) ∧ env_sound (calm false) ∧
  out (merged false true (abcd 7 (Some [1]) (Some [2]) (Some [3])) []) =
    B "{" ++ q "A" ++ B ":7," ++ q "B" ++ B ":[1]," ++ q "D" ++ B ":[3]," ++
    q "C" ++ B ":[2]}" ++ nl ∧
  out (merged false false (abcd 7 (Some [1]) (Some [2]) (Some [3])) []) =
    B "{" ++ q "A" ++ B ":7," ++ q "B" ++ B ":[1]," ++ q "C" ++ B ":[2]," ++
    q "D" ++ B ":[3]}" ++ nl.
Proof.
  split; [apply calm_sound|]. split; [apply calm_sound|].
  split; vm_compute; reflexivity.
Qed.

(** C2: with an encoder that ends every value with a line feed, which
    is what the trim writers for names and scalar values are there for,
    the closing bracket of an encoded list is not its last byte and is
    not dropped: the list of B is closed after the first record, again
    after the second, and once more after the loop. *)
Theorem closing_bracket_survives_line_feed :
  out (merged true false first1 [inl (abc 8 (Some [3]) None)]) =
    B "{" ++ q "A" ++ B ":7," ++
    q "B" ++ B ":[1,2]" ++ nl ++ B ",3]" ++ nl ++ B "]," ++
    q "C" ++ B ":[10]" ++ nl ++ B "]}" ++ nl.
Proof. vm_compute. reflexivity. Qed.

(** C4: a later record whose slice fields are all nil makes [S] empty,
    and [S[0]] panics, whatever the encoder. *)
Theorem merge_panics_without_slices :
  how (merged true false first1 [inl last2]) = Panicked ∧
  how (merged false false first1 [inl last2]) = Panicked.
Proof. split; vm_compute; reflexivity. Qed.
End sample_facts.

(** C3: with prefix [[] and suffix []], writing [[1,2,3]] and closing
    emits [1,2,3]; writing only []] and closing emits nothing; writing
    [[1] and then []] in two calls and closing emits [1]. *)
Theorem trimWriter_round_trip :
  filtered (B "[") (B "]") [B "[1,2,3]"] = B "1,2,3" ∧
  filtered (B "[") (B "]") [B "]"] = [] ∧
  filtered (B "[") (B "]") [B "[1"; B "]"] = B "1".
Proof. repeat split; reflexivity. Qed.

(** C5 (as the code has it): the prefix is counted, not compared.  As
    many bytes as the prefix is long are dropped from the front of what is
    written, whatever they are and however they are split over calls, and
    the rest is treated as by a writer without prefix. *)
Theorem prefix_is_counted (prefix suffix : bytes) (ps : list bytes) :
  filtered prefix suffix ps = filtered [] suffix (dropBytes (length prefix) ps).
Proof.
  unfold filtered.
  rewrite <- Close_ignores_prefix, (writeAll_counts_prefix ps), Close_ignores_prefix.
  done.
Qed.

(** C5, counterexample: a write that does not start with the prefix [[]
    loses its first byte all the same. *)
Lemma unmatched_prefix_is_dropped :
  filtered (B "[") (B "]") [B "1,2"] = B ",2".
Proof. reflexivity. Qed.


(** ** Dial options *)

Section dial_facts.
Import Dial.
Context {LogFn TracerT PerRPC TransportCreds : Type}.
Variable LogTracer : option LogFn → string → TracerT.
Variable NewBasicAuth NewInsecureBasicAuth : string → string → PerRPC.
Variable NewClientTLSFromFile : string → string → TransportCreds + error.

(** C10: without a CA file the options carry basic-auth credentials
    exactly when [AllowInsecurePasswordTransport] is set, they are then
    those of [NewInsecureBasicAuth], and the connection is insecure;
    with a CA file the options always carry the credentials of
    [NewBasicAuth], and the transport credentials loaded from the file
    are with them whenever no error is returned. *)
Theorem basic_auth_needs_consent_or_tls (conf : DialConfig LogFn TracerT) :
  let r := DialOpts LogTracer NewBasicAuth NewInsecureBasicAuth
             NewClientTLSFromFile conf in
  (CAFile conf = EmptyString →
     r.2 = None ∧
     (has_basic_auth r.1 ↔ AllowInsecurePasswordTransport conf = true) ∧
     (AllowInsecurePasswordTransport conf = true →
      WithPerRPCCredentials (NewInsecureBasicAuth (Username conf) (Password conf))
        ∈ r.1) ∧
     WithInsecure ∈ r.1) ∧
  (CAFile conf ≠ EmptyString →
     WithPerRPCCredentials (NewBasicAuth (Username conf) (Password conf)) ∈ r.1 ∧
     match NewClientTLSFromFile (CAFile conf) (ServerHostOverride conf) with
     | inl creds => r.2 = None ∧ WithTransportCredentials creds ∈ r.1
     | inr err => r.2 = Some err
     end).
Proof.
  intros r. subst r. unfold DialOpts, has_basic_auth.
  set (base := if bool_decide (PathPrefix conf ≠ EmptyString) || bool_decide (is_Some (Log conf))
               then _ else _).
  assert (∀ ba, WithPerRPCCredentials ba ∉ base) as Hbase.
  { intros ba. subst base.
    destruct (bool_decide (PathPrefix conf ≠ EmptyString) || bool_decide (is_Some (Log conf)));
      rewrite ?elem_of_app, ?elem_of_cons, ?elem_of_nil; intros H;
      repeat (destruct H as [H|H]; try discriminate H); done. }
  split; intros Hca.
  - rewrite bool_decide_eq_true_2 by done.
    destruct (AllowInsecurePasswordTransport conf); cbn [fst snd].
    + split; [done|]. split; [|split].
      * split; [done|]. intros _. eexists.
        apply elem_of_app. left. apply elem_of_app. right. apply list_elem_of_singleton.
        reflexivity.
      * intros _. apply elem_of_app. left. apply elem_of_app. right.
        by apply list_elem_of_singleton.
      * apply elem_of_app. right. by apply list_elem_of_singleton.
    + split; [done|]. split; [|split].
      * split; [|done]. intros [ba Hba]. apply elem_of_app in Hba as [Hba|Hba].
        -- by apply Hbase in Hba.
        -- apply list_elem_of_singleton in Hba. discriminate Hba.
      * done.
      * apply elem_of_app. right. by apply list_elem_of_singleton.
  - rewrite bool_decide_eq_false_2 by done.
    destruct (NewClientTLSFromFile (CAFile conf) (ServerHostOverride conf)) as [creds|err];
      cbn [fst snd].
    + split; [|split; [done|]].
      * apply elem_of_app. left. apply elem_of_app. right. by apply list_elem_of_singleton.
      * apply elem_of_app. right. by apply list_elem_of_singleton.
    + split; [|done]. apply elem_of_app. right. by apply list_elem_of_singleton.
Qed.
End dial_facts.

(** C10, witness: the configuration of [Connect] without a CA file, and
    one with a CA file and no consent. *)
Lemma basic_auth_needs_consent_or_tls_witness :
  (Dial.dial Dial.plain).2 = None ∧
  Dial.WithPerRPCCredentials false ∈ (Dial.dial Dial.plain).1 ∧
  Dial.WithPerRPCCredentials true ∈ (Dial.dial Dial.secured).1 ∧
  Dial.WithTransportCredentials tt ∈ (Dial.dial Dial.secured).1.
Proof.
  pose proof (basic_auth_needs_consent_or_tls (λ _ _, tt) (λ _ _, true) (λ _ _, false)
                (λ _ _, inl tt) Dial.plain) as [Hplain _].
  pose proof (basic_auth_needs_consent_or_tls (λ _ _, tt) (λ _ _, true) (λ _ _, false)
                (λ _ _, inl tt) Dial.secured) as [_ Hsecured].
  destruct (Hplain eq_refl) as (Herr & _ & Hba & _).
  destruct Hsecured as (Hba' & _ & Htls); [discriminate|].
  split; [exact Herr|]. split; [exact (Hba eq_refl)|].
  split; [exact Hba' | exact Htls].
Defined.

(** * Further properties of the code *)

(** ** The trim writer *)

Section trim_more.
Implicit Types (tw : trimWriter bytes) (p : bytes) (ps : list bytes).

(** X1: one [Write] that carries the prefix, a body and the suffix,
    followed by [Close], lets through the body and nothing else, for a
    prefix and a suffix of any length (also none) and any body. *)
Theorem single_write_is_trimmed (prefix suffix x : bytes) :
  filtered prefix suffix [prefix ++ x ++ suffix] = x.
Proof.
  unfold filtered. cbn [writeAll].
  change (Write (newTrimWriter ([] : bytes) prefix suffix) (prefix ++ x ++ suffix))
    with (trimWriter_Write (newTrimWriter ([] : bytes) prefix suffix) (prefix ++ x ++ suffix)).
  assert (∀ tw, w tw = [] → buf tw = [] → TrimWriter.suffix tw = suffix →
                (trimWriter_Close (Write_flush tw (length (prefix ++ x ++ suffix))
                                     (x ++ suffix)).1.1).1 = x) as Htail.
  { intros tw Hw Hb Hs. unfold Write_flush, Write_tail. rewrite Hb, Hs. simpl.
    rewrite length_app. case_bool_decide as Hle.
    - assert (x = []) as -> by (destruct x; [done | simpl in Hle; lia]).
      simpl. unfold trimWriter_Close. simpl.
      by rewrite bool_decide_eq_true_2.
    - rewrite Nat.add_0_r.
      replace (length x + length suffix - length suffix) with (length x) by lia.
      rewrite take_app_length, drop_app_length.
      unfold trimWriter_Close. simpl. rewrite Hs, Hw.
      by rewrite bool_decide_eq_true_2. }
  unfold trimWriter_Write. cbn [TrimWriter.prefix newTrimWriter].
  case_bool_decide as Hpre.
  - case_bool_decide as Hle.
    + rewrite !length_app in Hle.
      assert (x = []) as -> by (destruct x; [done | simpl in Hle; lia]).
      assert (suffix = []) as -> by (destruct suffix; [done | simpl in Hle; lia]).
      done.
    + rewrite drop_app_length.
      pose proof (Htail (set_prefix (newTrimWriter [] prefix suffix) [])
                    eq_refl eq_refl eq_refl) as Ht.
      by destruct (Write_flush _ _ _) as [[tw1 n1] [err|]].
  - subst prefix. rewrite app_nil_l.
    pose proof (Htail (newTrimWriter [] [] suffix) eq_refl eq_refl eq_refl) as Ht.
    rewrite app_nil_l in Ht.
    by destruct (Write_flush _ _ _) as [[tw1 n1] [err|]].
Qed.

(** A writer without suffix holds nothing back. *)
Lemma writeAll_without_suffix ps : ∀ tw,
  suffix tw = [] → buf tw = [] →
  ∃ tw', writeAll tw ps = (tw', None) ∧ suffix tw' = [] ∧ buf tw' = [] ∧
         w tw' = w tw ++ drop (length (prefix tw)) (concat ps).
Proof.
  induction ps as [|p ps IH]; intros tw Hs Hb.
  - exists tw. cbn [concat]. by rewrite drop_nil, app_nil_r.
  - cbn [writeAll concat]. change (Write tw p) with (trimWriter_Write tw p).
    assert (∀ tw1 q n, suffix tw1 = [] → buf tw1 = [] →
              ∃ tw2, Write_flush tw1 n q = (tw2, n, None) ∧ suffix tw2 = [] ∧
                     buf tw2 = [] ∧ prefix tw2 = prefix tw1 ∧ w tw2 = w tw1 ++ q) as Hfl.
    { intros tw1 q n Hs1 Hb1. unfold Write_flush, Write_tail. rewrite Hb1, Hs1. simpl.
      case_bool_decide as Hle.
      - assert (q = []) as -> by (destruct q; [done | simpl in Hle; lia]).
        eexists; split; [done|]. simpl. by rewrite app_nil_r.
      - rewrite Nat.sub_0_r, Nat.add_0_r, take_ge, drop_ge by lia.
        eexists; split; [done|]. done. }
    unfold trimWriter_Write. case_bool_decide as Hpre.
    + case_bool_decide as Hle.
      * destruct (IH (set_prefix tw (drop (length p) (prefix tw)))) as (tw' & -> & ? & ? & Hw);
          [done..|].
        exists tw'. repeat split; try done. rewrite Hw. cbn [w prefix set_prefix].
        rewrite length_drop, drop_app. f_equal.
        rewrite (drop_ge p) by lia. done.
      * destruct (Hfl (set_prefix tw []) (drop (length (prefix tw)) p) (length p))
          as (tw2 & -> & Hs2 & Hb2 & Hp2 & Hw2); [done..|].
        destruct (IH tw2 Hs2 Hb2) as (tw' & -> & ? & ? & Hw).
        exists tw'. repeat split; try done. rewrite Hw, Hw2, Hp2. cbn [w prefix set_prefix length].
        rewrite drop_0, drop_app, <- app_assoc. do 2 f_equal.
        replace (length (prefix tw) - length p) with 0 by lia. by rewrite drop_0.
    + destruct (Hfl tw p (length p)) as (tw2 & -> & Hs2 & Hb2 & Hp2 & Hw2); [done..|].
      destruct (IH tw2 Hs2 Hb2) as (tw' & -> & ? & ? & Hw).
      exists tw'. repeat split; try done.
      rewrite Hw, Hw2, Hp2, Hpre. cbn [length]. by rewrite !drop_0, <- app_assoc.
Qed.

(** X2: without a suffix the writer lets through the stream after as
    many bytes as the prefix is long, however the stream is split over
    calls (also into empty ones); without prefix and suffix it lets
    through everything. *)
Theorem no_suffix_keeps_the_rest (prefix : bytes) ps :
  filtered prefix [] ps = drop (length prefix) (concat ps) ∧
  filtered [] [] ps = concat ps.
Proof.
  assert (∀ pre, filtered pre [] ps = drop (length pre) (concat ps)) as Hgen.
  { intros pre. unfold filtered.
    destruct (writeAll_without_suffix ps (newTrimWriter [] pre [])) as (tw' & -> & Hs & Hb & Hw);
      [done..|].
    unfold trimWriter_Close. cbn [fst]. rewrite Hs, Hb, Hw.
    by rewrite bool_decide_eq_true_2. }
  split; [apply Hgen | by rewrite Hgen, drop_0].
Qed.

(** X3: with a suffix of one byte and calls that each carry at least a
    byte, what reaches the destination is the stream after the bytes
    counted for the prefix, without its last byte if that is the suffix
    and whole otherwise, however the stream is split over calls. *)
Theorem one_byte_suffix_is_cut_once (prefix suffix : bytes) ps :
  length suffix = 1 → Forall (λ p, p ≠ []) ps →
  let y := drop (length prefix) (concat ps) in
  (∀ x, y = x ++ suffix → filtered prefix suffix ps = x) ∧
  ((∀ x, y ≠ x ++ suffix) → filtered prefix suffix ps = y).
Proof.
  intros Hs Hps y. split.
  - intros x Hx. by apply filtered_strip.
  - intros Hnot. by apply filtered_keep.
Qed.

(** X4: over a destination that takes everything, [Write] reports all
    of [p] as written and no error in every state of the writer, also
    when it has dropped bytes of [p] for the prefix or holds them back;
    and it never changes the suffix. *)
Theorem write_reports_all_bytes tw p :
  (trimWriter_Write tw p).1.2 = length p ∧ (trimWriter_Write tw p).2 = None ∧
  suffix (trimWriter_Write tw p).1.1 = suffix tw.
Proof.
  assert (∀ tw1 q n, (Write_flush tw1 n q).1.2 = n ∧ (Write_flush tw1 n q).2 = None ∧
                     suffix (Write_flush tw1 n q).1.1 = suffix tw1) as Hfl.
  { intros tw1 q n. unfold Write_flush, Write_tail.
    destruct (bool_decide (0 < length (buf tw1)) &&
              bool_decide (length (suffix tw1) ≤ length (buf tw1)));
      [change (Write (w tw1) (buf tw1))
         with (w tw1 ++ buf tw1, length (buf tw1), @None error); cbn beta iota|];
      cbn [suffix set_buf set_w]; case_bool_decide; done. }
  unfold trimWriter_Write. case_bool_decide; [case_bool_decide|]; [done | | apply Hfl].
  exact (Hfl (set_prefix tw []) _ _).
Qed.

Lemma writeAll_app {W} `{Writer W} (ps qs : list bytes) : ∀ (w0 : W),
  writeAll w0 (ps ++ qs) =
    match writeAll w0 ps with
    | (w1, Some err) => (w1, Some err)
    | (w1, None) => writeAll w1 qs
    end.
Proof.
  induction ps as [|p ps IH]; intros w0; [done|].
  cbn [app writeAll]. destruct (Write w0 p) as [[w1 n] [err|]]; [done|]. apply IH.
Qed.

(** X5: a [Write] of no bytes is not without effect.  With a suffix of
    one byte, an empty call after calls that carried bytes makes the
    writer let go of the byte it holds back, so that a stream that ends
    with the suffix keeps it. *)
Theorem empty_write_releases_suffix (prefix suffix : bytes) ps :
  length suffix = 1 → Forall (λ p, p ≠ []) ps →
  drop (length prefix) (concat ps) ≠ [] →
  filtered prefix suffix (ps ++ [[]]) = drop (length prefix) (concat ps).
Proof.
  intros Hs Hps Hy. unfold filtered. rewrite writeAll_app.
  destruct (writeAll_holds ps (newTrimWriter [] prefix suffix) [] [])
    as (tw' & -> & (Hw & Hb & Hp & _) & Hs'); [|done|].
  { repeat split; simpl; done. }
  cbn [newTrimWriter TrimWriter.prefix TrimWriter.suffix] in *.
  rewrite !app_nil_l in *. set (y := drop (length prefix) (concat ps)) in *.
  assert (length (buf tw') = 1) as Hb1.
  { rewrite Hb. destruct y; [done|]. simpl. lia. }
  assert (TrimWriter.prefix tw' = []) as Hp'.
  { destruct (decide (TrimWriter.prefix tw' = [])) as [|Hne]; [done|]. by destruct Hy, Hp. }
  cbn [writeAll]. change (Write tw' []) with (trimWriter_Write tw' []).
  unfold trimWriter_Write, Write_flush, Write_tail.
  rewrite Hp', Hb1, Hs', Hs. simpl.
  change (Write (w tw') (buf tw')) with (w tw' ++ buf tw', length (buf tw'), @None error).
  simpl. unfold trimWriter_Close. simpl. rewrite Hs'.
  rewrite bool_decide_eq_false_2; [by rewrite app_nil_r|].
  intros Heq. by rewrite Heq in Hs.
Qed.

(** X6: with a suffix longer than one byte the writer can put bytes
    out of order.  A first call of one byte is held back; of a second
    call that is longer than the suffix, all but the last bytes (one
    fewer than the suffix has) is written at once, before the byte of the
    first call; and in [Close] that byte and the end of the second call
    are dropped if together they read as the suffix, and written if they
    do not. *)
Theorem long_suffix_reorders (suffix : bytes) (a : byte) p :
  2 ≤ length suffix → length suffix < length p →
  let i := length p - length suffix + 1 in
  filtered [] suffix [[a]; p] =
    take i p ++ (if bool_decide (suffix = a :: drop i p) then [] else a :: drop i p).
Proof.
  intros Hs Hp i. subst i.
  assert (trimWriter_Write (newTrimWriter ([] : bytes) [] suffix) [a] =
            (mkTrimWriter [] [] suffix [a], 1, None)) as H1.
  { unfold trimWriter_Write, Write_flush, Write_tail, set_buf. simpl.
    repeat case_bool_decide; simpl in *; try done; lia. }
  assert (trimWriter_Write (mkTrimWriter ([] : bytes) [] suffix [a]) p =
            (mkTrimWriter (take (length p - length suffix + 1) p) [] suffix
               ([a] ++ drop (length p - length suffix + 1) p), length p, None)) as H2.
  { unfold trimWriter_Write. cbn [TrimWriter.prefix].
    rewrite (bool_decide_eq_false_2 (([] : bytes) ≠ [])) by (by intros H).
    unfold Write_flush. cbn [TrimWriter.suffix TrimWriter.buf length].
    rewrite (bool_decide_eq_false_2 (length suffix ≤ 1)) by lia.
    rewrite andb_false_r. unfold Write_tail.
    cbn [TrimWriter.suffix TrimWriter.buf TrimWriter.w set_buf length].
    rewrite (bool_decide_eq_false_2 (length p ≤ length suffix)) by lia.
    reflexivity. }
  unfold filtered. cbn [writeAll].
  change (Write (newTrimWriter ([] : bytes) [] suffix) [a])
    with (trimWriter_Write (newTrimWriter ([] : bytes) [] suffix) [a]).
  rewrite H1.
  change (Write (mkTrimWriter ([] : bytes) [] suffix [a]) p)
    with (trimWriter_Write (mkTrimWriter ([] : bytes) [] suffix [a]) p).
  rewrite H2. unfold trimWriter_Close.
  cbn [fst TrimWriter.prefix TrimWriter.suffix TrimWriter.buf TrimWriter.w].
  change ([a] ++ ?l) with (a :: l).
  case_bool_decide; [by rewrite app_nil_r | done].
Qed.
End trim_more.

(** ** The field classifier *)

Section classify_more.
Import Merge.
Context {Sc E : Type}.
Implicit Types (part : record Sc E) (sf : structField Sc E).

(** X7: [sliceFields] gives, in declared order, the fields whose value
    is a non-nil slice and the fields whose value is not a slice, each
    with its Go name, its external name and its value; so every field
    of the first list holds a non-nil slice, every field of the second a
    value of another kind, and a field whose value is a nil slice is in
    neither. *)
Theorem sliceFields_partitions part :
  sliceFields part =
    (toField <$> filter (λ sf, isSliceField sf) part,
     toField <$> filter (λ sf, isScalarField sf) part) ∧
  (∀ f, f ∈ (sliceFields part).1 → ∃ xs, Value f = Slice (Some xs)) ∧
  (∀ f, f ∈ (sliceFields part).2 → ∃ x, Value f = Scalar x).
Proof.
  rewrite sliceFields_spec. cbn [fst snd]. split; [done|].
  split; intros f (sf & -> & [Hk _]%list_elem_of_filter)%list_elem_of_fmap;
    cbn [Value toField]; unfold isSliceField, isScalarField in Hk;
    destruct (sfValue sf) as [x|[xs|]]; try done; by eexists.
Qed.

Lemma IndexByte_app (t : string) (c : ascii) (rest : string) :
  IndexByte t c = None →
  IndexByte (t +:+ String c rest) c = Some (String.length t).
Proof.
  induction t as [|a t IH]; simpl.
  - intros _. by rewrite bool_decide_eq_true_2.
  - case_bool_decide; [done|].
    destruct (IndexByte t c) eqn:Ht; [done|]. intros _. by rewrite IH.
Qed.

Lemma substring_app_length (t rest : string) :
  String.substring 0 (String.length t) (t +:+ rest) = t.
Proof.
  induction t as [|a t IH]; simpl.
  - by destruct rest.
  - by rewrite IH.
Qed.

Lemma IndexByte_substring (s : string) (c : ascii) : ∀ i,
  IndexByte s c = Some i →
  IndexByte (String.substring 0 i s) c = None ∧
  String.length (String.substring 0 i s) = i ∧
  s = String.substring 0 i s +:+ String.substring i (String.length s - i) s ∧
  ∃ rest, String.substring i (String.length s - i) s = String c rest.
Proof.
  induction s as [|a s IH]; intros i; simpl; [done|].
  case_bool_decide as Hac.
  - intros [= <-]. simpl. subst a.
    assert (∀ t, String.substring 0 (String.length t) t = t) as Hall.
    { induction t as [|b t IHt]; simpl; [done | by rewrite IHt]. }
    rewrite Hall. repeat split. by eexists.
  - destruct (IndexByte s c) as [j|] eqn:Hj; [|done]. intros [= <-]. simpl.
    destruct (IH j eq_refl) as (Hnone & Hlen & Hcat & rest & Hrest).
    rewrite bool_decide_eq_false_2, Hnone, Hlen by done. repeat split.
    + change (String a s =
              String a (String.substring 0 j s +:+
                        String.substring j (String.length s - j) s)).
      by rewrite <- Hcat.
    + by exists rest.
Qed.

(** X8: the external name of a field is its json tag up to the first
    comma, whatever options follow the comma, and its Go name when the
    tag is empty or begins with a comma. *)
Theorem jsonName_reads_the_tag (name t opts : string) (v : gvalue Sc E) :
  IndexByte t ","%char = None →
  let chosen := if bool_decide (t = EmptyString) then name else t in
  jsonName (mkStructField name t v) = chosen ∧
  jsonName (mkStructField name (t +:+ String ","%char opts) v) = chosen.
Proof.
  intros Ht chosen. unfold jsonName. cbn [sfTag sfName].
  rewrite Ht, (IndexByte_app t _ opts Ht), substring_app_length. done.
Qed.

(** X9: an external name chosen from the tag is not empty and has no
    comma; in every other case the external name is the Go name. *)
Theorem jsonName_has_no_comma sf :
  jsonName sf = sfName sf ∨
  (jsonName sf ≠ EmptyString ∧ IndexByte (jsonName sf) ","%char = None).
Proof.
  unfold jsonName.
  destruct (IndexByte (sfTag sf) ","%char) as [i|] eqn:Hi.
  - destruct (IndexByte_substring _ _ _ Hi) as (Hnone & _).
    case_bool_decide; [by left | by right].
  - case_bool_decide; [by left | by right].
Qed.
End classify_more.

(** ** The orchestrator *)

Section merge_more.
Import Merge.
Context {Sc E : Type}.
Variable enc : encoder Sc E.
Variable e : env.
Implicit Types (part : record Sc E) (st : state Sc E bytes) (f : field Sc E).
Implicit Types (files : gmap string bytes) (names : gmap string bool).
Implicit Types (recv : list (response Sc E)) (lg : list (logEntry Sc E)).

Lemma writeAll_buffer (ps : list bytes) : ∀ (w : bytes),
  writeAll w ps = (w ++ concat ps, None).
Proof.
  induction ps as [|p ps IH]; intros w; cbn [writeAll concat].
  - by rewrite app_nil_r.
  - change (Write w p) with (w ++ p, length p, @None error). cbn beta iota.
    by rewrite IH, <- app_assoc.
Qed.

Lemma Encode_buffer (w : bytes) v :
  Encode enc w v = (w ++ concat (enc_writes enc v), enc_err enc v).
Proof. unfold Encode. by rewrite writeAll_buffer. Qed.

(** *** The branch for records without slices *)

Lemma recvLog_inl part recv : recvLog (inl part :: recv) = recvLog recv.
Proof. done. Qed.

Lemma afterRecords_inl part recv : afterRecords (inl part :: recv) = afterRecords recv.
Proof. done. Qed.

Lemma passthrough_run recv : ∀ (w : bytes) part lg,
  (∀ r, r ∈ part :: readable recv → enc_err enc (EPart r) = None) →
  passthrough enc w part recv lg =
    mkResult (w ++ concat (encoded enc <$> part :: readable recv))
             (lg ++ recvLog recv) (tail (afterRecords recv)) Finished.
Proof.
  induction recv as [|[r|err] recv IH]; intros w part lg Hok; cbn [passthrough];
    rewrite Encode_buffer, (Hok part) by (apply elem_of_cons; by left).
  - cbn. by rewrite !app_nil_r.
  - rewrite IH.
    + rewrite recvLog_inl, afterRecords_inl. cbn [readable fmap list_fmap concat].
      unfold encoded at 2. by rewrite <- app_assoc.
    + intros r' Hr'. apply Hok. cbn [readable]. apply elem_of_cons. by right.
  - unfold recvLog. cbn. rewrite !app_nil_r.
    by case_bool_decide; rewrite ?app_nil_r.
Qed.

(** X10: when the first record has no non-nil slice field, nothing is
    merged: the first record and every record read before the first
    error are encoded one after the other, each as a whole (also those
    that do have slices), the answer that ends the reading is consumed
    and logged unless it is the end of the stream, and nothing else is
    written or logged.  The hypothesis on the encoder is that it reports
    no error for these records. *)
Theorem records_without_slices_pass_through (w : bytes) first recv :
  (sliceFields first).1 = [] →
  (∀ r, r ∈ first :: readable recv → enc_err enc (EPart r) = None) →
  mergeStreams enc e w first recv =
    mkResult (w ++ concat (encoded enc <$> first :: readable recv))
             (recvLog recv) (tail (afterRecords recv)) Finished.
Proof.
  intros Hs Hok. unfold mergeStreams.
  destruct (sliceFields first) as [slice notSlice]. cbn [fst] in Hs. subst slice.
  by rewrite passthrough_run.
Qed.

Lemma passthrough_abort bad err (tl : list (response Sc E)) (rs : list (record Sc E)) :
  ∀ (w : bytes) part pre lg,
  part :: rs = pre ++ [bad] →
  Forall (λ r, enc_err enc (EPart r) = None) pre →
  enc_err enc (EPart bad) = Some err →
  passthrough enc w part ((inl <$> rs) ++ tl) lg =
    mkResult (w ++ concat (encoded enc <$> pre ++ [bad]))
             (lg ++ [LogEncode bad err]) tl Aborted.
Proof.
  induction rs as [|r rs IH]; intros w part pre lg Hsplit Hpre Hbad.
  - destruct pre as [|p pre].
    + injection Hsplit as ->.
      destruct tl as [|a tl]; cbn [passthrough fmap list_fmap app]; rewrite Encode_buffer, Hbad;
        cbn; by rewrite app_nil_r.
    + injection Hsplit as _ Hnil. by destruct pre.
  - destruct pre as [|p pre]; [done|].
    injection Hsplit as <- Hsplit. apply Forall_cons in Hpre as [Hp Hpre].
    cbn [passthrough fmap list_fmap app]. rewrite Encode_buffer, Hp.
    fold (fmap (M := list) (@inl (record Sc E) error) rs).
    rewrite (IH _ _ pre lg Hsplit Hpre Hbad).
    change ((part :: pre) ++ [bad]) with (part :: (pre ++ [bad])).
    cbn [concat]. unfold encoded at 2. by rewrite <- app_assoc.
Qed.

(** X11: in that branch an error of the encoder ends the run at once:
    the records before the failing one have been written, what the
    encoder wrote of the failing one is there too, the record and the
    error are logged, and the source is not asked again. *)
Theorem encode_error_ends_pass_through (w : bytes) first (rs pre : list (record Sc E))
    bad err (tl : list (response Sc E)) :
  (sliceFields first).1 = [] →
  first :: rs = pre ++ [bad] →
  Forall (λ r, enc_err enc (EPart r) = None) pre →
  enc_err enc (EPart bad) = Some err →
  mergeStreams enc e w first ((inl <$> rs) ++ tl) =
    mkResult (w ++ concat (encoded enc <$> pre ++ [bad])) [LogEncode bad err] tl Aborted.
Proof.
  intros Hs Hsplit Hpre Hbad. unfold mergeStreams.
  destruct (sliceFields first) as [slice notSlice]. cbn [fst] in Hs. subst slice.
  by rewrite (passthrough_abort bad err tl rs w first pre [] Hsplit Hpre Hbad).
Qed.

(** *** The stores *)

Lemma openStores_inr (pre : list (field Sc E)) f (post : list (field Sc E)) :
  ∀ files names,
  Forall (λ g, tempFile_ok e (Name g) = true) pre →
  tempFile_ok e (Name f) = false →
  openStores enc e (pre ++ f :: post) files names = inr (Name f).
Proof.
  induction pre as [|g pre IH]; intros files names Hpre Hf; cbn [app openStores].
  - by rewrite Hf.
  - apply Forall_cons in Hpre as [Hg Hpre]. rewrite Hg. by apply IH.
Qed.

(** X12: when the temporary file for a further slice field of the first
    record cannot be created, the run ends before any answer is read:
    the output holds the opening brace, the scalar members and the open
    list of the first slice field, and is left like that; the log has the
    slice fields and the field whose store failed. *)
Theorem tempfile_failure_ends_run (w : bytes) first first0
    (pre : list (field Sc E)) f (post notSlice : list (field Sc E)) recv :
  sliceFields first = (first0 :: pre ++ f :: post, notSlice) →
  Forall (λ g, tempFile_ok e (Name g) = true) pre →
  tempFile_ok e (Name f) = false →
  mergeStreams enc e w first recv =
    mkResult (w ++ docHead enc first0 notSlice)
             [LogSlices (first0 :: pre ++ f :: post); LogTempFile (Name f)]
             recv Aborted.
Proof.
  intros Hs Hpre Hf.
  assert (start enc e w first0 (pre ++ f :: post) notSlice =
            inr (w ++ docHead enc first0 notSlice,
                 [LogSlices (first0 :: pre ++ f :: post); LogTempFile (Name f)])) as Hstart.
  { unfold start.
    pose proof (writeScalar_foldl enc notSlice (put w (B "{")) ∅) as Hsc.
    destruct (foldl (writeScalar enc) _ notSlice) as [w1 names1]. simpl in Hsc. subst w1.
    rewrite (openStores_inr pre f post _ _ Hpre Hf).
    rewrite !put_buffer, !encodeTrimmed_buffer. unfold docHead, rendered.
    by rewrite <- !app_assoc. }
  by rewrite (mergeStreams_abort enc e w first first0 _ notSlice _ _ recv Hs Hstart).
Qed.

Lemma copyStore_foldl_log (l : list (string * bytes)) : ∀ (w : bytes) lg,
  (foldl (copyStore e) (w, lg) l).2 =
    lg ++ ((λ kv : string * bytes, LogSeek kv.1)
           <$> filter (λ kv : string * bytes, seek_ok e kv.1 = false) l).
Proof.
  induction l as [|kv l IH]; intros w lg.
  - simpl. by rewrite app_nil_r.
  - cbn [foldl]. rewrite filter_cons. unfold copyStore at 2.
    destruct (seek_ok e kv.1) eqn:Hseek; rewrite IH.
    + by rewrite decide_False.
    + rewrite decide_True by done. by rewrite fmap_cons, <- app_assoc.
Qed.

Lemma copied_concat (l : list (string * bytes)) :
  concat ((λ kv : string * bytes,
             if seek_ok e kv.1 then B "," ++ kv.2 ++ B "]" else []) <$> l) =
  concat ((λ kv : string * bytes, B "," ++ kv.2 ++ B "]")
          <$> filter (λ kv : string * bytes, seek_ok e kv.1 = true) l).
Proof.
  induction l as [|kv l IH]; [done|].
  rewrite fmap_cons, filter_cons. cbn [concat]. rewrite IH.
  destruct (seek_ok e kv.1) eqn:Hseek.
  - by rewrite decide_True.
  - by rewrite decide_False.
Qed.

Lemma finalize_out_copied st :
  (finalize e st).1 =
    st_w st ++ B "]" ++
    concat ((λ kv : string * bytes, B "," ++ kv.2 ++ B "]") <$> copied e (st_files st)) ++
    B "}" ++ nl.
Proof. rewrite finalize_out. unfold spillover, copied. by rewrite copied_concat. Qed.

Lemma finalize_log_eq st : (finalize e st).2 = st_log st ++ seekLog e (st_files st).
Proof.
  unfold finalize, seekLog.
  pose proof (copyStore_foldl_log (rangeOrder e (st_files st))
                (put (st_w st) (B "]")) (st_log st)) as Hc.
  by destruct (foldl (copyStore e) _ _) as [w lg].
Qed.

(** X13: after the loop the streamed list is closed, then every store
    on which [Seek] succeeds is copied after a comma and closed with a
    bracket, in the order of the map iteration; a store on which [Seek]
    fails is left out of the document and logged, and the copying goes
    on with the next one; the closing brace and a line feed end the
    document in every case. *)
Theorem seek_failure_skips_the_store st :
  (finalize e st).1 =
    st_w st ++ B "]" ++
    concat ((λ kv : string * bytes, B "," ++ kv.2 ++ B "]") <$> copied e (st_files st)) ++
    B "}" ++ nl ∧
  (finalize e st).2 = st_log st ++ seekLog e (st_files st).
Proof.
  split; [apply finalize_out_copied | apply finalize_log_eq].
Qed.

(** *** The output is appended *)

Lemma passthrough_shift (w0 : bytes) recv : ∀ (w : bytes) part lg,
  passthrough enc (w0 ++ w) part recv lg =
    mkResult (w0 ++ out (passthrough enc w part recv lg))
             (log (passthrough enc w part recv lg))
             (unread (passthrough enc w part recv lg))
             (how (passthrough enc w part recv lg)).
Proof.
  induction recv as [|[r|err] recv IH]; intros w part lg; cbn [passthrough];
    rewrite !Encode_buffer, <- !app_assoc;
    destruct (enc_err enc (EPart part)); first [done | apply IH].
Qed.

Lemma writeScalar_shift (w0 w : bytes) names f :
  writeScalar enc (w0 ++ w, names) f =
    (w0 ++ (writeScalar enc (w, names) f).1, (writeScalar enc (w, names) f).2).
Proof.
  unfold writeScalar. rewrite !put_buffer, !encodeTrimmed_buffer. cbn [fst snd].
  by rewrite <- !app_assoc.
Qed.

Lemma writeScalar_foldl_shift (w0 : bytes) (fs : list (field Sc E)) : ∀ (w : bytes) names,
  foldl (writeScalar enc) (w0 ++ w, names) fs =
    (w0 ++ (foldl (writeScalar enc) (w, names) fs).1,
     (foldl (writeScalar enc) (w, names) fs).2).
Proof.
  induction fs as [|f fs IH]; intros w names; [done|].
  cbn [foldl]. rewrite writeScalar_shift.
  destruct (writeScalar enc (w, names) f) as [w1 names1]. apply IH.
Qed.

Lemma start_shift (w0 w : bytes) first0 (others notSlice : list (field Sc E)) :
  start enc e (w0 ++ w) first0 others notSlice =
    match start enc e w first0 others notSlice with
    | inl (names, st) => inl (names, shiftState w0 st)
    | inr (w', lg) => inr (w0 ++ w', lg)
    end.
Proof.
  unfold start. rewrite !put_buffer, <- app_assoc, writeScalar_foldl_shift.
  destruct (foldl (writeScalar enc) (w ++ B "{", ∅) notSlice) as [w1 names1].
  cbn [fst snd]. repeat first [rewrite put_buffer | rewrite encodeTrimmed_buffer].
  destruct (openStores enc e others ∅ _) as [[files names2]|name];
    unfold shiftState; cbn [st_w st_files st_log]; by rewrite <- !app_assoc.
Qed.

Lemma step_shift (w0 : bytes) first0 names st part :
  step enc first0 names (shiftState w0 st) part =
    match step enc first0 names st part with
    | inl st' => inl (shiftState w0 st')
    | inr (w', lg) => inr (w0 ++ w', lg)
    end.
Proof.
  unfold step, shiftState. cbn [st_w st_files st_log].
  destruct (sliceFields part) as [[|f0 Ss'] nS]; [done|].
  case_bool_decide; rewrite ?put_buffer, ?encodeTrimmed_buffer.
  - destruct (appendStores enc Ss' (st_files st)); cbn [st_w st_files st_log];
      by rewrite <- !app_assoc.
  - by destruct (appendStores enc (f0 :: Ss') (st_files st)).
Qed.

Lemma finalize_shift (w0 : bytes) st :
  finalize e (shiftState w0 st) = (w0 ++ (finalize e st).1, (finalize e st).2).
Proof.
  rewrite (surjective_pairing (finalize e (shiftState w0 st))).
  rewrite !finalize_out, !finalize_log_eq. cbn [shiftState st_w st_files st_log].
  by rewrite <- !app_assoc.
Qed.

Lemma loop_shift (w0 : bytes) first0 names recv : ∀ st,
  loop enc e first0 names (shiftState w0 st) recv =
    mkResult (w0 ++ out (loop enc e first0 names st recv))
             (log (loop enc e first0 names st recv))
             (unread (loop enc e first0 names st recv))
             (how (loop enc e first0 names st recv)).
Proof.
  induction recv as [|[r|err] recv IH]; intros st; cbn [loop].
  - rewrite finalize_shift. by destruct (finalize e st).
  - rewrite step_shift.
    destruct (step enc first0 names st r) as [st1|[w1 lg1]]; [apply IH | done].
  - set (lg0 := if bool_decide (err ≠ EOF) then _ else _).
    change (mkState (st_w (shiftState w0 st)) (st_files (shiftState w0 st)) lg0)
      with (shiftState w0 (mkState (st_w st) (st_files st) lg0)).
    rewrite finalize_shift. by destruct (finalize e _).
Qed.

(** X14: the run only appends to its output and never looks at what
    the output holds: into an output that already holds [w] it gives [w]
    followed by what it gives into an empty output, with the same log,
    the same answers left unread and the same kind of end. *)
Theorem output_is_appended (w : bytes) first recv :
  let r := mergeStreams enc e ([] : bytes) first recv in
  mergeStreams enc e w first recv = mkResult (w ++ out r) (log r) (unread r) (how r).
Proof.
  intros r. subst r. unfold mergeStreams.
  destruct (sliceFields first) as [[|first0 others] notSlice].
  - rewrite <- (app_nil_r w) at 1. apply passthrough_shift.
  - rewrite <- (app_nil_r w) at 1. rewrite start_shift.
    destruct (start enc e [] first0 others notSlice) as [[names st]|[w' lg]]; [|done].
    apply loop_shift.
Qed.

(** *** The check of later records against the first *)

Lemma offender_foldl_None names want (fs : list (field Sc E)) : ∀ acc,
  foldl (offender names want) acc fs = None ↔
  acc = None ∧ Forall (λ f, names !! Name f = Some want) fs.
Proof.
  induction fs as [|f fs IH]; intros acc; cbn [foldl].
  - split; [by intros -> | by intros [-> _]].
  - rewrite IH, Forall_cons. unfold offender.
    destruct (names !! Name f) as [b|] eqn:Hb.
    + case_bool_decide as Hw.
      * subst b. split; [by intros [-> ?] | by intros [-> [_ ?]]].
      * split; [by intros [[=] _] | intros [_ [[= ->] _]]; done].
    + split; [by intros [[=] _] | by intros [_ [[=] _]]].
Qed.

(** X15: a later record passes the check against the names of the first
    record exactly when every non-nil slice field of it is recorded as a
    slice and every other field that is not a nil slice is recorded as
    not a slice; a nil slice field is not checked at all. *)
Theorem schema_check_passes_iff names (Ss nS : list (field Sc E)) :
  schemaErr names Ss nS = None ↔
  Forall (λ f, names !! Name f = Some true) Ss ∧
  Forall (λ f, names !! Name f = Some false) nS.
Proof.
  unfold schemaErr. rewrite !offender_foldl_None. split.
  - by intros [[_ ?] ?].
  - by intros [? ?].
Qed.

Lemma writeScalar_foldl_names (fs : list (field Sc E)) : ∀ (w : bytes) names n,
  (foldl (writeScalar enc) (w, names) fs).2 !! n =
    if decide (n ∈ Name <$> fs) then Some false else names !! n.
Proof.
  induction fs as [|f fs IH]; intros w names n.
  - by rewrite decide_False by apply not_elem_of_nil.
  - cbn [foldl]. unfold writeScalar at 2. rewrite IH, fmap_cons.
    destruct (decide (n ∈ Name <$> fs)) as [Hin|Hnotin].
    + rewrite decide_True; [done|]. apply elem_of_cons. by right.
    + destruct (decide (n = Name f)) as [->|Hne].
      * rewrite lookup_insert_eq, decide_True; [done|]. apply elem_of_cons. by left.
      * rewrite lookup_insert_ne by done. rewrite decide_False; [done|].
        intros [?|?]%elem_of_cons; done.
Qed.

Lemma openStores_names (fs : list (field Sc E)) : ∀ files names files' names' n,
  openStores enc e fs files names = inl (files', names') →
  names' !! n = if decide (n ∈ Name <$> fs) then Some true else names !! n.
Proof.
  induction fs as [|f fs IH]; intros files names files' names' n Hrun; simpl in Hrun.
  - injection Hrun as <- <-. by rewrite decide_False by apply not_elem_of_nil.
  - destruct (tempFile_ok e (Name f)); [|done].
    rewrite (IH _ _ _ _ n Hrun), fmap_cons.
    destruct (decide (n ∈ Name <$> fs)) as [Hin|Hnotin].
    + rewrite decide_True; [done|]. apply elem_of_cons. by right.
    + destruct (decide (n = Name f)) as [->|Hne].
      * rewrite lookup_insert_eq, decide_True; [done|]. apply elem_of_cons. by left.
      * rewrite lookup_insert_ne by done. rewrite decide_False; [done|].
        intros [?|?]%elem_of_cons; done.
Qed.

(** X16: the names a later record is checked against are those of the
    first record: its non-nil slice fields are recorded as slices, its
    fields of other kinds as not slices (a name that is both counts as a
    slice), and a slice field that is nil in the first record is not
    recorded at all, so that it is a new field when it comes later. *)
Theorem schema_is_taken_from_first_record (w : bytes) first0
    (others notSlice : list (field Sc E)) names st :
  start enc e w first0 others notSlice = inl (names, st) →
  ∀ n, names !! n =
       if decide (n ∈ Name <$> first0 :: others) then Some true
       else if decide (n ∈ Name <$> notSlice) then Some false else None.
Proof.
  intros Hstart n. revert Hstart. unfold start.
  pose proof (writeScalar_foldl_names notSlice (put w (B "{")) ∅ n) as Hsc.
  destruct (foldl (writeScalar enc) _ notSlice) as [w1 names1]. cbn [snd] in Hsc.
  destruct (openStores enc e others ∅ _) as [[files names2]|name] eqn:Hopen; [|done].
  intros [= <- <-]. rewrite (openStores_names _ _ _ _ _ n Hopen), fmap_cons.
  destruct (decide (n ∈ Name <$> others)) as [Hin|Hnotin].
  - rewrite decide_True; [done|]. apply elem_of_cons. by right.
  - destruct (decide (n = Name first0)) as [->|Hne].
    + rewrite lookup_insert_eq, decide_True; [done|]. apply elem_of_cons. by left.
    + rewrite lookup_insert_ne by done. rewrite decide_False.
      * rewrite Hsc. by rewrite lookup_empty.
      * intros [?|?]%elem_of_cons; done.
Qed.

(** *** What the output depends on *)

Lemma step_same_slices first0 names names' st st2 (r r' : record Sc E) :
  (sliceFields r).1 = (sliceFields r').1 →
  st_w st = st_w st2 → st_files st = st_files st2 →
  match step enc first0 names st r, step enc first0 names' st2 r' with
  | inl a, inl b => st_w a = st_w b ∧ st_files a = st_files b
  | inr (w1, _), inr (w2, _) => w1 = w2
  | _, _ => False
  end.
Proof.
  intros HS Hw Hf. unfold step.
  destruct (sliceFields r) as [Ss nS], (sliceFields r') as [Ss' nS'].
  cbn [fst] in HS. subst Ss'. rewrite Hw, Hf.
  destruct Ss as [|f0 Ss']; [done|].
  case_bool_decide; by destruct (appendStores enc _ (st_files st2)).
Qed.

Lemma loop_same_slices first0 names names' recv recv' :
  Forall2 same_slices recv recv' → ∀ st st2,
  st_w st = st_w st2 → st_files st = st_files st2 →
  out (loop enc e first0 names st recv) = out (loop enc e first0 names' st2 recv') ∧
  how (loop enc e first0 names st recv) = how (loop enc e first0 names' st2 recv').
Proof.
  induction 1 as [|a b recv recv' Hab _ IH]; intros st st2 Hw Hf.
  - cbn [loop].
    pose proof (finalize_out e st) as H1. pose proof (finalize_out e st2) as H2.
    destruct (finalize e st) as [w1 lg1], (finalize e st2) as [w2 lg2].
    cbn in *. by rewrite H1, H2, Hw, Hf.
  - destruct a as [r|err], b as [r'|err']; try done; cbn [loop].
    + pose proof (step_same_slices first0 names names' st st2 r r' Hab Hw Hf) as Hstep.
      destruct (step enc first0 names st r) as [st1|[w1 lg1]],
               (step enc first0 names' st2 r') as [st1'|[w1' lg1']]; try done.
      destruct Hstep as [Hw1 Hf1]. by apply IH.
    + set (lg0 := if bool_decide (err ≠ EOF) then _ else _).
      set (lg0' := if bool_decide (err' ≠ EOF) then _ else _).
      pose proof (finalize_out e (mkState (st_w st) (st_files st) lg0)) as H1.
      pose proof (finalize_out e (mkState (st_w st2) (st_files st2) lg0')) as H2.
      destruct (finalize e (mkState (st_w st) _ lg0)) as [w1 lg1],
               (finalize e (mkState (st_w st2) _ lg0')) as [w2 lg2].
      cbn in *. by rewrite H1, H2, Hw, Hf.
Qed.

(** X17: once the first record has started a merge, the document
    depends on the later answers only through their non-nil slice fields:
    two sources whose records agree on those give the same output and the
    same kind of end, whatever their other fields are and whichever error
    ends the reading, the end of the stream or another one. *)
Theorem output_depends_on_slices_only (w : bytes) first first0
    (others notSlice : list (field Sc E)) recv recv' :
  sliceFields first = (first0 :: others, notSlice) →
  Forall2 same_slices recv recv' →
  out (mergeStreams enc e w first recv) = out (mergeStreams enc e w first recv') ∧
  how (mergeStreams enc e w first recv) = how (mergeStreams enc e w first recv').
Proof.
  intros Hs Hsame. unfold mergeStreams. rewrite Hs.
  destruct (start enc e w first0 others notSlice) as [[names st]|[w' lg]]; [|done].
  by apply loop_same_slices.
Qed.

(** *** The log *)

Lemma step_log_form first0 names st part :
  match step enc first0 names st part with
  | inl st' => st_log st' = st_log st ++ newFieldLog names part
  | inr (_, lg) => lg = st_log st ++ newFieldLog names part
  end.
Proof.
  unfold step, newFieldLog.
  destruct (sliceFields part) as [Ss nS]. cbn [fst snd].
  assert (match schemaErr names Ss nS with
          | Some name => st_log st ++ [LogNewField name]
          | None => st_log st
          end = st_log st ++ match schemaErr names Ss nS with
                             | Some name => [LogNewField name]
                             | None => []
                             end) as ->.
  { destruct (schemaErr names Ss nS); [done | by rewrite app_nil_r]. }
  destruct Ss as [|f0 Ss']; [done|].
  case_bool_decide; by destruct (appendStores enc _ (st_files st)).
Qed.

Lemma newFieldLog_no_recv names part err : LogRecv err ∉ newFieldLog names part.
Proof.
  unfold newFieldLog. destruct (schemaErr names _ _).
  - intros Hin%list_elem_of_singleton. discriminate Hin.
  - apply not_elem_of_nil.
Qed.

Lemma seekLog_no_recv files err : LogRecv (Sc := Sc) (E := E) err ∉ seekLog e files.
Proof.
  unfold seekLog. intros (kv & Heq & _)%list_elem_of_fmap. discriminate Heq.
Qed.

Lemma loop_log_recv err first0 names recv : ∀ st,
  LogRecv err ∉ st_log st →
  LogRecv err ∈ log (loop enc e first0 names st recv) ↔
  how (loop enc e first0 names st recv) = Finished ∧
  head (afterRecords recv) = Some (inr err) ∧ err ≠ EOF.
Proof.
  induction recv as [|[r|err0] recv IH]; intros st Hnot; cbn [loop].
  - pose proof (finalize_log_eq st) as Hlog.
    destruct (finalize e st) as [w lg]. cbn in *. subst lg. split.
    + intros [?|?%seekLog_no_recv]%elem_of_app; done.
    + by intros (_ & ? & _).
  - pose proof (step_log_form first0 names st r) as Hstep.
    destruct (step enc first0 names st r) as [st1|[w1 lg1]].
    + rewrite afterRecords_inl. apply IH. rewrite Hstep.
      intros [?|?%newFieldLog_no_recv]%elem_of_app; done.
    + cbn. split; [|by intros [? _]]. subst lg1.
      intros [?|?%newFieldLog_no_recv]%elem_of_app; done.
  - set (lg0 := if bool_decide (err0 ≠ EOF) then _ else _).
    pose proof (finalize_log_eq (mkState (st_w st) (st_files st) lg0)) as Hlog.
    destruct (finalize e _) as [w lg]. cbn in *. subst lg lg0. split.
    + intros [Hin|?%seekLog_no_recv]%elem_of_app; [|done].
      case_bool_decide; [|done].
      apply elem_of_app in Hin as [?|[= ->]%list_elem_of_singleton]; done.
    + intros (_ & [= ->] & Hne). rewrite bool_decide_eq_true_2 by done.
      apply elem_of_app. left. apply elem_of_app. right. by apply list_elem_of_singleton.
Qed.

Lemma passthrough_log_recv err recv : ∀ (w : bytes) part lg,
  LogRecv err ∉ lg →
  LogRecv err ∈ log (passthrough enc w part recv lg) ↔
  how (passthrough enc w part recv lg) = Finished ∧
  head (afterRecords recv) = Some (inr err) ∧ err ≠ EOF.
Proof.
  induction recv as [|[r|err0] recv IH]; intros w part lg Hnot; cbn [passthrough];
    rewrite Encode_buffer; destruct (enc_err enc (EPart part)) as [err1|]; cbn [log how].
  - split; [|by intros [? _]].
    intros [?|[=]%list_elem_of_singleton]%elem_of_app; done.
  - split; [done | by intros (_ & ? & _)].
  - split; [|by intros [? _]].
    intros [?|[=]%list_elem_of_singleton]%elem_of_app; done.
  - rewrite afterRecords_inl. by apply IH.
  - split; [|by intros [? _]].
    intros [?|[=]%list_elem_of_singleton]%elem_of_app; done.
  - cbn. split.
    + case_bool_decide; [|done].
      intros [?|[= ->]%list_elem_of_singleton]%elem_of_app; done.
    + intros (_ & [= ->] & Hne). rewrite bool_decide_eq_true_2 by done.
      apply elem_of_app. right. by apply list_elem_of_singleton.
Qed.

(** X18: an error of [Recv] is in the log exactly when the run got to
    that answer without stopping early or panicking and the error is not
    the end of the stream; the end of a stream is never logged.  This
    holds in both branches, for every first record and every source. *)
Theorem recv_error_is_logged_iff (w : bytes) first recv err :
  LogRecv err ∈ log (mergeStreams enc e w first recv) ↔
  how (mergeStreams enc e w first recv) = Finished ∧
  head (afterRecords recv) = Some (inr err) ∧ err ≠ EOF.
Proof.
  unfold mergeStreams.
  destruct (sliceFields first) as [[|first0 others] notSlice].
  - apply passthrough_log_recv, not_elem_of_nil.
  - destruct (start enc e w first0 others notSlice) as [[names st]|[w' lg]] eqn:Hstart.
    + apply loop_log_recv. apply start_inl in Hstart as (_ & _ & ->).
      intros [=]%list_elem_of_singleton.
    + cbn. split; [|by intros [? _]].
      unfold start in Hstart.
      destruct (foldl (writeScalar enc) _ notSlice) as [w1 names1].
      destruct (openStores enc e others ∅ _) as [[files names2]|name]; [done|].
      injection Hstart as _ <-.
      intros [[=]|[[=]|?%elem_of_nil]%elem_of_cons]%elem_of_cons. done.
Qed.

Lemma streamed_log first0 names (rs : list (record Sc E)) : ∀ st st',
  streamed enc first0 names st rs = inl st' →
  st_log st' = st_log st ++ concat (newFieldLog names <$> rs).
Proof.
  induction rs as [|r rs IH]; intros st st' Hrun; simpl in Hrun.
  - injection Hrun as <-. cbn. by rewrite app_nil_r.
  - pose proof (step_log_form first0 names st r) as Hstep.
    destruct (step enc first0 names st r) as [st1|[w1 lg1]]; [|done].
    rewrite (IH _ _ Hrun), Hstep, fmap_cons. cbn [concat]. by rewrite <- app_assoc.
Qed.

Lemma loop_log first0 names recv : ∀ st st',
  streamed enc first0 names st (readable recv) = inl st' →
  log (loop enc e first0 names st recv) =
    st_log st' ++ recvLog recv ++ seekLog e (st_files st').
Proof.
  induction recv as [|[r|err] recv IH]; intros st st' Hrun; simpl in Hrun; cbn [loop].
  - injection Hrun as <-. pose proof (finalize_log_eq st) as Hlog.
    destruct (finalize e st) as [w lg]. by cbn in *.
  - destruct (step enc first0 names st r) as [st1|[w1 lg1]]; [|done].
    rewrite recvLog_inl. by apply IH.
  - injection Hrun as <-.
    set (lg0 := if bool_decide (err ≠ EOF) then _ else _).
    pose proof (finalize_log_eq (mkState (st_w st) (st_files st) lg0)) as Hlog.
    destruct (finalize e _) as [w lg]. cbn in *. subst lg lg0. unfold recvLog. cbn.
    case_bool_decide; by rewrite <- ?app_assoc.
Qed.


(** *** Stores and panics *)

(** X20: the stores are those opened before the loop, one for every
    slice field of the first record after the first one; the loop never
    opens another store and never drops one, whatever the records hold. *)
Theorem stores_are_fixed_before_the_loop (w : bytes) first0
    (others notSlice : list (field Sc E)) names st0 st (rs : list (record Sc E)) :
  start enc e w first0 others notSlice = inl (names, st0) →
  streamed enc first0 names st0 rs = inl st →
  ∀ n, is_Some (st_files st !! n) ↔ n ∈ Name <$> others.
Proof.
  intros Hstart Hrun n.
  apply start_inl in Hstart as (_ & Hfiles & _).
  apply streamed_inl in Hrun as [_ Hlookup].
  rewrite Hlookup, fmap_is_Some, Hfiles. split.
  - intros Hsome. destruct (decide (n ∈ Name <$> others)) as [|Hnotin]; [done|].
    rewrite openedStores_lookup_ne, lookup_empty in Hsome by done.
    by destruct Hsome.
  - apply openedStores_is_Some.
Qed.

(** X21: a pass of the loop panics in exactly two cases: the record has
    no non-nil slice field, so that [S[0]] is out of range; or one of its
    slice fields that go to stores has no store, so that the file handle
    is nil.  In every other case the pass goes through. *)
Theorem pass_panics_iff first0 names st part :
  (∃ w lg, step enc first0 names st part = inr (w, lg)) ↔
  (sliceFields part).1 = [] ∨
  Exists (λ f, st_files st !! Name f = None) (spillFields first0 part).
Proof.
  split.
  - intros (w & lg & Hstep).
    destruct (decide ((sliceFields part).1 = [])) as [|Hne]; [by left|]. right.
    destruct (decide (Forall (λ f, is_Some (st_files st !! Name f))
                        (spillFields first0 part))) as [Hall|Hnot].
    + destruct (step_ok enc first0 names st part Hne Hall) as [st' Hok]. congruence.
    + apply not_Forall_Exists in Hnot; [|apply _].
      eapply Exists_impl; [exact Hnot|]. intros f Hf. by apply eq_None_not_Some.
  - intros [Hnil|Hex].
    + destruct (step_panics_without_slices enc first0 names st part Hnil) as [lg Hstep].
      by exists (st_w st), lg.
    + destruct (step enc first0 names st part) as [st'|[w lg]] eqn:Hstep; [|by eauto].
      apply step_inl in Hstep as (_ & _ & Happ).
      assert (is_Some (appendStores enc (spillFields first0 part) (st_files st))) as Hsome
        by (by rewrite Happ).
      apply appendStores_has_store in Hsome.
      apply Exists_exists in Hex as (f & Hf & Hnone).
      rewrite Forall_forall in Hsome. specialize (Hsome f Hf).
      rewrite Hnone in Hsome. by destruct Hsome.
Qed.

Lemma step_inr first0 names st part (w' : bytes) lg' :
  step enc first0 names st part = inr (w', lg') →
  w' = st_w st ++ firstPart enc first0 part ∧
  lg' = st_log st ++ newFieldLog names part.
Proof.
  intros Hstep. split.
  - revert Hstep. unfold step, firstPart.
    destruct (sliceFields part) as [[|f0 Ss'] nS]; cbn [fst].
    + intros [= <- _]. by rewrite app_nil_r.
    + case_bool_decide.
      * rewrite put_buffer, encodeTrimmed_buffer.
        destruct (appendStores enc Ss' (st_files st)); [done|].
        intros [= <- _]. unfold spliced. by rewrite <- app_assoc.
      * destruct (appendStores enc (f0 :: Ss') (st_files st)); [done|].
        intros [= <- _]. by rewrite app_nil_r.
  - pose proof (step_log_form first0 names st part) as Hlog.
    by rewrite Hstep in Hlog.
Qed.

Lemma loop_panicked first0 names part (tl : list (response Sc E)) (w' : bytes) lg'
    (rs : list (record Sc E)) : ∀ st st',
  streamed enc first0 names st rs = inl st' →
  step enc first0 names st' part = inr (w', lg') →
  loop enc e first0 names st ((inl <$> rs) ++ inl part :: tl) =
    mkResult w' lg' tl Panicked.
Proof.
  induction rs as [|r rs IH]; intros st st' Hrun Hstep; simpl in Hrun.
  - injection Hrun as <-. cbn [fmap list_fmap app loop]. by rewrite Hstep.
  - destruct (step enc first0 names st r) as [st1|[w1 lg1]] eqn:Hr; [|done].
    cbn [fmap list_fmap app loop]. rewrite Hr.
    fold (fmap (M := list) (@inl (record Sc E) error) rs). by apply (IH st1 st').
Qed.

(** X22: a merge that runs to its end, with any encoder: the output is
    the head of the document from the first record, what every record
    read sends to the streamed list, the bracket that closes the list,
    the stores on which [Seek] succeeds, each after a comma and closed by
    a bracket, and the closing brace with a line feed; and each store is
    what it was opened with followed by what the records sent to it. *)
Theorem document_of_a_finished_merge (w : bytes) first first0
    (others notSlice : list (field Sc E)) recv names st0 st :
  sliceFields first = (first0 :: others, notSlice) →
  start enc e w first0 others notSlice = inl (names, st0) →
  streamed enc first0 names st0 (readable recv) = inl st →
  let r := mergeStreams enc e w first recv in
  how r = Finished ∧ unread r = tail (afterRecords recv) ∧
  out r = w ++ docHead enc first0 notSlice ++
          concat (firstPart enc first0 <$> readable recv) ++ B "]" ++
          concat ((λ kv : string * bytes, B "," ++ kv.2 ++ B "]")
                  <$> copied e (st_files st)) ++
          B "}" ++ nl ∧
  ∀ n, st_files st !! n =
       (λ c, c ++ concat (spillPart enc first0 n <$> readable recv))
       <$> openedStores enc others ∅ !! n.
Proof.
  intros Hs Hstart Hrun r. subst r.
  rewrite (mergeStreams_merge enc e w first first0 others notSlice names st0 recv Hs Hstart).
  destruct (loop_reaches enc e first0 names recv st0 st Hrun) as (-> & -> & -> & _).
  apply streamed_inl in Hrun as [-> Hfiles].
  apply start_inl in Hstart as (-> & Hopened & _).
  repeat split.
  - unfold spillover, copied. rewrite copied_concat. by rewrite <- !app_assoc.
  - intros n. by rewrite Hfiles, Hopened.
Qed.

(** X23: a pass that panics ends the run where it stands: the records
    before it have been merged, what the panicking record sends to the
    streamed list has been written (nothing, if the panic is at [S[0]]),
    the field the check objected to has been logged, and neither the
    streamed list nor the document is closed; the stores are not copied
    and the rest of the source is not read. *)
Theorem panic_leaves_the_document_open (w : bytes) first first0
    (others notSlice : list (field Sc E)) names st0 st
    (rs : list (record Sc E)) part (tl : list (response Sc E)) :
  sliceFields first = (first0 :: others, notSlice) →
  start enc e w first0 others notSlice = inl (names, st0) →
  streamed enc first0 names st0 rs = inl st →
  (∃ w' lg', step enc first0 names st part = inr (w', lg')) →
  mergeStreams enc e w first ((inl <$> rs) ++ inl part :: tl) =
    mkResult (w ++ docHead enc first0 notSlice ++ concat (firstPart enc first0 <$> rs) ++
              firstPart enc first0 part)
             ([LogSlices (first0 :: others)] ++ concat (newFieldLog names <$> rs) ++
              newFieldLog names part)
             tl Panicked.
Proof.
  intros Hs Hstart Hrun (w' & lg' & Hstep).
  rewrite (mergeStreams_merge enc e w first first0 others notSlice names st0 _ Hs Hstart).
  rewrite (loop_panicked first0 names part tl w' lg' rs st0 st Hrun Hstep).
  apply step_inr in Hstep as [-> ->].
  rewrite (streamed_log _ _ _ _ _ Hrun).
  apply streamed_inl in Hrun as [-> _].
  apply start_inl in Hstart as (-> & _ & ->).
  by rewrite <- !app_assoc.
Qed.
End merge_more.

(** ** Dial options and [Connect] *)

Section dial_more.
Import Dial.
Context {LogFn TracerT PerRPC TransportCreds : Type}.
Variable LogTracer : option LogFn → string → TracerT.
Variable NewBasicAuth NewInsecureBasicAuth : string → string → PerRPC.
Variable NewClientTLSFromFile : string → string → TransportCreds + error.
Implicit Types (conf : DialConfig LogFn TracerT).
Implicit Types (o : DialOption LogFn TracerT PerRPC TransportCreds).

(** The options in three parts: compression and interceptors, the
    credentials, the transport. *)
Lemma DialOpts_parts conf :
  let r := DialOpts LogTracer NewBasicAuth NewInsecureBasicAuth
             NewClientTLSFromFile conf in
  ∃ base auth transport,
    r.1 = base ++ auth ++ transport ∧
    take 2 base = [WithCompressor; WithDecompressor] ∧
    (base = [WithCompressor; WithDecompressor] ∧
       PathPrefix conf = EmptyString ∧ Log conf = None ∨
     base = [WithCompressor; WithDecompressor;
             WithChainStreamInterceptor (PathPrefix conf) (Log conf)
               (default (LogTracer (Log conf) "github.com/UNO-SOFT/grpcer") (Tracer conf));
             WithChainUnaryInterceptor (PathPrefix conf) (Log conf)
               (default (LogTracer (Log conf) "github.com/UNO-SOFT/grpcer") (Tracer conf))] ∧
       (PathPrefix conf ≠ EmptyString ∨ is_Some (Log conf))) ∧
    (auth = [] ∨ ∃ ba, auth = [WithPerRPCCredentials ba]) ∧
    (CAFile conf = EmptyString ∧ transport = [WithInsecure] ∧ r.2 = None ∨
     CAFile conf ≠ EmptyString ∧
     match NewClientTLSFromFile (CAFile conf) (ServerHostOverride conf) with
     | inl creds => transport = [WithTransportCredentials creds] ∧ r.2 = None
     | inr err => transport = [] ∧ r.2 = Some err
     end).
Proof.
  intros r. subst r. unfold DialOpts.
  set (base := if bool_decide (PathPrefix conf ≠ EmptyString) || bool_decide (is_Some (Log conf))
               then _ else _).
  assert (take 2 base = [WithCompressor; WithDecompressor] ∧
          (base = [WithCompressor; WithDecompressor] ∧
             PathPrefix conf = EmptyString ∧ Log conf = None ∨
           base = [WithCompressor; WithDecompressor;
                   WithChainStreamInterceptor (PathPrefix conf) (Log conf)
                     (default (LogTracer (Log conf) "github.com/UNO-SOFT/grpcer") (Tracer conf));
                   WithChainUnaryInterceptor (PathPrefix conf) (Log conf)
                     (default (LogTracer (Log conf) "github.com/UNO-SOFT/grpcer") (Tracer conf))] ∧
             (PathPrefix conf ≠ EmptyString ∨ is_Some (Log conf)))) as [Htake Hbase].
  { subst base. case_bool_decide as Hp; [|case_bool_decide as Hl]; cbn [orb].
    - split; [done|]. right. split; [by destruct (Tracer conf) | by left].
    - split; [done|]. right. split; [by destruct (Tracer conf) | by right].
    - split; [done|]. left. repeat split; [done|].
      by apply eq_None_not_Some. }
  exists base. case_bool_decide as Hca.
  - destruct (AllowInsecurePasswordTransport conf).
    + eexists [_], [WithInsecure]. cbn [fst snd]. rewrite <- app_assoc.
      repeat split; [done | done | by right; eexists | by left].
    + exists [], [WithInsecure]. cbn [fst snd].
      repeat split; [done | done | by left | by left].
  - destruct (NewClientTLSFromFile (CAFile conf) (ServerHostOverride conf)) as [creds|err]
      eqn:Htls.
    + eexists [_], [WithTransportCredentials creds]. cbn [fst snd]. rewrite <- app_assoc.
      repeat split; [done | done | by right; eexists | by right].
    + eexists [_], []. cbn [fst snd].
      repeat split; [done | done | by right; eexists | by right].
Qed.

(** X24: the options make the transport insecure exactly when no CA
    file is configured, and carry transport credentials exactly when a
    CA file is configured and loads, those loaded from it; so never
    both, and a result without error always settles the transport. *)
Theorem transport_follows_the_ca_file conf :
  let r := DialOpts LogTracer NewBasicAuth NewInsecureBasicAuth
             NewClientTLSFromFile conf in
  (WithInsecure ∈ r.1 ↔ CAFile conf = EmptyString) ∧
  (∀ creds, WithTransportCredentials creds ∈ r.1 ↔
            CAFile conf ≠ EmptyString ∧
            NewClientTLSFromFile (CAFile conf) (ServerHostOverride conf) = inl creds) ∧
  (r.2 = None →
   WithInsecure ∈ r.1 ∨ ∃ creds, WithTransportCredentials creds ∈ r.1).
Proof.
  intros r. subst r.
  destruct (DialOpts_parts conf)
    as (base & auth & transport & -> & _ & Hbase & Hauth & Htr).
  assert ((WithInsecure ∉ base ++ auth) ∧
          (∀ creds, WithTransportCredentials creds ∉ base ++ auth)) as [Hi Ht].
  { split; [|intros creds]; rewrite elem_of_app;
      destruct Hbase as [(-> & _)|(-> & _)], Hauth as [->|[ba ->]];
      rewrite ?elem_of_cons, ?elem_of_nil; intros H;
      repeat (destruct H as [H|H]; try discriminate H); done. }
  rewrite !app_assoc. split; [split|split; [intros creds; split|]].
  - intros [?|Hin]%elem_of_app; [done|].
    destruct Htr as [(? & _)|(_ & Htls)]; [done|].
    destruct (NewClientTLSFromFile _ _); destruct Htls as [-> _];
      [apply list_elem_of_singleton in Hin; discriminate Hin | by apply elem_of_nil in Hin].
  - intros Hca. destruct Htr as [(_ & -> & _)|(? & _)]; [|done].
    apply elem_of_app. right. by apply list_elem_of_singleton.
  - intros [?|Hin]%elem_of_app; [by destruct (Ht creds)|].
    destruct Htr as [(_ & -> & _)|(Hca & Htls)].
    + apply list_elem_of_singleton in Hin. discriminate Hin.
    + split; [done|].
      destruct (NewClientTLSFromFile _ _); destruct Htls as [-> _].
      * apply list_elem_of_singleton in Hin. by injection Hin as ->.
      * by apply elem_of_nil in Hin.
  - intros (Hca & Htls). destruct Htr as [(? & _)|(_ & Htr)]; [done|].
    rewrite Htls in Htr. destruct Htr as [-> _].
    apply elem_of_app. right. by apply list_elem_of_singleton.
  - intros Hnone. destruct Htr as [(_ & -> & _)|(_ & Htls)].
    + left. apply elem_of_app. right. by apply list_elem_of_singleton.
    + right. destruct (NewClientTLSFromFile _ _) as [creds|err].
      * destruct Htls as [-> _]. exists creds.
        apply elem_of_app. right. by apply list_elem_of_singleton.
      * destruct Htls as [_ Herr]. congruence.
Qed.

(** X25: the two interceptor chains are installed exactly when a path
    prefix or a logging function is configured, always both, with that
    prefix and that function, and with the configured tracer or, if none
    is configured, the tracer made from the logging function. *)
Theorem interceptors_need_prefix_or_log conf :
  let r := DialOpts LogTracer NewBasicAuth NewInsecureBasicAuth
             NewClientTLSFromFile conf in
  let tracer := default (LogTracer (Log conf) "github.com/UNO-SOFT/grpcer") (Tracer conf) in
  (PathPrefix conf ≠ EmptyString ∨ is_Some (Log conf) →
   WithChainStreamInterceptor (PathPrefix conf) (Log conf) tracer ∈ r.1 ∧
   WithChainUnaryInterceptor (PathPrefix conf) (Log conf) tracer ∈ r.1) ∧
  (∀ p l t, WithChainStreamInterceptor p l t ∈ r.1 ∨
            WithChainUnaryInterceptor p l t ∈ r.1 →
            (PathPrefix conf ≠ EmptyString ∨ is_Some (Log conf)) ∧
            p = PathPrefix conf ∧ l = Log conf ∧ t = tracer).
Proof.
  intros r tracer. subst r.
  destruct (DialOpts_parts conf)
    as (base & auth & transport & -> & _ & Hbase & Hauth & Htr).
  assert (∀ o, o ∈ auth ++ transport →
               (∀ p l t, o ≠ WithChainStreamInterceptor p l t) ∧
               (∀ p l t, o ≠ WithChainUnaryInterceptor p l t)) as Hrest.
  { intros o [Hin|Hin]%elem_of_app.
    - destruct Hauth as [->|[ba ->]]; [by apply elem_of_nil in Hin|].
      apply list_elem_of_singleton in Hin as ->. by split.
    - destruct Htr as [(_ & -> & _)|(_ & Htls)].
      + apply list_elem_of_singleton in Hin as ->. by split.
      + destruct (NewClientTLSFromFile _ _); destruct Htls as [-> _].
        * apply list_elem_of_singleton in Hin as ->. by split.
        * by apply elem_of_nil in Hin. }
  split.
  - intros Hcond. destruct Hbase as [(_ & Hp & Hl)|(-> & _)].
    + destruct Hcond as [?|[? Hsome]]; [done | congruence].
    + split; apply elem_of_app; left; rewrite !elem_of_cons; auto.
  - intros p l t Hin.
    assert (WithChainStreamInterceptor p l t ∈ base ∨
            WithChainUnaryInterceptor p l t ∈ base) as Hin'.
    { destruct Hin as [[?|Hin]%elem_of_app|[?|Hin]%elem_of_app]; auto;
        destruct (Hrest _ Hin) as [H1 H2]; [by destruct (H1 p l t) | by destruct (H2 p l t)]. }
    clear Hin. destruct Hbase as [(-> & _)|(-> & Hcond)].
    + destruct Hin' as [Hin|Hin]; rewrite !elem_of_cons, elem_of_nil in Hin;
        repeat (destruct Hin as [Hin|Hin]; try discriminate Hin); done.
    + split; [done|].
      destruct Hin' as [Hin|Hin]; rewrite !elem_of_cons, elem_of_nil in Hin;
        repeat (destruct Hin as [Hin|Hin]; try discriminate Hin); try done;
        by injection Hin as -> -> ->.
Qed.

(** X26: [DialOpts] fails exactly when a CA file is configured and
    cannot be loaded, with the error of the loader (which the source
    wraps with the two file arguments); the options it returns beside the
    error carry the credentials of [NewBasicAuth] and nothing that
    settles the transport. *)
Theorem dial_options_fail_iff_ca_fails conf err :
  let r := DialOpts LogTracer NewBasicAuth NewInsecureBasicAuth
             NewClientTLSFromFile conf in
  (r.2 = Some err ↔
   CAFile conf ≠ EmptyString ∧
   NewClientTLSFromFile (CAFile conf) (ServerHostOverride conf) = inr err) ∧
  (r.2 = Some err →
   WithPerRPCCredentials (NewBasicAuth (Username conf) (Password conf)) ∈ r.1 ∧
   (WithInsecure ∉ r.1) ∧
   (∀ creds, WithTransportCredentials creds ∉ r.1)).
Proof.
  intros r. subst r.
  assert ((DialOpts LogTracer NewBasicAuth NewInsecureBasicAuth NewClientTLSFromFile conf).2 = Some err ↔
          CAFile conf ≠ EmptyString ∧
          NewClientTLSFromFile (CAFile conf) (ServerHostOverride conf) = inr err) as Hiff.
  { unfold DialOpts. case_bool_decide as Hca; cbn [snd].
    - split; [done | by intros [? _]].
    - destruct (NewClientTLSFromFile _ _) as [creds|err']; cbn [snd].
      + split; [done | by intros [_ ?]].
      + split; [by intros [= ->] | by intros [_ [= ->]]]. }
  split; [exact Hiff|]. intros [Hca Htls]%Hiff.
  unfold DialOpts. rewrite bool_decide_eq_false_2 by done. rewrite Htls. cbn [fst].
  set (base := if bool_decide (PathPrefix conf ≠ EmptyString) || bool_decide (is_Some (Log conf))
               then _ else _).
  assert ((WithInsecure ∉ base) ∧ (∀ creds, WithTransportCredentials creds ∉ base))
    as [Hi Ht].
  { subst base. split; [|intros creds];
      destruct (bool_decide (PathPrefix conf ≠ EmptyString) || bool_decide (is_Some (Log conf)));
      rewrite ?elem_of_app, ?elem_of_cons, ?elem_of_nil; intros H;
      repeat (destruct H as [H|H]; try discriminate H); done. }
  repeat split.
  - apply elem_of_app. right. by apply list_elem_of_singleton.
  - intros [?|Hin%list_elem_of_singleton]%elem_of_app; [done | discriminate Hin].
  - intros creds [?|Hin%list_elem_of_singleton]%elem_of_app;
      [by destruct (Ht creds) | discriminate Hin].
Qed.

(** X27: the options always begin with the compressor and the
    decompressor, and there are at least three and at most six of them,
    the capacity the slice is made with; there are six exactly when the
    interceptors are installed, credentials are sent and the transport is
    settled. *)
Theorem options_fit_the_capacity conf :
  let r := DialOpts LogTracer NewBasicAuth NewInsecureBasicAuth
             NewClientTLSFromFile conf in
  take 2 r.1 = [WithCompressor; WithDecompressor] ∧
  3 ≤ length r.1 ≤ 6 ∧
  (length r.1 = 6 ↔
   (PathPrefix conf ≠ EmptyString ∨ is_Some (Log conf)) ∧
   r.2 = None ∧
   (CAFile conf = EmptyString → AllowInsecurePasswordTransport conf = true)).
Proof.
  intros r. subst r. unfold DialOpts.
  destruct (bool_decide (PathPrefix conf ≠ EmptyString)) eqn:Hp;
    destruct (bool_decide (is_Some (Log conf))) eqn:Hl;
    destruct (bool_decide (CAFile conf = EmptyString)) eqn:Hca;
    destruct (AllowInsecurePasswordTransport conf) eqn:Hallow;
    destruct (NewClientTLSFromFile (CAFile conf) (ServerHostOverride conf)) as [creds|err'];
    cbn [orb fst snd app length take];
    try apply bool_decide_eq_true_1 in Hp; try apply bool_decide_eq_false_1 in Hp;
    try apply bool_decide_eq_true_1 in Hl; try apply bool_decide_eq_false_1 in Hl;
    try apply bool_decide_eq_true_1 in Hca; try apply bool_decide_eq_false_1 in Hca;
    (split; [done|]); (split; [lia|]);
    (split; [intros Hlen; try lia | intros (Hcond & Herr & Himp)]);
    repeat split; auto; try done; try lia;
    try (by destruct Hcond as [?|?]); try (by specialize (Himp Hca)).
Qed.
End dial_more.

Section connect_more.
Import Dial.
Context {LogFn TracerT PerRPC TransportCreds Conn : Type}.
Variable LogTracer : option LogFn → string → TracerT.
Variable NewBasicAuth NewInsecureBasicAuth : string → string → PerRPC.
Variable NewClientTLSFromFile : string → string → TransportCreds + error.
Variable noLog : LogFn.
Variable grpc_Dial :
  string → list (DialOption LogFn TracerT PerRPC TransportCreds) → Conn + error.

(** X28: [Connect] cuts the endpoint at its first slash: the two parts
    put together are the endpoint, the target has no slash, and the
    prefix is empty (when the endpoint has no slash) or begins with the
    slash. *)
Theorem endpoint_is_cut_at_first_slash (endpoint : string) :
  endpoint = (splitEndpoint endpoint).1 +:+ (splitEndpoint endpoint).2 ∧
  Merge.IndexByte (splitEndpoint endpoint).1 "/"%char = None ∧
  ((splitEndpoint endpoint).2 = EmptyString ∧ (splitEndpoint endpoint).1 = endpoint ∨
   ∃ rest, (splitEndpoint endpoint).2 = String "/"%char rest).
Proof.
  unfold splitEndpoint.
  destruct (Merge.IndexByte endpoint "/"%char) as [i|] eqn:Hi; cbn [fst snd].
  - destruct (IndexByte_substring _ _ _ Hi) as (Hnone & _ & Hcat & rest & Hrest).
    repeat split; [done | done | right; by exists rest].
  - repeat split; [|done | by left].
    clear Hi. induction endpoint as [|a s IH]; [done|].
    change (String a s = String a (s +:+ EmptyString)). by rewrite <- IH.
Qed.

(** X29: without a CA file [Connect] always dials, and dials the part
    of the endpoint before the first slash with six options: compression,
    the two interceptor chains (its logging function is never nil) with
    the rest of the endpoint as path prefix, basic-auth credentials for an
    empty user name and an empty password, made for insecure transport,
    and an insecure transport.  What it returns is what [grpc.Dial]
    gives. *)
Theorem connect_without_ca_is_insecure (endpoint serverHostOverride : string) :
  let target := (splitEndpoint endpoint).1 in
  let prefix := (splitEndpoint endpoint).2 in
  let tracer := LogTracer (Some noLog) "github.com/UNO-SOFT/grpcer" in
  let options :=
    [WithCompressor; WithDecompressor;
     WithChainStreamInterceptor prefix (Some noLog) tracer;
     WithChainUnaryInterceptor prefix (Some noLog) tracer;
     WithPerRPCCredentials (NewInsecureBasicAuth EmptyString EmptyString);
     WithInsecure] in
  Connect LogTracer NewBasicAuth NewInsecureBasicAuth NewClientTLSFromFile noLog grpc_Dial
    endpoint EmptyString serverHostOverride =
    {| dialed := Some (target, options); conn := grpc_Dial target options |}.
Proof.
  intros target prefix tracer options. subst target prefix tracer options.
  unfold Connect. destruct (splitEndpoint endpoint) as [target prefix]. cbn [fst snd].
  unfold DialOpts, connectConfig.
  cbn [PathPrefix Log CAFile AllowInsecurePasswordTransport Tracer Username Password].
  rewrite (bool_decide_eq_true_2 (is_Some (Some noLog))) by done.
  rewrite orb_true_r. by rewrite bool_decide_eq_true_2.
Qed.

(** X30: with a CA file [Connect] dials only if the file loads.  If it
    does not, [grpc.Dial] is not called and the error of the loader is
    returned (wrapped, in the source); if it does, the target is dialed with compression, the
    interceptor chains, the credentials of [NewBasicAuth] for an empty
    user name and password, and the transport credentials loaded from the
    file, and never with an insecure transport. *)
Theorem connect_with_ca_needs_the_file (endpoint CAFile serverHostOverride : string) :
  CAFile ≠ EmptyString →
  let target := (splitEndpoint endpoint).1 in
  let prefix := (splitEndpoint endpoint).2 in
  let tracer := LogTracer (Some noLog) "github.com/UNO-SOFT/grpcer" in
  let c := Connect LogTracer NewBasicAuth NewInsecureBasicAuth NewClientTLSFromFile
             noLog grpc_Dial endpoint CAFile serverHostOverride in
  match NewClientTLSFromFile CAFile serverHostOverride with
  | inr err => c = {| dialed := None; conn := inr err |}
  | inl creds =>
      let options :=
        [WithCompressor; WithDecompressor;
         WithChainStreamInterceptor prefix (Some noLog) tracer;
         WithChainUnaryInterceptor prefix (Some noLog) tracer;
         WithPerRPCCredentials (NewBasicAuth EmptyString EmptyString);
         WithTransportCredentials creds] in
      c = {| dialed := Some (target, options); conn := grpc_Dial target options |}
  end.
Proof.
  intros Hca target prefix tracer c. subst target prefix tracer c.
  unfold Connect. destruct (splitEndpoint endpoint) as [target prefix]. cbn [fst snd].
  unfold DialOpts, connectConfig.
  cbn [PathPrefix Log Dial.CAFile ServerHostOverride AllowInsecurePasswordTransport
       Tracer Username Password].
  rewrite (bool_decide_eq_true_2 (is_Some (Some noLog))) by done.
  rewrite orb_true_r. rewrite bool_decide_eq_false_2 by done.
  by destruct (NewClientTLSFromFile CAFile serverHostOverride) as [creds|err].
Qed.
End connect_more.

(** ** The properties at concrete inputs *)

Section sample_more.
Import Merge Sample.

(** X3, witness: a list written in two calls loses its brackets. *)
Lemma one_byte_suffix_is_cut_once_witness :
  filtered (B "[") (B "]") [B "[1"; B ",2]"] = B "1,2".
Proof.
  refine (proj1 (one_byte_suffix_is_cut_once (B "[") (B "]") [B "[1"; B ",2]"] _ _)
            (B "1,2") _).
  - reflexivity.
  - repeat constructor; discriminate.
  - reflexivity.
Defined.

(** X5, witness: the same list in one call, followed by an empty call,
    keeps its closing bracket. *)
Lemma empty_write_releases_suffix_witness :
  filtered (B "[") (B "]") ([B "[1,2]"] ++ [[]]) =
    drop (length (B "[")) (concat [B "[1,2]"]).
Proof.
  apply (empty_write_releases_suffix (B "[") (B "]") [B "[1,2]"]).
  - reflexivity.
  - repeat constructor; discriminate.
  - discriminate.
Defined.

(** X6, witness: with the suffix []}], a closing bracket written first
    and [12}] written next lose the bracket and the brace, though the
    stream does not end with the suffix. *)
Lemma long_suffix_reorders_witness :
  filtered [] (B "]}") [[x5d]; B "12}"] =
    take (length (B "12}") - length (B "]}") + 1) (B "12}") ++
    (if bool_decide (B "]}" = x5d :: drop (length (B "12}") - length (B "]}") + 1) (B "12}"))
     then [] else x5d :: drop (length (B "12}") - length (B "]}") + 1) (B "12}")).
Proof.
  apply (long_suffix_reorders (B "]}") x5d (B "12}")).
  - vm_compute. lia.
  - vm_compute. lia.
Defined.

(** X8, witness: the tag [items,omitempty]. *)
Lemma jsonName_reads_the_tag_witness :
  jsonName (mkStructField "Items" "items" (Scalar (Sc := nat) (E := nat) 1)) =
    (if bool_decide ("items" = EmptyString) then "Items" else "items") ∧
  jsonName (mkStructField "Items" ("items" +:+ String ","%char "omitempty")
              (Scalar (Sc := nat) (E := nat) 1)) =
    (if bool_decide ("items" = EmptyString) then "Items" else "items").
Proof.
  apply (jsonName_reads_the_tag "Items" "items" "omitempty" (Scalar 1)).
  reflexivity.
Defined.

(** X10, witness: two records without slices, then a failing [Recv],
    then a record that is never read. *)
Lemma records_without_slices_pass_through_witness :
  mergeStreams (jsonEncoder false) (calm false) ([] : bytes) (flat 1)
    [inl (flat 2); inr (Err "reset"); inl (flat 3)] =
    mkResult ([] ++ concat (encoded (jsonEncoder false) <$>
                            flat 1 :: readable [inl (flat 2); inr (Err "reset"); inl (flat 3)]))
             (recvLog [inl (flat 2); inr (Err "reset"); inl (flat 3)])
             (tail (afterRecords [inl (flat 2); inr (Err "reset"); inl (flat 3)]))
             Finished.
Proof.
  apply (records_without_slices_pass_through (jsonEncoder false) (calm false) []
           (flat 1) [inl (flat 2); inr (Err "reset"); inl (flat 3)]).
  - reflexivity.
  - intros r _. reflexivity.
Defined.

(** X11, witness: the encoder fails on the second record. *)
Lemma encode_error_ends_pass_through_witness :
  mergeStreams (choosyEncoder 2) (calm false) ([] : bytes) (flat 1)
    ((inl <$> [flat 2]) ++ [inl (flat 3)]) =
    mkResult ([] ++ concat (encoded (choosyEncoder 2) <$> [flat 1] ++ [flat 2]))
             [LogEncode (flat 2) (Err "unsupported value")] [inl (flat 3)] Aborted.
Proof.
  apply (encode_error_ends_pass_through (choosyEncoder 2) (calm false) [] (flat 1)
           [flat 2] [flat 1] (flat 2) (Err "unsupported value") [inl (flat 3)]).
  - reflexivity.
  - reflexivity.
  - repeat constructor.
  - reflexivity.
Defined.

(** X12, witness: stores for C and D, and no temporary file for D. *)
Lemma tempfile_failure_ends_run_witness :
  mergeStreams (jsonEncoder false) (noTempFile "D") ([] : bytes)
    (abcd 7 (Some [1]) (Some [2]) (Some [3])) [inl (abcd 8 (Some [4]) None None)] =
    mkResult ([] ++ docHead (jsonEncoder false) (toField (sliceField "B" (Some [1])))
                      [toField (scalarField "A" 7)])
             [LogSlices (toField (sliceField "B" (Some [1])) ::
                         [toField (sliceField "C" (Some [2]))] ++
                         toField (sliceField "D" (Some [3])) :: []);
              LogTempFile (Name (toField (sliceField "D" (Some [3]))))]
             [inl (abcd 8 (Some [4]) None None)] Aborted.
Proof.
  apply (tempfile_failure_ends_run (jsonEncoder false) (noTempFile "D") []
           (abcd 7 (Some [1]) (Some [2]) (Some [3]))
           (toField (sliceField "B" (Some [1])))
           [toField (sliceField "C" (Some [2]))]
           (toField (sliceField "D" (Some [3]))) []
           [toField (scalarField "A" 7)]
           [inl (abcd 8 (Some [4]) None None)]).
  - reflexivity.
  - repeat constructor.
  - reflexivity.
Defined.

(** X16, witness: the names taken from [first1]: B is a slice, A is
    not, and Z is not recorded. *)
Lemma schema_is_taken_from_first_record_witness :
  started1.1 !! "B" = Some true ∧ started1.1 !! "A" = Some false ∧
  started1.1 !! "Z" = None.
Proof.
  assert (start (jsonEncoder false) (calm false) [] fieldB1 [fieldC1] [fieldA1] =
            inl (started1.1, started1.2)) as Hstart by (vm_compute; reflexivity).
  pose proof (schema_is_taken_from_first_record (jsonEncoder false) (calm false) []
                fieldB1 [fieldC1] [fieldA1] started1.1 started1.2 Hstart) as Hn.
  split; [|split]; [rewrite (Hn "B") | rewrite (Hn "A") | rewrite (Hn "Z")];
    vm_compute; reflexivity.
Defined.

(** X17, witness: a source of records of the sample schema that ends
    with the end of the stream, and a source of records of another type
    with the same slice that ends with an error. *)
Lemma output_depends_on_slices_only_witness :
  out (mergeStreams (jsonEncoder false) (calm false) ([] : bytes) first1
         [inl (abc 8 (Some [3]) None); inr EOF]) =
    out (mergeStreams (jsonEncoder false) (calm false) ([] : bytes) first1
           [inl (bz (Some [3]) 5); inr (Err "reset")]) ∧
  how (mergeStreams (jsonEncoder false) (calm false) ([] : bytes) first1
         [inl (abc 8 (Some [3]) None); inr EOF]) =
    how (mergeStreams (jsonEncoder false) (calm false) ([] : bytes) first1
           [inl (bz (Some [3]) 5); inr (Err "reset")]).
Proof.
  apply (output_depends_on_slices_only (jsonEncoder false) (calm false) [] first1
           fieldB1 [fieldC1] [fieldA1]
           [inl (abc 8 (Some [3]) None); inr EOF]
           [inl (bz (Some [3]) 5); inr (Err "reset")]).
  - reflexivity.
  - repeat constructor.
Defined.


(** X20, witness: after [later1] there is a store for C, and none for
    B, whose elements went to the output. *)
Lemma stores_are_fixed_before_the_loop_witness :
  (is_Some (st_files streamed1 !! "C") ↔ "C" ∈ Name <$> [fieldC1]) ∧
  (is_Some (st_files streamed1 !! "B") ↔ "B" ∈ Name <$> [fieldC1]).
Proof.
  assert (start (jsonEncoder false) (calm false) [] fieldB1 [fieldC1] [fieldA1] =
            inl (started1.1, started1.2)) as Hstart by (vm_compute; reflexivity).
  assert (streamed (jsonEncoder false) fieldB1 started1.1 started1.2 later1 =
            inl streamed1) as Hrun by (vm_compute; reflexivity).
  pose proof (stores_are_fixed_before_the_loop (jsonEncoder false) (calm false) []
                fieldB1 [fieldC1] [fieldA1] started1.1 started1.2 streamed1 later1
                Hstart Hrun) as Hn.
  split; apply Hn.
Defined.

(** X22, witness: the records [later1], then an error; [Seek] fails on
    the store of C, so that the document has no member C. *)
Lemma document_of_a_finished_merge_witness :
  how (mergeStreams (jsonEncoder false) (noSeek "C") ([] : bytes) first1
         ((inl <$> later1) ++ [inr (Err "reset")])) = Finished ∧
  unread (mergeStreams (jsonEncoder false) (noSeek "C") ([] : bytes) first1
            ((inl <$> later1) ++ [inr (Err "reset")])) =
    tail (afterRecords ((inl <$> later1) ++ [inr (Err "reset")])) ∧
  out (mergeStreams (jsonEncoder false) (noSeek "C") ([] : bytes) first1
         ((inl <$> later1) ++ [inr (Err "reset")])) =
    [] ++ docHead (jsonEncoder false) fieldB1 [fieldA1] ++
    concat (firstPart (jsonEncoder false) fieldB1
            <$> readable ((inl <$> later1) ++ [inr (Err "reset")])) ++ B "]" ++
    concat ((λ kv : string * bytes, B "," ++ kv.2 ++ B "]")
            <$> copied (noSeek "C") (st_files streamed1)) ++
    B "}" ++ nl ∧
  ∀ n, st_files streamed1 !! n =
       (λ c, c ++ concat (spillPart (jsonEncoder false) fieldB1 n
                          <$> readable ((inl <$> later1) ++ [inr (Err "reset")])))
       <$> openedStores (jsonEncoder false) [fieldC1] ∅ !! n.
Proof.
  apply (document_of_a_finished_merge (jsonEncoder false) (noSeek "C") [] first1
           fieldB1 [fieldC1] [fieldA1] ((inl <$> later1) ++ [inr (Err "reset")])
           started1.1 started1.2 streamed1).
  - reflexivity.
  - vm_compute. reflexivity.
  - vm_compute. reflexivity.
Defined.

(** X23, witness: after [later1] comes a record whose slices are all
    nil, and one more record that is never read. *)
Lemma panic_leaves_the_document_open_witness :
  mergeStreams (jsonEncoder false) (calm false) ([] : bytes) first1
    ((inl <$> later1) ++ inl last2 :: [inl last3]) =
    mkResult ([] ++ docHead (jsonEncoder false) fieldB1 [fieldA1] ++
              concat (firstPart (jsonEncoder false) fieldB1 <$> later1) ++
              firstPart (jsonEncoder false) fieldB1 last2)
             ([LogSlices (fieldB1 :: [fieldC1])] ++
              concat (newFieldLog started1.1 <$> later1) ++
              newFieldLog started1.1 last2)
             [inl last3] Panicked.
Proof.
  apply (panic_leaves_the_document_open (jsonEncoder false) (calm false) [] first1
           fieldB1 [fieldC1] [fieldA1] started1.1 started1.2 streamed1 later1 last2
           [inl last3]).
  - reflexivity.
  - vm_compute. reflexivity.
  - vm_compute. reflexivity.
  - eexists _, _. vm_compute. reflexivity.
Defined.

(** X30, witness: a CA file that cannot be loaded. *)
Lemma connect_with_ca_needs_the_file_witness :
  Dial.connect "db.example:443/api" "missing.pem" EmptyString =
    Dial.mkConnected None (inr (Err "no such file")).
Proof.
  refine (connect_with_ca_needs_the_file (λ _ _, tt) (λ _ _, true) (λ _ _, false)
            (λ ca _, if bool_decide (ca = "missing.pem") then inr (Err "no such file")
                     else inl ca)
            tt
            (λ target _, if bool_decide (target = EmptyString) then inr (Err "no target")
                         else inl target)
            "db.example:443/api" "missing.pem" EmptyString _).
  discriminate.
Defined.
End sample_more.
